(** * pg_retry: the retry execution engine

    A shallow embedding of the two source variants of the extension,

    - [src/pg_retry.c]      (module [RetainLast]): the catch handler stores
      the terminal error in [last_error] and rethrows it after the loop;
    - [src/src/pg_retry.c]  (module [RethrowInCatch]): the catch handler
      rethrows the terminal error itself.

    The helpers the two files share word for word ([is_retryable_sqlstate],
    [contains_transaction_control], [is_single_statement], [validate_sql],
    [calculate_delay]) are embedded once.

    Conventions.
    - A C [int] is a [Z] in the 32-bit range; [attempt++] and [attempt - 1]
      wrap around ([wrap32]), as PostgreSQL is built with [-fwrapv].
    - A [double] is an IEEE 754 binary64 number: every arithmetic operation
      rounds its exact result to the nearest double, ties to even, and
      overflows to an infinity; no operation is fused or carried out in a
      wider format.  The sign of a zero is not kept.
    - The width of a [long], 32 or 64 bits, is a field of the host.
    - The host (parser, SPI executor, random source) is a record of oracles;
      what the engine does to the host is recorded as a chronological list of
      events.  Cancellation is not modelled: [CHECK_FOR_INTERRUPTS] is an
      event that returns.  Memory contexts, resource owners and the freeing
      of memory are left out.
    - The loops take fuel: [None] is a run that the given number of rounds
      did not end. *)

From Stdlib Require Import ZArith QArith Qpower Qround Qabs Lqa Lia Bool List String Ascii.
From Stdlib Require Import DecimalString.
Import ListNotations.

Local Open Scope string_scope.
Local Open Scope list_scope.
Local Open Scope Z_scope.

(** ** Machine integers *)

Definition INT_MAX : Z := 2147483647.
Definition INT_MIN : Z := -2147483648.

(** Two's-complement reduction of a mathematical integer to a C [int]. *)
Definition wrap32 (z : Z) : Z := (z + 2147483648) mod 4294967296 - 2147483648.

(** ** SQLSTATE codes (host: utils/elog.h, utils/errcodes.h, elog.c) *)

Definition ascii_code (c : ascii) : Z := Z.of_N (N_of_ascii c).

Definition PGSIXBIT (ch : ascii) : Z := Z.land (ascii_code ch - 48) 63.
Definition PGUNSIXBIT (val : Z) : ascii := ascii_of_N (Z.to_N (Z.land val 63 + 48)).

Definition MAKE_SQLSTATE (ch1 ch2 ch3 ch4 ch5 : ascii) : Z :=
  PGSIXBIT ch1 + Z.shiftl (PGSIXBIT ch2) 6 + Z.shiftl (PGSIXBIT ch3) 12
  + Z.shiftl (PGSIXBIT ch4) 18 + Z.shiftl (PGSIXBIT ch5) 24.

(** [unpack_sql_state]: five six-bit groups, least significant first. *)
Fixpoint unpack_groups (n : nat) (sql_state : Z) : string :=
  match n with
  | O => EmptyString
  | S n' => String (PGUNSIXBIT sql_state) (unpack_groups n' (Z.shiftr sql_state 6))
  end.

Definition unpack_sql_state (sql_state : Z) : string := unpack_groups 5 sql_state.

Definition ERRCODE_NULL_VALUE_NOT_ALLOWED : Z := MAKE_SQLSTATE "2" "2" "0" "0" "4".
Definition ERRCODE_INVALID_PARAMETER_VALUE : Z := MAKE_SQLSTATE "2" "2" "0" "2" "3".
Definition ERRCODE_SYNTAX_ERROR : Z := MAKE_SQLSTATE "4" "2" "6" "0" "1".
Definition ERRCODE_FEATURE_NOT_SUPPORTED : Z := MAKE_SQLSTATE "0" "A" "0" "0" "0".
Definition ERRCODE_CONNECTION_FAILURE : Z := MAKE_SQLSTATE "0" "8" "0" "0" "6".
Definition ERRCODE_INTERNAL_ERROR : Z := MAKE_SQLSTATE "X" "X" "0" "0" "0".
Definition ERRCODE_T_R_SERIALIZATION_FAILURE : Z := MAKE_SQLSTATE "4" "0" "0" "0" "1".
Definition ERRCODE_DIVISION_BY_ZERO : Z := MAKE_SQLSTATE "2" "2" "0" "1" "2".

(** [ErrorData], restricted to the two fields the engine reads. *)
Record ErrorData : Type := mkError {
  sqlerrcode : Z;
  message : option string
}.

(** [ereport(ERROR, (errcode(c), errmsg(m)))]. *)
Definition ereport_error (c : Z) (m : string) : ErrorData :=
  {| sqlerrcode := c; message := Some m |}.

(** [%d] of a C [int]. *)
Definition fmt_d (z : Z) : string := NilZero.string_of_int (Z.to_int z).

(** ** Error classifier *)

(** [strcmp] on the contents of two NUL-terminated strings; only the sign of
    the result is specified by C, and only that is kept. *)
Fixpoint strcmp (a b : string) : Z :=
  match a, b with
  | EmptyString, EmptyString => 0
  | EmptyString, String _ _ => -1
  | String _ _, EmptyString => 1
  | String c1 a', String c2 b' =>
      if ascii_code c1 <? ascii_code c2 then -1
      else if ascii_code c2 <? ascii_code c1 then 1
      else strcmp a' b'
  end.

(** A one-dimensional [text[]] as [deconstruct_array] returns it: the
    elements in order, [None] where [nulls[i]] is set. *)
Definition ArrayType : Type := list (option string).

Fixpoint is_retryable_sqlstate (sqlstate : string) (retry_sqlstates : ArrayType) : bool :=
  match retry_sqlstates with
  | [] => false
  | None :: rest => is_retryable_sqlstate sqlstate rest
  | Some elem_str :: rest =>
      if strcmp sqlstate elem_str =? 0 then true
      else is_retryable_sqlstate sqlstate rest
  end.

(** ** Statement validator *)

(** Node tags of raw parse trees; only [T_TransactionStmt] is inspected. *)
Inductive NodeTag : Type :=
| T_TransactionStmt
| T_SelectStmt
| T_InsertStmt
| T_UpdateStmt
| T_DeleteStmt
| T_OtherStmt (tag : Z).

Record RawStmt : Type := mkRawStmt { stmt : NodeTag }.

Definition IsA_TransactionStmt (n : NodeTag) : bool :=
  match n with T_TransactionStmt => true | _ => false end.

(** [NIL] is the null pointer, so [parsetree_list == NULL] is the empty list. *)
Definition contains_transaction_control (parsetree_list : list RawStmt) : bool :=
  match parsetree_list with
  | [raw_stmt] => IsA_TransactionStmt (stmt raw_stmt)
  | _ => false
  end.

(** [pg_parse_query] either raises the parser's own error or returns the list
    of raw statements. *)
Definition ParseOutcome : Type := (ErrorData + list RawStmt)%type.

(** [is_single_statement]: the flag and the stored [*parsed_tree]. *)
Definition is_single_statement (pg_parse_query : string -> ParseOutcome) (sql : string)
  : ErrorData + (bool * list RawStmt) :=
  match pg_parse_query sql with
  | inl e => inl e
  | inr raw_parsetree_list =>
      inr (Z.of_nat (List.length raw_parsetree_list) =? 1, raw_parsetree_list)
  end.

Definition validate_sql (pg_parse_query : string -> ParseOutcome) (sql : string)
  : ErrorData + list RawStmt :=
  match is_single_statement pg_parse_query sql with
  | inl e => inl e
  | inr (single, parsed_tree) =>
      if negb single then
        inl (ereport_error ERRCODE_SYNTAX_ERROR
               "pg_retry: SQL must contain exactly one statement")
      else if contains_transaction_control parsed_tree then
        inl (ereport_error ERRCODE_FEATURE_NOT_SUPPORTED
               "pg_retry: transaction control statements are not allowed")
      else inr parsed_tree
  end.

(** ** Backoff calculator *)

(** [float.h] of IEEE 754 binary64. *)
Definition DBL_MANT_DIG : Z := 53.
Definition DBL_MAX_EXP : Z := 1024.
Definition DBL_MIN_EXP : Z := -1021.

(** A [double]: a rational that binary64 represents, an infinity or NaN.
    The sign of a zero is not kept; nothing here tells the two zeros apart. *)
Inductive double : Type :=
| Finite (q : Q)
| Infinity (negative : bool)
| NaN.

(** The binary exponent of a positive rational: [2^e <= q < 2^(e+1)]. *)
Definition ilog2 (q : Q) : Z :=
  let e := Z.log2 (Qnum q) - Z.log2 (Zpos (Qden q)) in
  if Qle_bool (2 ^ e) q then e else e - 1.

(** The exponent of the unit in the last place of the doubles around [q]:
    53 significant bits, and the fixed spacing [2^-1074] of the subnormals
    below [DBL_MIN]. *)
Definition ulp_exponent (q : Q) : Z :=
  Z.max (DBL_MIN_EXP - DBL_MANT_DIG) (ilog2 (Qabs q) + 1 - DBL_MANT_DIG).

(** The nearest integer, the even one of two that are equally near. *)
Definition round_half_even (z : Q) : Z :=
  let f := Qfloor z in
  match (z - inject_Z f ?= 1 # 2)%Q with
  | Lt => f
  | Gt => f + 1
  | Eq => if Z.even f then f else f + 1
  end.

(** Rounding to nearest, ties to even, with an unbounded exponent above. *)
Definition round_double (q : Q) : Q :=
  let q := Qred q in
  if Qeq_bool q 0 then 0%Q
  else let ulp := (2 ^ ulp_exponent q)%Q in
       (inject_Z (round_half_even (q / ulp)) * ulp)%Q.

Definition is_negative (q : Q) : bool := Qnum q <? 0.

(** The [double] of a real result: rounded, and an infinity when the
    rounded value is beyond the largest [double]. *)
Definition double_of_real (q : Q) : double :=
  let r := round_double q in
  if Qle_bool (2 ^ DBL_MAX_EXP) (Qabs r) then Infinity (is_negative r) else Finite r.

(** [(double)i] of an [int]: exact. *)
Definition double_of_int (i : Z) : double := Finite (inject_Z i).

(** [x * y]: zero times infinity is NaN. *)
Definition dmul (x y : double) : double :=
  match x, y with
  | NaN, _ | _, NaN => NaN
  | Finite a, Finite b => double_of_real (a * b)
  | Finite a, Infinity n | Infinity n, Finite a =>
      if Qeq_bool a 0 then NaN else Infinity (xorb n (is_negative a))
  | Infinity n, Infinity m => Infinity (xorb n m)
  end.

(** [x + y] and [x - y]: infinity minus infinity is NaN. *)
Definition dadd (x y : double) : double :=
  match x, y with
  | NaN, _ | _, NaN => NaN
  | Finite a, Finite b => double_of_real (a + b)
  | Finite _, Infinity n | Infinity n, Finite _ => Infinity n
  | Infinity n, Infinity m => if Bool.eqb n m then Infinity n else NaN
  end.

Definition dopp (x : double) : double :=
  match x with
  | Finite a => Finite (- a)
  | Infinity n => Infinity (negb n)
  | NaN => NaN
  end.

Definition dsub (x y : double) : double := dadd x (dopp y).

(** [x < y]: false as soon as one side is NaN. *)
Definition dlt (x y : double) : bool :=
  match x, y with
  | NaN, _ | _, NaN => false
  | Finite a, Finite b => negb (Qle_bool b a)
  | Finite _, Infinity n => negb n
  | Infinity n, Finite _ => n
  | Infinity n, Infinity m => n && negb m
  end.

(** The [Min] macro: [((x) < (y) ? (x) : (y))]. *)
Definition Min (x y : double) : double := if dlt x y then x else y.

(** [pow(2.0, e)] for an [int] exponent: the power itself where binary64
    has it, plus infinity from exponent 1024 on, zero below the least
    subnormal. *)
Definition pow2 (e : Z) : double :=
  if DBL_MAX_EXP <=? e then Infinity false
  else if e <? DBL_MIN_EXP - DBL_MANT_DIG then Finite 0
  else Finite (2 ^ e).

(** The width of the host's [long]: 64 bits on the LP64 platforms, 32 bits
    on 64-bit Windows and on the 32-bit platforms. *)
Inductive LongWidth : Type := Long32 | Long64.

Definition LONG_BIT (w : LongWidth) : Z :=
  match w with Long32 => 32 | Long64 => 64 end.

Definition LONG_MAX (w : LongWidth) : Z := 2 ^ (LONG_BIT w - 1) - 1.
Definition LONG_MIN (w : LongWidth) : Z := - 2 ^ (LONG_BIT w - 1).

(** Two's-complement reduction to a [long], as for [int]. *)
Definition wrap_long (w : LongWidth) (z : Z) : Z :=
  (z + 2 ^ (LONG_BIT w - 1)) mod 2 ^ LONG_BIT w - 2 ^ (LONG_BIT w - 1).

(** The cast [(long)delay]: truncation toward zero.  C leaves the cast of a
    value outside [long], of an infinity and of NaN undefined; what the x86
    conversion instructions yield for them is [LONG_MIN]. *)
Definition long_of_double (w : LongWidth) (x : double) : Z :=
  match x with
  | Finite q =>
      let z := Z.quot (Qnum q) (Zpos (Qden q)) in
      if (LONG_MIN w <=? z) && (z <=? LONG_MAX w) then z else LONG_MIN w
  | _ => LONG_MIN w
  end.

(** [uniform] is the draw of the call: the quotient [rand() / RAND_MAX],
    which the division rounds, in [src/pg_retry.c]; the [double] that
    [pg_prng_double(&pg_global_prng_state)] returns in [src/src/pg_retry.c].
    The rest of the two bodies is the same. *)
Definition calculate_delay (w : LongWidth) (uniform : Q)
    (attempt base_delay_ms max_delay_ms : Z) : Z :=
  let delay := dmul (double_of_int base_delay_ms) (pow2 (wrap32 (attempt - 1))) in
  let delay := Min delay (double_of_int max_delay_ms) in
  let jitter := dsub (dmul (dmul (double_of_real uniform) delay) (double_of_real (4 # 10)))
                     (dmul delay (double_of_real (2 # 10))) in
  let delay := dadd delay jitter in
  Z.max 1 (long_of_double w delay).

(** ** Default retryable codes *)

(** [isspace] in the "C" locale. *)
Definition isspace (c : ascii) : bool :=
  let n := ascii_code c in (n =? 32) || ((9 <=? n) && (n <=? 13)).

Definition is_comma (c : ascii) : bool := ascii_code c =? 44.

(** The first inner loop: advance [ptr] over white space. *)
Fixpoint skip_spaces (ptr : string) : string :=
  match ptr with
  | String c rest => if isspace c then skip_spaces rest else ptr
  | EmptyString => ptr
  end.

(** The second inner loop: advance [ptr] to the next comma or to the end;
    the result is the text between [start] and [end], and what is left at
    [ptr]. *)
Fixpoint scan_field (ptr : string) : string * string :=
  match ptr with
  | String c rest =>
      if is_comma c then (EmptyString, ptr)
      else let '(field, ptr') := scan_field rest in (String c field, ptr')
  | EmptyString => (EmptyString, EmptyString)
  end.

(** The third inner loop: move [end] back over trailing white space. *)
Fixpoint trim_end (field : string) : string :=
  match field with
  | EmptyString => EmptyString
  | String c rest =>
      match trim_end rest with
      | EmptyString => if isspace c then EmptyString else String c EmptyString
      | kept => String c kept
      end
  end.

(** The token loop of [build_sqlstate_array]; every round of the outer
    [while] moves [ptr] forward, so the length of the input bounds the
    rounds. *)
Fixpoint sqlstate_tokens (rounds : nat) (ptr : string) : list string :=
  match rounds with
  | O => []
  | S rounds' =>
      match ptr with
      | EmptyString => []
      | _ =>
          let ptr := skip_spaces ptr in
          let '(field, ptr) := scan_field ptr in
          let token := trim_end field in
          let ptr := match ptr with
                     | String c rest => if is_comma c then rest else ptr
                     | EmptyString => ptr
                     end in
          match token with
          | EmptyString => sqlstate_tokens rounds' ptr
          | _ => token :: sqlstate_tokens rounds' ptr
          end
      end
  end.

(** [build_sqlstate_array] of [src/src/pg_retry.c]; [construct_empty_array] is
    the array without elements. *)
Definition build_sqlstate_array (csv : string) : ArrayType :=
  match csv with
  | EmptyString => []
  | _ => map Some (sqlstate_tokens (String.length csv) csv)
  end.

(** Host: [text_to_array(textin(csv), ",")], which [src/pg_retry.c] uses for the
    default list: the fields between the commas as they stand, and the empty
    array for the empty string. *)
Fixpoint split_commas (s : string) : list string :=
  match s with
  | EmptyString => [EmptyString]
  | String c rest =>
      if is_comma c then EmptyString :: split_commas rest
      else match split_commas rest with
           | field :: fields => String c field :: fields
           | [] => [String c EmptyString]
           end
  end.

Definition text_to_array (csv : string) : ArrayType :=
  match csv with
  | EmptyString => []
  | _ => map Some (split_commas csv)
  end.

(** ** Invocation, configuration and host *)

(** The five SQL arguments; [None] is SQL NULL ([PG_ARGISNULL]). *)
Record Args : Type := mkArgs {
  arg_sql : option string;
  arg_max_tries : option Z;
  arg_base_delay_ms : option Z;
  arg_max_delay_ms : option Z;
  arg_retry_sqlstates : option ArrayType
}.

(** The GUC variables. *)
Record Guc : Type := mkGuc {
  pg_retry_default_max_tries : Z;
  pg_retry_default_base_delay_ms : Z;
  pg_retry_default_max_delay_ms : Z;
  pg_retry_default_sqlstates_str : string
}.

(** Their compiled-in values. *)
Definition boot_guc : Guc :=
  {| pg_retry_default_max_tries := 3;
     pg_retry_default_base_delay_ms := 50;
     pg_retry_default_max_delay_ms := 1000;
     pg_retry_default_sqlstates_str := "40001,40P01,55P03,57014" |}.

(** What one [SPI_execute] inside the subtransaction does: it returns a
    result code with [SPI_processed] set, or an error is thrown. *)
Inductive SpiOutcome : Type :=
| SpiReturns (spi_result : Z) (SPI_processed : Z)
| SpiThrows (e : ErrorData).

Definition SPI_OK_CONNECT : Z := 1.
Definition SPI_OK_UPDATE : Z := 9.

(** The host as the engine sees it.  [SPI_execute k] is the outcome of the
    [k]-th execution (from 0) of the invocation's statement, [prng k] the
    [k]-th uniform draw of the invocation, [long_width] the width of a
    [long] on the platform. *)
Record Host : Type := mkHost {
  pg_parse_query : string -> ParseOutcome;
  SPI_connect_ext : Z;
  SPI_execute : nat -> SpiOutcome;
  prng : nat -> Q;
  long_width : LongWidth
}.

(** What the engine does to the host, in order. *)
Inductive Event : Type :=
| EvSpiConnect
| EvBeginSub                 (* BeginInternalSubTransaction *)
| EvExecute                  (* SPI_execute: one attempt *)
| EvReleaseSub               (* ReleaseCurrentSubTransaction *)
| EvRollbackSub              (* RollbackAndReleaseCurrentSubTransaction *)
| EvWarning (w : ErrorData)  (* ereport(WARNING, ...) *)
| EvSleep (usec : Z)         (* pg_usleep *)
| EvCheckInterrupts
| EvSpiFinish.

Definition Trace : Type := list Event.

Definition is_execute (e : Event) : bool := match e with EvExecute => true | _ => false end.
Definition is_sleep (e : Event) : bool := match e with EvSleep _ => true | _ => false end.
Definition is_warning (e : Event) : bool := match e with EvWarning _ => true | _ => false end.
Definition is_begin (e : Event) : bool := match e with EvBeginSub => true | _ => false end.

Definition n_attempts (t : Trace) : nat := List.length (filter is_execute t).
Definition n_sleeps (t : Trace) : nat := List.length (filter is_sleep t).
Definition warnings (t : Trace) : Trace := filter is_warning t.
Definition sleeps (t : Trace) : Trace := filter is_sleep t.
Definition n_warnings (t : Trace) : nat := List.length (warnings t).
Definition n_scopes (t : Trace) : nat := List.length (filter is_begin t).

(** How an invocation ends, by the program point that ends it. *)
Inductive Result : Type :=
| Returned (rows : Z)          (* PG_RETURN_INT32(processed_rows) *)
| Rejected (e : ErrorData)     (* ereport(ERROR) before the retry loop *)
| Rethrown (e : ErrorData)     (* ReThrowError *)
| InternalError (e : ErrorData). (* the defensive ereport(ERROR) after the loop *)

(** The error the caller sees, whatever raised it. *)
Definition propagated (r : Result) : option ErrorData :=
  match r with
  | Returned _ => None
  | Rejected e | Rethrown e | InternalError e => Some e
  end.

(** The validated arguments the loop runs with. *)
Record Params : Type := mkParams {
  sql : string;
  max_tries : Z;
  base_delay_ms : Z;
  max_delay_ms : Z;
  retry_sqlstates : ArrayType
}.

Definition or_default (arg : option Z) (dflt : Z) : Z :=
  match arg with Some v => v | None => dflt end.

(** Argument extraction and validation, up to and including [validate_sql];
    the two files differ only in how the default array is built, which is
    passed in as [default_array]. *)
Definition extract_and_validate (guc : Guc) (h : Host) (args : Args)
    (default_array : ArrayType) : ErrorData + Params :=
  match arg_sql args with
  | None => inl (ereport_error ERRCODE_NULL_VALUE_NOT_ALLOWED
                   "pg_retry: sql parameter cannot be null")
  | Some sql =>
      let max_tries := or_default (arg_max_tries args) (pg_retry_default_max_tries guc) in
      let base_delay_ms := or_default (arg_base_delay_ms args) (pg_retry_default_base_delay_ms guc) in
      let max_delay_ms := or_default (arg_max_delay_ms args) (pg_retry_default_max_delay_ms guc) in
      let retry_sqlstates :=
        match arg_retry_sqlstates args with
        | None => default_array
        | Some a => a
        end in
      if max_tries <? 1 then
        inl (ereport_error ERRCODE_INVALID_PARAMETER_VALUE
               "pg_retry: max_tries must be >= 1")
      else if (base_delay_ms <? 0) || (max_delay_ms <? 0) then
        inl (ereport_error ERRCODE_INVALID_PARAMETER_VALUE
               "pg_retry: delay parameters must be >= 0")
      else if max_delay_ms <? base_delay_ms then
        inl (ereport_error ERRCODE_INVALID_PARAMETER_VALUE
               "pg_retry: base_delay_ms cannot be greater than max_delay_ms")
      else
        match validate_sql (pg_parse_query h) sql with
        | inl e => inl e
        | inr _ =>
            inr {| sql := sql; max_tries := max_tries;
                   base_delay_ms := base_delay_ms; max_delay_ms := max_delay_ms;
                   retry_sqlstates := retry_sqlstates |}
        end
  end.

(** ** One attempt: the parts the two files share *)

(** The [PG_TRY] block after [BeginInternalSubTransaction]: the error that
    reaches [PG_CATCH], or the value stored in [processed_rows] (the [uint64]
    [SPI_processed] assigned to an [int]). *)
Definition try_block (o : SpiOutcome) : ErrorData + Z :=
  match o with
  | SpiThrows e => inl e
  | SpiReturns spi_result processed =>
      if spi_result <? 0 then
        inl (ereport_error ERRCODE_INTERNAL_ERROR
               ("pg_retry: SPI_execute failed with code " ++ fmt_d spi_result)%string)
      else inr (wrap32 processed)
  end.

(** The value of [should_retry] after the classification in [PG_CATCH]. *)
Definition should_retry (errdata : ErrorData) (retry_sqlstates : ArrayType) : bool :=
  if sqlerrcode errdata =? 0 then false
  else is_retryable_sqlstate (unpack_sql_state (sqlerrcode errdata)) retry_sqlstates.

(** The warning reported for a retryable failure. *)
Definition retry_warning (attempt max_tries : Z) (errdata : ErrorData) : ErrorData :=
  {| sqlerrcode := sqlerrcode errdata;
     message := Some ("pg_retry: attempt " ++ fmt_d attempt ++ "/" ++ fmt_d max_tries
                      ++ " failed with SQLSTATE " ++ unpack_sql_state (sqlerrcode errdata)
                      ++ ": " ++ match message errdata with
                                 | Some m => m
                                 | None => "unknown error"
                                 end)%string |}.

(** The trace after the classification: the subtransaction is rolled back,
    and a retryable failure is warned about. *)
Definition classify (p : Params) (attempt : Z) (errdata : ErrorData) (t : Trace) : Trace :=
  let t := t ++ [EvRollbackSub] in
  if should_retry errdata (retry_sqlstates p)
  then t ++ [EvWarning (retry_warning attempt (max_tries p) errdata)]
  else t.

(** The backoff wait of the retry branch. *)
Definition backoff (h : Host) (p : Params) (attempt : Z) (t : Trace) : Trace :=
  if attempt <? max_tries p then
    let delay_ms := calculate_delay (long_width h) (prng h (n_sleeps t)) attempt
                      (base_delay_ms p) (max_delay_ms p) in
    t ++ [EvSleep (wrap_long (long_width h) (delay_ms * 1000)); EvCheckInterrupts]
  else t.

(** ** [src/pg_retry.c]: the last error is kept and rethrown after the loop *)

Module RetainLast.

(** The [volatile] locals that live across attempts. *)
Record Locals : Type := mkLocals {
  processed_rows : Z;
  success : bool;
  last_error : option ErrorData
}.

Definition init : Locals :=
  {| processed_rows := 0; success := false; last_error := None |}.

(** One round of the [for] loop, up to [PG_END_TRY]. *)
Definition attempt_once (h : Host) (p : Params) (attempt : Z)
    (st : Locals) (t : Trace) : Locals * Trace :=
  let t := t ++ [EvBeginSub] in
  let outcome := SPI_execute h (n_attempts t) in
  let t := t ++ [EvExecute] in
  match try_block outcome with
  | inr rows =>
      ({| processed_rows := rows; success := true; last_error := last_error st |},
       t ++ [EvReleaseSub])
  | inl errdata =>
      let t := classify p attempt errdata t in
      if negb (should_retry errdata (retry_sqlstates p)) || (attempt =? max_tries p)
      then
        (* save error for rethrow *)
        ({| processed_rows := processed_rows st; success := success st;
            last_error := Some errdata |}, t)
      else
        (* retry after delay *)
        (st, backoff h p attempt t)
  end.

(** [for (attempt = 1; attempt <= max_tries; attempt++)], left by [break]
    on success; [None] when [fuel] rounds did not end it. *)
Fixpoint retry_loop (fuel : nat) (h : Host) (p : Params) (attempt : Z)
    (st : Locals) (t : Trace) : option (Locals * Trace) :=
  match fuel with
  | O => None
  | S fuel' =>
      if attempt <=? max_tries p then
        let '(st', t') := attempt_once h p attempt st t in
        if success st' then Some (st', t')
        else retry_loop fuel' h p (wrap32 (attempt + 1)) st' t'
      else Some (st, t)
  end.

(** What follows the loop: [SPI_finish] and the final result. *)
Definition finish (st : Locals) (t : Trace) : Result * Trace :=
  let t := t ++ [EvSpiFinish] in
  if success st then (Returned (processed_rows st), t)
  else match last_error st with
       | Some e => (Rethrown e, t)
       | None => (InternalError (ereport_error ERRCODE_INTERNAL_ERROR
                                   "pg_retry: all retry attempts failed"), t)
       end.

Definition run_validated (fuel : nat) (h : Host) (p : Params) : option (Result * Trace) :=
  if negb (SPI_connect_ext h =? SPI_OK_CONNECT) then
    Some (Rejected (ereport_error ERRCODE_CONNECTION_FAILURE
                      "pg_retry: SPI_connect failed"), [EvSpiConnect])
  else
    match retry_loop fuel h p 1 init [EvSpiConnect] with
    | None => None
    | Some (st, t) => Some (finish st t)
    end.

Definition pg_retry_retry (fuel : nat) (guc : Guc) (h : Host) (args : Args)
  : option (Result * Trace) :=
  match extract_and_validate guc h args
          (text_to_array (pg_retry_default_sqlstates_str guc)) with
  | inl e => Some (Rejected e, [])
  | inr p => run_validated fuel h p
  end.

End RetainLast.

(** ** [src/src/pg_retry.c]: the catch handler rethrows *)

Module RethrowInCatch.

Record Locals : Type := mkLocals {
  processed_rows : Z;
  success : bool
}.

Definition init : Locals := {| processed_rows := 0; success := false |}.

(** A round either falls through [PG_END_TRY] or leaves the function by
    [ReThrowError]. *)
Inductive Round : Type :=
| Falls (st : Locals) (t : Trace)
| Throws (e : ErrorData) (t : Trace).

Definition attempt_once (h : Host) (p : Params) (attempt : Z)
    (st : Locals) (t : Trace) : Round :=
  let t := t ++ [EvBeginSub] in
  let outcome := SPI_execute h (n_attempts t) in
  let t := t ++ [EvExecute] in
  match try_block outcome with
  | inr rows =>
      Falls {| processed_rows := rows; success := true |} (t ++ [EvReleaseSub])
  | inl errdata =>
      let t := classify p attempt errdata t in
      if negb (should_retry errdata (retry_sqlstates p)) || (attempt =? max_tries p)
      then
        (* rethrow immediately *)
        Throws errdata t
      else
        (* retry after delay *)
        Falls st (backoff h p attempt t)
  end.

Fixpoint retry_loop (fuel : nat) (h : Host) (p : Params) (attempt : Z)
    (st : Locals) (t : Trace) : option Round :=
  match fuel with
  | O => None
  | S fuel' =>
      if attempt <=? max_tries p then
        match attempt_once h p attempt st t with
        | Throws e t' => Some (Throws e t')
        | Falls st' t' =>
            if success st' then Some (Falls st' t')
            else retry_loop fuel' h p (wrap32 (attempt + 1)) st' t'
        end
      else Some (Falls st t)
  end.

Definition finish (r : Round) : Result * Trace :=
  match r with
  | Throws e t => (Rethrown e, t)
  | Falls st t =>
      let t := t ++ [EvSpiFinish] in
      if success st then (Returned (processed_rows st), t)
      else (InternalError (ereport_error ERRCODE_INTERNAL_ERROR
                             "pg_retry: unexpected error state"), t)
  end.

Definition run_validated (fuel : nat) (h : Host) (p : Params) : option (Result * Trace) :=
  if negb (SPI_connect_ext h =? SPI_OK_CONNECT) then
    Some (Rejected (ereport_error ERRCODE_CONNECTION_FAILURE
                      "pg_retry: SPI_connect failed"), [EvSpiConnect])
  else
    match retry_loop fuel h p 1 init [EvSpiConnect] with
    | None => None
    | Some r => Some (finish r)
    end.

Definition pg_retry_retry (fuel : nat) (guc : Guc) (h : Host) (args : Args)
  : option (Result * Trace) :=
  match extract_and_validate guc h args
          (build_sqlstate_array (pg_retry_default_sqlstates_str guc)) with
  | inl e => Some (Rejected e, [])
  | inr p => run_validated fuel h p
  end.

End RethrowInCatch.

(** ** The rejection conditions of the specification *)

(** The kinds of rejection the specification names. *)
Inductive RejectionKind : Type :=
| InvalidInput
| SyntaxError
| UnsupportedStatement
| InvalidParameter.

Definition errcode_of_kind (k : RejectionKind) : Z :=
  match k with
  | InvalidInput => ERRCODE_NULL_VALUE_NOT_ALLOWED
  | SyntaxError => ERRCODE_SYNTAX_ERROR
  | UnsupportedStatement => ERRCODE_FEATURE_NOT_SUPPORTED
  | InvalidParameter => ERRCODE_INVALID_PARAMETER_VALUE
  end.

(** The conditions of the specification, in its words: a null statement; a
    statement that parses to other than exactly one statement; a
    transaction-control statement; maxTries < 1, a negative delay, or
    baseDelayMs > maxDelayMs (after the defaults are filled in). *)
Definition violates (guc : Guc) (h : Host) (args : Args) (k : RejectionKind) : bool :=
  match k with
  | InvalidInput =>
      match arg_sql args with None => true | Some _ => false end
  | SyntaxError =>
      match arg_sql args with
      | None => false
      | Some s => match pg_parse_query h s with
                  | inl _ => false
                  | inr l => negb (Nat.eqb (List.length l) 1)
                  end
      end
  | UnsupportedStatement =>
      match arg_sql args with
      | None => false
      | Some s => match pg_parse_query h s with
                  | inr [st] => IsA_TransactionStmt (stmt st)
                  | _ => false
                  end
      end
  | InvalidParameter =>
      let max_tries := or_default (arg_max_tries args) (pg_retry_default_max_tries guc) in
      let base := or_default (arg_base_delay_ms args) (pg_retry_default_base_delay_ms guc) in
      let max := or_default (arg_max_delay_ms args) (pg_retry_default_max_delay_ms guc) in
      (max_tries <? 1) || (base <? 0) || (max <? 0) || (max <? base)
  end.

(** ** Vocabulary of the properties *)

(** The error with which the [k]-th execution fails, if it fails: thrown by
    the executor, or raised by the engine for a negative result code. *)
Definition failure_at (h : Host) (k : nat) : option ErrorData :=
  match try_block (SPI_execute h k) with
  | inl e => Some e
  | inr _ => None
  end.

(** The [k]-th execution fails with an error the engine classifies as
    retryable. *)
Definition retryable_failure (h : Host) (codes : ArrayType) (k : nat) : bool :=
  match failure_at h k with
  | Some e => should_retry e codes
  | None => false
  end.


(** What one round adds to the trace: a success, a failure that is retried
    after a wait, and a failure that ends the retrying. *)
Definition success_round : Trace := [EvBeginSub; EvExecute; EvReleaseSub].

Definition retry_round (h : Host) (p : Params) (attempt : Z) (e : ErrorData)
    (slept : nat) : Trace :=
  [EvBeginSub; EvExecute; EvRollbackSub;
   EvWarning (retry_warning attempt (max_tries p) e);
   EvSleep (wrap_long (long_width h)
              (calculate_delay (long_width h) (prng h slept) attempt
                 (base_delay_ms p) (max_delay_ms p) * 1000));
   EvCheckInterrupts].

Definition failed_round (p : Params) (attempt : Z) (e : ErrorData) : Trace :=
  [EvBeginSub; EvExecute; EvRollbackSub]
  ++ (if should_retry e (retry_sqlstates p)
      then [EvWarning (retry_warning attempt (max_tries p) e)]
      else []).

(** What the caller and the outside can observe of an invocation: the rows
    returned or the error propagated, how many attempts ran, the waits and
    the warnings. *)
Record Observation : Type := mkObservation {
  obs_rows : option Z;
  obs_error : option ErrorData;
  obs_attempts : nat;
  obs_sleeps : Trace;
  obs_warnings : Trace
}.

Definition observe (x : Result * Trace) : Observation :=
  {| obs_rows := match fst x with Returned rows => Some rows | _ => None end;
     obs_error := propagated (fst x);
     obs_attempts := n_attempts (snd x);
     obs_sleeps := sleeps (snd x);
     obs_warnings := warnings (snd x) |}.

(** ** Concrete invocations *)

Definition parses_one_update : string -> ParseOutcome :=
  fun _ => inr [ {| stmt := T_UpdateStmt |} ].

Definition serialization_failure (msg : string) : ErrorData :=
  {| sqlerrcode := ERRCODE_T_R_SERIALIZATION_FAILURE; message := Some msg |}.

Definition division_by_zero : ErrorData :=
  {| sqlerrcode := ERRCODE_DIVISION_BY_ZERO; message := Some "division by zero" |}.

(** A host on which the first [failing] executions fail as [outcome] says
    and every later one updates seven rows. *)
Definition host_failing_first (failing : Z) (outcome : nat -> ErrorData) : Host :=
  {| pg_parse_query := parses_one_update;
     SPI_connect_ext := SPI_OK_CONNECT;
     SPI_execute := fun k => if Z.of_nat k <? failing then SpiThrows (outcome k)
                             else SpiReturns SPI_OK_UPDATE 7;
     prng := fun _ => (1 # 2)%Q;
     long_width := Long64 |}.

(** A host on which every execution fails with a serialization failure. *)
Definition host_always_failing : Host :=
  {| pg_parse_query := parses_one_update;
     SPI_connect_ext := SPI_OK_CONNECT;
     SPI_execute := fun _ => SpiThrows (serialization_failure "could not serialize access");
     prng := fun _ => (1 # 2)%Q;
     long_width := Long64 |}.

Definition args_update (max_tries : Z) : Args :=
  {| arg_sql := Some "UPDATE t SET x=1";
     arg_max_tries := Some max_tries;
     arg_base_delay_ms := Some 50;
     arg_max_delay_ms := Some 1000;
     arg_retry_sqlstates := None |}.

Definition default_codes : ArrayType :=
  [Some "40001"; Some "40P01"; Some "55P03"; Some "57014"].

(** The parameters [args_update max_tries] is validated to. *)
Definition params_update (max_tries : Z) : Params :=
  {| sql := "UPDATE t SET x=1"; max_tries := max_tries;
     base_delay_ms := 50; max_delay_ms := 1000;
     retry_sqlstates := default_codes |}.

(** The first [INT_MAX] executions fail with a serialization failure. *)
Definition host_failing_int_max : Host :=
  host_failing_first INT_MAX (fun _ => serialization_failure "could not serialize access").

(** So does one more. *)
Definition host_failing_past_int_max : Host :=
  host_failing_first (INT_MAX + 1)
    (fun _ => serialization_failure "could not serialize access").

(** Scenario D of the specification, continued: the first execution divides
    by zero (22012), the later ones succeed. *)
Definition host_division_then_ok : Host :=
  host_failing_first 1 (fun _ => division_by_zero).

(** Every execution divides by zero; the message names the execution. *)
Definition division_by_zero_at (k : nat) : ErrorData :=
  {| sqlerrcode := ERRCODE_DIVISION_BY_ZERO;
     message := Some ("division by zero in execution " ++ fmt_d (Z.of_nat k))%string |}.

Definition host_always_dividing : Host := host_failing_first 100 division_by_zero_at.

(** Scenario C of the specification: both executions fail with 40001. *)
Definition serialization_failure_at (k : nat) : ErrorData :=
  serialization_failure ("could not serialize access, execution " ++ fmt_d (Z.of_nat k))%string.

Definition host_scenario_c : Host := host_failing_first 2 serialization_failure_at.

(** Scenario C as the specification states it: the failure of attempt 2 is
    propagated with code 40001, and exactly one warning was emitted. *)
Definition scenario_c_as_stated (x : option (Result * Trace)) : Prop :=
  exists t, x = Some (Rethrown (serialization_failure_at 1), t) /\ n_warnings t = 1%nat.

(** ** Comparing the two variants *)

(** The list of retryable codes each variant classifies with. *)
Definition codes_retain_last (guc : Guc) (args : Args) : ArrayType :=
  match arg_retry_sqlstates args with
  | Some a => a
  | None => text_to_array (pg_retry_default_sqlstates_str guc)
  end.

Definition codes_rethrow (guc : Guc) (args : Args) : ArrayType :=
  match arg_retry_sqlstates args with
  | Some a => a
  | None => build_sqlstate_array (pg_retry_default_sqlstates_str guc)
  end.





(** ** The backoff bounds of the specification *)

(** [baseDelayMs * 2^(n-1)], the delay before the cap. *)
Definition uncapped (attempt base_delay_ms : Z) : Q :=
  (inject_Z base_delay_ms * Qpower 2 (attempt - 1))%Q.

(** The delay after the cap, for valid arguments: from attempt 1025 on
    [pow] is infinite, the product infinite or NaN, and [Min] returns the
    cap. *)
Definition capped_delay_ms (attempt base_delay_ms max_delay_ms : Z) : Z :=
  if 1025 <=? attempt then max_delay_ms
  else Z.min (base_delay_ms * 2 ^ (attempt - 1)) max_delay_ms.

(** The delay after the jitter is added, for a draw [u] and a capped delay
    [d] that stay finite; every operation rounds. *)
Definition jittered_delay (u d : Q) : Q :=
  round_double
    (d + round_double
           (round_double (round_double (u * d) * round_double (4 # 10))
            + - round_double (d * round_double (2 # 10)))).

(** A bound "clamped to >= 1". *)
Definition clamp1 (q : Q) : Q := if Qle_bool 1 q then q else 1%Q.

(** The two ranges as the specification states them: within
    [1, maxDelayMs * 1.2], and within [0.8 x, 1.2 x] clamped to >= 1 for
    x = baseDelayMs * 2^(n-1). *)
Definition spec_delay_in_range (delay max_delay_ms : Z) : Prop :=
  1 <= delay /\ (inject_Z delay <= (12 # 10) * inject_Z max_delay_ms)%Q.

Definition spec_delay_in_band (delay attempt base_delay_ms : Z) : Prop :=
  (clamp1 ((8 # 10) * uncapped attempt base_delay_ms) <= inject_Z delay)%Q
  /\ (inject_Z delay <= clamp1 ((12 # 10) * uncapped attempt base_delay_ms))%Q.

(** ** Where the waits lie in a trace *)

(** No wait precedes the first attempt of the trace. *)
Fixpoint no_sleep_before_attempt (t : Trace) : bool :=
  match t with
  | [] => true
  | EvExecute :: _ => true
  | EvSleep _ :: _ => false
  | _ :: rest => no_sleep_before_attempt rest
  end.

(** No wait before the first attempt and none after the last one. *)
Definition sleeps_between_attempts (t : Trace) : bool :=
  no_sleep_before_attempt t && no_sleep_before_attempt (rev t).

(** The trace ends with a round that does not wait after its attempt. *)
Definition last_round_quiet (t : Trace) : Prop :=
  exists t0 u, t = t0 ++ EvBeginSub :: EvExecute :: u /\ n_sleeps u = 0%nat.

Definition trace_of (rd : RethrowInCatch.Round) : Trace :=
  match rd with
  | RethrowInCatch.Falls _ t => t
  | RethrowInCatch.Throws _ t => t
  end.

(** ** The default list, continued *)

(** The first loop of [build_sqlstate_array]: one is added to the [int]
    [count] for every comma of the text. *)
Fixpoint count_commas (ptr : string) (count : Z) : Z :=
  match ptr with
  | EmptyString => count
  | String c rest => count_commas rest (if is_comma c then wrap32 (count + 1) else count)
  end.

(** [count] after the increment that follows the loop: the number of [Datum]
    slots that [palloc] reserves for [elements]. *)
Definition slots_allocated (csv : string) : Z := wrap32 (count_commas csv 0 + 1).

(** A field without the white space at its two ends. *)
Definition trim (field : string) : string := trim_end (skip_spaces field).

Definition is_empty (s : string) : bool :=
  match s with EmptyString => true | String _ _ => false end.

(** The fields between the commas, trimmed, without the empty ones. *)
Definition trimmed_fields (csv : string) : list string :=
  filter (fun field => negb (is_empty field)) (map trim (split_commas csv)).

(** An array with every element trimmed and the elements that are then
    empty left out. *)
Definition trim_elements (a : ArrayType) : ArrayType :=
  filter (fun elem => match elem with
                      | Some s => negb (is_empty s)
                      | None => true
                      end)
         (map (option_map trim) a).

(** The characters of a text, and tests on all of them. *)
Definition all_chars (test : ascii -> bool) (s : string) : bool :=
  forallb test (list_ascii_of_string s).

Definition some_char (test : ascii -> bool) (s : string) : bool :=
  existsb test (list_ascii_of_string s).

(** ** The alphabet of SQLSTATE codes *)

(** The characters a six-bit group stands for: ['0'] to ['o'], which holds
    the digits and the upper-case letters. *)
Definition sixbit_char (c : ascii) : bool :=
  (48 <=? ascii_code c) && (ascii_code c <=? 111).

(** An array element that has the shape of an unpacked code: not null, five
    characters, all of them of the six-bit alphabet. *)
Definition sqlstate_shaped (elem : option string) : bool :=
  match elem with
  | None => false
  | Some s => Nat.eqb (String.length s) 5 && all_chars sixbit_char s
  end.

(** ** The order of the events in a trace *)

(** Where a trace stands: outside of any subtransaction, inside one that
    has not executed the statement yet, inside one that has, after a
    rollback, after the warning that may follow it, or after the wait that
    may follow the warning. *)
Inductive Phase : Type :=
| Outside
| Begun
| Executed
| RolledBack
| Warned
| Slept.

(** One event.  A subtransaction is begun outside of any other, the
    statement is executed once right after, and the release or the rollback
    comes next; a warning comes only right after a rollback, a wait only
    right after a warning, and the check for interrupts right after the
    wait.  [None] is a trace that breaks this. *)
Definition phase_step (s : Phase) (e : Event) : option Phase :=
  match s, e with
  | (Outside | RolledBack | Warned), EvBeginSub => Some Begun
  | (Outside | RolledBack | Warned), EvSpiFinish => Some Outside
  | Outside, EvSpiConnect => Some Outside
  | Begun, EvExecute => Some Executed
  | Executed, EvReleaseSub => Some Outside
  | Executed, EvRollbackSub => Some RolledBack
  | RolledBack, EvWarning _ => Some Warned
  | Warned, EvSleep _ => Some Slept
  | Slept, EvCheckInterrupts => Some Outside
  | _, _ => None
  end.

Fixpoint phase_run (s : Phase) (t : Trace) : option Phase :=
  match t with
  | [] => Some s
  | e :: rest =>
      match phase_step s e with
      | Some s' => phase_run s' rest
      | None => None
      end
  end.

(** No subtransaction is open and no check for interrupts is due. *)
Definition at_rest (s : Phase) : bool :=
  match s with
  | Outside | RolledBack | Warned => true
  | Begun | Executed | Slept => false
  end.

(** The trace keeps to the order and ends at rest. *)
Definition events_in_order (t : Trace) : bool :=
  match phase_run Outside t with
  | Some s => at_rest s
  | None => false
  end.

Definition is_release (e : Event) : bool :=
  match e with EvReleaseSub => true | _ => false end.
Definition is_rollback (e : Event) : bool :=
  match e with EvRollbackSub => true | _ => false end.
Definition is_finish (e : Event) : bool :=
  match e with EvSpiFinish => true | _ => false end.

Definition n_released (t : Trace) : nat := List.length (filter is_release t).
Definition n_rolled_back (t : Trace) : nat := List.length (filter is_rollback t).
Definition n_finished (t : Trace) : nat := List.length (filter is_finish t).

(** What a trace says about the subtransactions so far: the order is
    kept, none is open, each has run one attempt, and [released] of them
    were released, the others rolled back. *)
Definition subxacts_settled (released : nat) (t : Trace) : Prop :=
  events_in_order t = true
  /\ n_scopes t = n_attempts t
  /\ n_released t = released
  /\ (n_rolled_back t + released)%nat = n_attempts t.

(** ** The waits of a trace *)

(** The arguments of the calls of [pg_usleep], in order, and their sum. *)
Definition sleep_usecs (t : Trace) : list Z :=
  flat_map (fun e => match e with EvSleep usec => [usec] | _ => [] end) t.

Definition total_sleep_usec (t : Trace) : Z := fold_right Z.add 0 (sleep_usecs t).

(** The longest wait [calculate_delay] can ask for, in milliseconds: a
    fifth above the cap, and at least 1. *)
Definition longest_delay_ms (max_delay_ms : Z) : Z :=
  Z.max 1 (Qfloor ((12 # 10) * inject_Z max_delay_ms)).

(** The longest wait in microseconds fits a [long] of the width [w]: then
    neither the cast [(long)delay] nor the product [delay_ms * 1000L] leaves
    the range of a [long]. *)
Definition waits_fit_long (w : LongWidth) (max_delay_ms : Z) : Prop :=
  1000 * longest_delay_ms max_delay_ms <= LONG_MAX w.

(** A wait, in microseconds, as [calculate_delay] means it for the cap
    [max_delay_ms]: whole milliseconds, at least one, no more than the
    longest. *)
Definition wait_in_bounds (max_delay_ms usec : Z) : Prop :=
  1000 <= usec <= 1000 * longest_delay_ms max_delay_ms
  /\ usec mod 1000 = 0.

(** ** The warnings of a trace *)

(** The warning that belongs to the [k]-th execution (from 0), which is
    attempt [k + 1], when it fails. *)
Definition warning_of (h : Host) (p : Params) (k : nat) (w : Event) : Prop :=
  exists e,
    failure_at h k = Some e
    /\ should_retry e (retry_sqlstates p) = true
    /\ w = EvWarning (retry_warning (Z.of_nat k + 1) (max_tries p) e).

(** ** The parameters of a call *)

(** The parameters the loop runs with for a statement [s], once the GUC
    values have been filled in for the arguments that are NULL; [codes] is
    the list of the variant. *)
Definition filled_in (guc : Guc) (args : Args) (s : string) (codes : ArrayType) : Params :=
  {| sql := s;
     max_tries := or_default (arg_max_tries args) (pg_retry_default_max_tries guc);
     base_delay_ms := or_default (arg_base_delay_ms args) (pg_retry_default_base_delay_ms guc);
     max_delay_ms := or_default (arg_max_delay_ms args) (pg_retry_default_max_delay_ms guc);
     retry_sqlstates := codes |}.

(** ** Module initialisation *)

(** What [DefineCustomIntVariable] and [DefineCustomStringVariable] are
    given: the name, the boot value and, for an integer, the range. *)
Record IntVariable : Type := mkIntVariable {
  int_name : string;
  int_boot : Z;
  int_min : Z;
  int_max : Z
}.

Record StringVariable : Type := mkStringVariable {
  string_name : string;
  string_boot : string
}.

(** The four variables [_PG_init] registers, in its order. *)
Record Registered : Type := mkRegistered {
  default_max_tries : IntVariable;
  default_base_delay_ms : IntVariable;
  default_max_delay_ms : IntVariable;
  default_sqlstates : StringVariable
}.

Definition _PG_init : Registered :=
  {| default_max_tries :=
       {| int_name := "pg_retry.default_max_tries";
          int_boot := 3; int_min := 1; int_max := INT_MAX |};
     default_base_delay_ms :=
       {| int_name := "pg_retry.default_base_delay_ms";
          int_boot := 50; int_min := 0; int_max := INT_MAX |};
     default_max_delay_ms :=
       {| int_name := "pg_retry.default_max_delay_ms";
          int_boot := 1000; int_min := 0; int_max := INT_MAX |};
     default_sqlstates :=
       {| string_name := "pg_retry.default_sqlstates";
          string_boot := "40001,40P01,55P03,57014" |} |}.

(** Host: a value can be assigned to an integer variable when it lies in
    the range the variable was registered with. *)
Definition in_range (v : IntVariable) (x : Z) : bool :=
  (int_min v <=? x) && (x <=? int_max v).

(** The settings the host can bring about: each integer within its range
    (a string variable without a check hook takes any text). *)
Definition guc_within_ranges (reg : Registered) (guc : Guc) : bool :=
  in_range (default_max_tries reg) (pg_retry_default_max_tries guc)
  && in_range (default_base_delay_ms reg) (pg_retry_default_base_delay_ms guc)
  && in_range (default_max_delay_ms reg) (pg_retry_default_max_delay_ms guc).

(** The settings after start-up. *)
Definition guc_at_boot (reg : Registered) : Guc :=
  {| pg_retry_default_max_tries := int_boot (default_max_tries reg);
     pg_retry_default_base_delay_ms := int_boot (default_base_delay_ms reg);
     pg_retry_default_max_delay_ms := int_boot (default_max_delay_ms reg);
     pg_retry_default_sqlstates_str := string_boot (default_sqlstates reg) |}.

(** The error of the check on the order of the two delays, and the one
    for a failed connection. *)
Definition delay_order_error : ErrorData :=
  ereport_error ERRCODE_INVALID_PARAMETER_VALUE
    "pg_retry: base_delay_ms cannot be greater than max_delay_ms".

Definition connection_error : ErrorData :=
  ereport_error ERRCODE_CONNECTION_FAILURE "pg_retry: SPI_connect failed".

(** ** How a call ends *)

(** The call returns the rows of the [k]-th execution (from 0). *)
Definition returns_rows_of (h : Host) (k : nat) (r : Result) : Prop :=
  exists rows, r = Returned rows /\ try_block (SPI_execute h k) = inr rows.

(** The call rethrows the failure of the [k]-th execution. *)
Definition rethrows_failure_of (h : Host) (k : nat) (r : Result) : Prop :=
  exists e, r = Rethrown e /\ failure_at h k = Some e.

(** The [k]-th execution fails. *)
Definition fails_at (h : Host) (k : nat) : Prop := failure_at h k <> None.

(** ** Further concrete invocations *)

(** A call that names the statement only. *)
Definition args_statement_only : Args :=
  {| arg_sql := Some "UPDATE t SET x=1";
     arg_max_tries := None;
     arg_base_delay_ms := None;
     arg_max_delay_ms := None;
     arg_retry_sqlstates := None |}.

(** A host whose executor answers with [SPI_ERROR_ARGUMENT]. *)
Definition host_spi_error : Host :=
  {| pg_parse_query := parses_one_update;
     SPI_connect_ext := SPI_OK_CONNECT;
     SPI_execute := fun _ => SpiReturns (-6) 0;
     prng := fun _ => (1 # 2)%Q;
     long_width := Long64 |}.

(** A host whose parser raises its own error. *)
Definition parser_error : ErrorData :=
  {| sqlerrcode := ERRCODE_SYNTAX_ERROR;
     message := Some "syntax error at or near UPDTE" |}.

Definition host_parser_error : Host :=
  {| pg_parse_query := fun _ => inl parser_error;
     SPI_connect_ext := SPI_OK_CONNECT;
     SPI_execute := fun _ => SpiReturns SPI_OK_UPDATE 7;
     prng := fun _ => (1 # 2)%Q;
     long_width := Long64 |}.

(** A host on which [SPI_connect_ext] answers with [SPI_ERROR_CONNECT]. *)
Definition host_no_connection : Host :=
  {| pg_parse_query := parses_one_update;
     SPI_connect_ext := -1;
     SPI_execute := fun _ => SpiReturns SPI_OK_UPDATE 7;
     prng := fun _ => (1 # 2)%Q;
     long_width := Long64 |}.

(** A host with a [long] of 32 bits, as on 64-bit Windows: the first two
    executions fail with a serialization failure, and every draw is a
    third. *)
Definition host_long32 : Host :=
  {| pg_parse_query := parses_one_update;
     SPI_connect_ext := SPI_OK_CONNECT;
     SPI_execute := fun k => if Z.of_nat k <? 2 then SpiThrows (serialization_failure_at k)
                             else SpiReturns SPI_OK_UPDATE 7;
     prng := fun _ => (1 # 3)%Q;
     long_width := Long32 |}.

(** Settings within the registered ranges, with the default base delay
    above the default maximum delay. *)
Definition guc_delays_swapped : Guc :=
  {| pg_retry_default_max_tries := 3;
     pg_retry_default_base_delay_ms := 2000;
     pg_retry_default_max_delay_ms := 1000;
     pg_retry_default_sqlstates_str := "40001,40P01,55P03,57014" |}.

(** ** A release that fails *)

(** Up to here [ReleaseCurrentSubTransaction] always returns.  This part
    lets it throw: [release k] is what the release of the subtransaction of
    the [k]-th execution (from 0) does when that execution has succeeded,
    [None] when it returns and the error when it throws.  The [PG_TRY] block
    has stored [processed_rows] and set [success] by then, and the error
    reaches the same [PG_CATCH] block as a failure of the execution. *)
Record ReleasingHost : Type := mkReleasingHost {
  executing : Host;
  release : nat -> option ErrorData
}.

Module RetainLastReleasing.

(** One round of the [for] loop of [src/pg_retry.c], up to [PG_END_TRY]. *)
Definition attempt_once (h : ReleasingHost) (p : Params) (attempt : Z)
    (st : RetainLast.Locals) (t : Trace) : RetainLast.Locals * Trace :=
  let t := t ++ [EvBeginSub] in
  let k := n_attempts t in
  let t := t ++ [EvExecute] in
  let handler (st : RetainLast.Locals) (errdata : ErrorData) :=
    let t := classify p attempt errdata t in
    if negb (should_retry errdata (retry_sqlstates p)) || (attempt =? max_tries p)
    then
      (* save error for rethrow *)
      ({| RetainLast.processed_rows := RetainLast.processed_rows st;
          RetainLast.success := RetainLast.success st;
          RetainLast.last_error := Some errdata |}, t)
    else
      (* retry after delay *)
      (st, backoff (executing h) p attempt t) in
  match try_block (SPI_execute (executing h) k) with
  | inr rows =>
      let st := {| RetainLast.processed_rows := rows; RetainLast.success := true;
                   RetainLast.last_error := RetainLast.last_error st |} in
      match release h k with
      | None => (st, t ++ [EvReleaseSub])
      | Some errdata => handler st errdata
      end
  | inl errdata => handler st errdata
  end.

Fixpoint retry_loop (fuel : nat) (h : ReleasingHost) (p : Params) (attempt : Z)
    (st : RetainLast.Locals) (t : Trace) : option (RetainLast.Locals * Trace) :=
  match fuel with
  | O => None
  | S fuel' =>
      if attempt <=? max_tries p then
        let '(st', t') := attempt_once h p attempt st t in
        if RetainLast.success st' then Some (st', t')
        else retry_loop fuel' h p (wrap32 (attempt + 1)) st' t'
      else Some (st, t)
  end.

Definition run_validated (fuel : nat) (h : ReleasingHost) (p : Params)
  : option (Result * Trace) :=
  if negb (SPI_connect_ext (executing h) =? SPI_OK_CONNECT) then
    Some (Rejected (ereport_error ERRCODE_CONNECTION_FAILURE
                      "pg_retry: SPI_connect failed"), [EvSpiConnect])
  else
    match retry_loop fuel h p 1 RetainLast.init [EvSpiConnect] with
    | None => None
    | Some (st, t) => Some (RetainLast.finish st t)
    end.

End RetainLastReleasing.

Module RethrowInCatchReleasing.

(** One round of the [for] loop of [src/src/pg_retry.c]. *)
Definition attempt_once (h : ReleasingHost) (p : Params) (attempt : Z)
    (st : RethrowInCatch.Locals) (t : Trace) : RethrowInCatch.Round :=
  let t := t ++ [EvBeginSub] in
  let k := n_attempts t in
  let t := t ++ [EvExecute] in
  let handler (st : RethrowInCatch.Locals) (errdata : ErrorData) :=
    let t := classify p attempt errdata t in
    if negb (should_retry errdata (retry_sqlstates p)) || (attempt =? max_tries p)
    then
      (* rethrow immediately *)
      RethrowInCatch.Throws errdata t
    else
      (* retry after delay *)
      RethrowInCatch.Falls st (backoff (executing h) p attempt t) in
  match try_block (SPI_execute (executing h) k) with
  | inr rows =>
      let st := {| RethrowInCatch.processed_rows := rows;
                   RethrowInCatch.success := true |} in
      match release h k with
      | None => RethrowInCatch.Falls st (t ++ [EvReleaseSub])
      | Some errdata => handler st errdata
      end
  | inl errdata => handler st errdata
  end.

Fixpoint retry_loop (fuel : nat) (h : ReleasingHost) (p : Params) (attempt : Z)
    (st : RethrowInCatch.Locals) (t : Trace) : option RethrowInCatch.Round :=
  match fuel with
  | O => None
  | S fuel' =>
      if attempt <=? max_tries p then
        match attempt_once h p attempt st t with
        | RethrowInCatch.Throws e t' => Some (RethrowInCatch.Throws e t')
        | RethrowInCatch.Falls st' t' =>
            if RethrowInCatch.success st' then Some (RethrowInCatch.Falls st' t')
            else retry_loop fuel' h p (wrap32 (attempt + 1)) st' t'
        end
      else Some (RethrowInCatch.Falls st t)
  end.

Definition run_validated (fuel : nat) (h : ReleasingHost) (p : Params)
  : option (Result * Trace) :=
  if negb (SPI_connect_ext (executing h) =? SPI_OK_CONNECT) then
    Some (Rejected (ereport_error ERRCODE_CONNECTION_FAILURE
                      "pg_retry: SPI_connect failed"), [EvSpiConnect])
  else
    match retry_loop fuel h p 1 RethrowInCatch.init [EvSpiConnect] with
    | None => None
    | Some r => Some (RethrowInCatch.finish r)
    end.

End RethrowInCatchReleasing.

(** A host whose first execution updates seven rows and whose release of
    that subtransaction then fails with a serialization failure. *)
Definition host_release_fails : ReleasingHost :=
  {| executing := host_failing_first 0 serialization_failure_at;
     release := fun _ => Some (serialization_failure "could not serialize access") |}.
(** * Properties *)

(** ** Machine integers *)

Lemma wrap32_in_range (z : Z) : INT_MIN <= z <= INT_MAX -> wrap32 z = z.
Proof.
  unfold wrap32, INT_MIN, INT_MAX. intros H.
  rewrite Z.mod_small by lia. lia.
Qed.

Lemma wrap32_range (z : Z) : INT_MIN <= wrap32 z <= INT_MAX.
Proof.
  unfold wrap32, INT_MIN, INT_MAX.
  pose proof (Z.mod_pos_bound (z + 2147483648) 4294967296 ltac:(lia)). lia.
Qed.

Lemma wrap32_succ_int_max : wrap32 (INT_MAX + 1) = INT_MIN.
Proof. reflexivity. Qed.

(** ** Traces *)

Lemma n_attempts_app (t u : Trace) : n_attempts (t ++ u) = (n_attempts t + n_attempts u)%nat.
Proof. unfold n_attempts. now rewrite filter_app, length_app. Qed.

Lemma n_sleeps_app (t u : Trace) : n_sleeps (t ++ u) = (n_sleeps t + n_sleeps u)%nat.
Proof. unfold n_sleeps. now rewrite filter_app, length_app. Qed.

Lemma warnings_app (t u : Trace) : warnings (t ++ u) = warnings t ++ warnings u.
Proof. apply filter_app. Qed.


Lemma n_warnings_app (t u : Trace) : n_warnings (t ++ u) = (n_warnings t + n_warnings u)%nat.
Proof. unfold n_warnings. now rewrite warnings_app, length_app. Qed.

(** ** Error classifier *)

Lemma ascii_code_inj (c d : ascii) : ascii_code c = ascii_code d -> c = d.
Proof.
  unfold ascii_code. intros H. apply N2Z.inj in H.
  rewrite <- (ascii_N_embedding c), <- (ascii_N_embedding d). now rewrite H.
Qed.

Lemma strcmp_refl (a : string) : strcmp a a = 0.
Proof.
  induction a as [|c a IH]; simpl; [reflexivity|].
  now rewrite Z.ltb_irrefl.
Qed.

Lemma strcmp_zero_eq (a b : string) : strcmp a b = 0 -> a = b.
Proof.
  revert b. induction a as [|c a IH]; intros [|d b]; simpl; try discriminate; auto.
  destruct (ascii_code c <? ascii_code d) eqn:Hlt; [discriminate|].
  destruct (ascii_code d <? ascii_code c) eqn:Hgt; [discriminate|].
  intros H. apply Z.ltb_ge in Hlt, Hgt.
  f_equal; [apply ascii_code_inj; lia | now apply IH].
Qed.

Lemma strcmp_eqb (a b : string) : (strcmp a b =? 0) = true <-> a = b.
Proof.
  rewrite Z.eqb_eq. split; [apply strcmp_zero_eq | intros ->; apply strcmp_refl].
Qed.

Lemma is_retryable_sqlstate_In (sqlstate : string) (a : ArrayType) :
  is_retryable_sqlstate sqlstate a = true <-> In (Some sqlstate) a.
Proof.
  induction a as [|[elem|] rest IH]; simpl.
  - split; [discriminate | tauto].
  - destruct (strcmp sqlstate elem =? 0) eqn:E.
    + apply strcmp_eqb in E. subst. tauto.
    + rewrite IH. split; [tauto|]. intros [H|H]; [|exact H].
      injection H as ->. rewrite (proj2 (strcmp_eqb sqlstate sqlstate) eq_refl) in E.
      discriminate.
  - rewrite IH. split; [tauto|]. intros [H|H]; [discriminate | exact H].
Qed.

(** C8.  A failure without a structured code ([sqlerrcode] 0) is never
    retried, whatever the list holds; and for a code string the classifier
    answers yes exactly when some non-null element of the list is that very
    string, character for character (so that a change of letter case, or a
    prefix, does not match). *)
Theorem classification_is_exact_membership :
  (forall (m : option string) (codes : ArrayType),
      should_retry {| sqlerrcode := 0; message := m |} codes = false)
  /\ (forall (code : string) (codes : ArrayType),
         is_retryable_sqlstate code codes = true
         <-> exists elem, In (Some elem) codes /\ elem = code)
  /\ (forall (e : ErrorData) (codes : ArrayType),
         should_retry e codes = true
         <-> sqlerrcode e <> 0 /\ In (Some (unpack_sql_state (sqlerrcode e))) codes)
  /\ is_retryable_sqlstate "40p01" [Some "40P01"] = false
  /\ is_retryable_sqlstate "40" [Some "40001"] = false
  /\ is_retryable_sqlstate "40001" [None; Some "40001"] = true.
Proof.
  split; [reflexivity|]. split; [|split; [|repeat split]].
  - intros code codes. rewrite is_retryable_sqlstate_In. split.
    + intros H. now exists code.
    + intros [elem [H ->]]. exact H.
  - intros e codes. unfold should_retry.
    destruct (sqlerrcode e =? 0) eqn:E.
    + apply Z.eqb_eq in E. split; [discriminate | tauto].
    + apply Z.eqb_neq in E. rewrite is_retryable_sqlstate_In. tauto.
Qed.

(** ** Rejection before the loop *)

Lemma extract_and_validate_rejects (guc : Guc) (h : Host) (args : Args)
    (dflt : ArrayType) (k : RejectionKind) :
  violates guc h args k = true ->
  exists e k',
    extract_and_validate guc h args dflt = inl e
    /\ violates guc h args k' = true
    /\ sqlerrcode e = errcode_of_kind k'.
Proof.
  intros Hk. unfold extract_and_validate.
  destruct (arg_sql args) as [s|] eqn:Hsql.
  2:{ eexists; exists InvalidInput. simpl. rewrite Hsql. repeat split. }
  set (mt := or_default (arg_max_tries args) (pg_retry_default_max_tries guc)).
  set (b := or_default (arg_base_delay_ms args) (pg_retry_default_base_delay_ms guc)).
  set (m := or_default (arg_max_delay_ms args) (pg_retry_default_max_delay_ms guc)).
  assert (Hpar : violates guc h args InvalidParameter
                 = (mt <? 1) || (b <? 0) || (m <? 0) || (m <? b)) by reflexivity.
  destruct (mt <? 1) eqn:E1.
  { eexists; exists InvalidParameter. split; [reflexivity|]. split; [exact Hpar|reflexivity]. }
  destruct (b <? 0) eqn:E2; cbn [orb].
  { eexists; exists InvalidParameter. split; [reflexivity|]. split; [exact Hpar|reflexivity]. }
  destruct (m <? 0) eqn:E2'.
  { eexists; exists InvalidParameter. split; [reflexivity|]. split; [exact Hpar|reflexivity]. }
  destruct (m <? b) eqn:E3.
  { eexists; exists InvalidParameter. split; [reflexivity|]. split; [exact Hpar|reflexivity]. }
  cbn [orb] in Hpar.
  unfold validate_sql, is_single_statement.
  destruct k; [| | |congruence]; simpl in Hk; rewrite Hsql in Hk.
  - discriminate.
  - (* not exactly one statement *)
    destruct (pg_parse_query h s) as [pe|l] eqn:Hp; [discriminate|].
    assert (Hn : (Z.of_nat (List.length l) =? 1) = false).
    { apply Z.eqb_neq. apply negb_true_iff, Nat.eqb_neq in Hk. lia. }
    rewrite Hn. simpl. eexists; exists SyntaxError. simpl. rewrite Hsql, Hp, Hk.
    repeat split.
  - (* one transaction-control statement *)
    destruct (pg_parse_query h s) as [pe|[|st [|st' l]]] eqn:Hp; try discriminate.
    simpl. rewrite Hk. eexists; exists UnsupportedStatement. simpl.
    rewrite Hsql, Hp, Hk. repeat split.
Qed.

(** C5.  Whenever the invocation has a null statement, a statement that does
    not parse to exactly one statement, a transaction-control statement, or
    invalid parameters, both variants end in a rejection raised before the
    loop, with an empty trace (no SPI connection, no subtransaction, no
    attempt, no sleep), and the error raised carries the code of a condition
    that holds.  Nothing is assumed about maxTries. *)
Theorem invalid_invocation_rejected_before_any_attempt
    (fuel : nat) (guc : Guc) (h : Host) (args : Args) (k : RejectionKind) :
  violates guc h args k = true ->
  exists e,
    RetainLast.pg_retry_retry fuel guc h args = Some (Rejected e, [])
    /\ RethrowInCatch.pg_retry_retry fuel guc h args = Some (Rejected e, [])
    /\ (exists k', violates guc h args k' = true /\ sqlerrcode e = errcode_of_kind k')
    /\ n_attempts [] = 0%nat /\ n_sleeps [] = 0%nat /\ n_scopes [] = 0%nat.
Proof.
  intros Hk.
  destruct (extract_and_validate_rejects guc h args
              (text_to_array (pg_retry_default_sqlstates_str guc)) k Hk)
    as [e [k' [He [Hk' Hc]]]].
  exists e. unfold RetainLast.pg_retry_retry, RethrowInCatch.pg_retry_retry.
  rewrite He.
  assert (He' : extract_and_validate guc h args
                  (build_sqlstate_array (pg_retry_default_sqlstates_str guc)) = inl e).
  { revert He. unfold extract_and_validate.
    destruct (arg_sql args); [|auto].
    repeat match goal with |- context [if ?c then _ else _] => destruct c end; auto.
    destruct (validate_sql (pg_parse_query h) s); [auto | discriminate]. }
  rewrite He'. repeat split; eauto.
Qed.

(** ** The loop never leaves the caller without an outcome to report *)

Lemma wrap32_succ (a : Z) :
  INT_MIN <= a <= INT_MAX ->
  wrap32 (a + 1) = if a =? INT_MAX then INT_MIN else a + 1.
Proof.
  intros H. destruct (a =? INT_MAX) eqn:E.
  - apply Z.eqb_eq in E. subst. reflexivity.
  - apply Z.eqb_neq in E. apply wrap32_in_range. unfold INT_MIN, INT_MAX in *. lia.
Qed.

Lemma extract_and_validate_ok (guc : Guc) (h : Host) (args : Args)
    (dflt : ArrayType) (p : Params) :
  extract_and_validate guc h args dflt = inr p ->
  1 <= max_tries p /\ 0 <= base_delay_ms p <= max_delay_ms p.
Proof.
  unfold extract_and_validate.
  destruct (arg_sql args) as [s|]; [|discriminate].
  set (mt := or_default (arg_max_tries args) (pg_retry_default_max_tries guc)).
  set (b := or_default (arg_base_delay_ms args) (pg_retry_default_base_delay_ms guc)).
  set (m := or_default (arg_max_delay_ms args) (pg_retry_default_max_delay_ms guc)).
  destruct (mt <? 1) eqn:E1; [discriminate|].
  destruct (b <? 0) eqn:E2; [discriminate|].
  destruct (m <? 0) eqn:E3; [discriminate|]. cbn [orb].
  destruct (m <? b) eqn:E4; [discriminate|].
  destruct (validate_sql (pg_parse_query h) s); [discriminate|].
  intros H. injection H as <-. cbn [max_tries base_delay_ms max_delay_ms].
  apply Z.ltb_ge in E1, E2, E3, E4. lia.
Qed.

(** In [src/pg_retry.c], a loop that ends without success has an error stored. *)
Lemma retain_last_loop_exit (h : Host) (p : Params) (fuel : nat) :
  forall (attempt : Z) (st : RetainLast.Locals) (t : Trace)
         (st' : RetainLast.Locals) (t' : Trace),
    INT_MIN <= attempt <= INT_MAX ->
    RetainLast.success st = false ->
    (max_tries p < attempt -> RetainLast.last_error st <> None) ->
    RetainLast.retry_loop fuel h p attempt st t = Some (st', t') ->
    RetainLast.success st' = true \/ RetainLast.last_error st' <> None.
Proof.
  induction fuel as [|fuel IH]; intros attempt st t st' t' Hr Hs Hl; cbn [RetainLast.retry_loop].
  - discriminate.
  - destruct (attempt <=? max_tries p) eqn:Hle.
    2:{ intros H. injection H as <- <-. right. apply Hl.
        apply Z.leb_gt in Hle. lia. }
    apply Z.leb_le in Hle.
    unfold RetainLast.attempt_once.
    destruct (try_block _) as [e|rows].
    + destruct (negb _ || _) eqn:Hsave; cbn [RetainLast.success].
      * rewrite Hs. apply IH; [apply wrap32_range | reflexivity | intros _; discriminate].
      * rewrite Hs. apply IH; [apply wrap32_range | apply Hs |].
        apply orb_false_elim in Hsave as [_ Hne]. apply Z.eqb_neq in Hne.
        rewrite wrap32_succ by exact Hr.
        destruct (attempt =? INT_MAX) eqn:E; [apply Z.eqb_eq in E|]; lia.
    + cbn [RetainLast.success]. intros H. injection H as <- <-. now left.
Qed.

(** In [src/src/pg_retry.c], the loop is only ever left by success or by
    [ReThrowError]. *)
Lemma rethrow_loop_falls (h : Host) (p : Params) (fuel : nat) :
  forall (attempt : Z) (st : RethrowInCatch.Locals) (t : Trace)
         (st' : RethrowInCatch.Locals) (t' : Trace),
    INT_MIN <= attempt <= INT_MAX ->
    attempt <= max_tries p ->
    RethrowInCatch.success st = false ->
    RethrowInCatch.retry_loop fuel h p attempt st t = Some (RethrowInCatch.Falls st' t') ->
    RethrowInCatch.success st' = true.
Proof.
  induction fuel as [|fuel IH]; intros attempt st t st' t' Hr Hle Hs; cbn [RethrowInCatch.retry_loop].
  - discriminate.
  - rewrite (proj2 (Z.leb_le _ _) Hle).
    unfold RethrowInCatch.attempt_once.
    destruct (try_block _) as [e|rows].
    + destruct (negb _ || _) eqn:Hsave; [discriminate|].
      rewrite Hs. apply IH; [apply wrap32_range | | apply Hs].
      apply orb_false_elim in Hsave as [_ Hne]. apply Z.eqb_neq in Hne.
      rewrite wrap32_succ by exact Hr.
      destruct (attempt =? INT_MAX) eqn:E; [apply Z.eqb_eq in E|]; lia.
    + cbn [RethrowInCatch.success]. intros H. injection H as <- <-. reflexivity.
Qed.

(** C9.  No invocation of either variant ends in the defensive branch after
    the loop ("all retry attempts failed" in [src/pg_retry.c], "unexpected error
    state" in [src/src/pg_retry.c]): a loop that is left without success has a
    stored error, which is rethrown, or was left by the rethrow itself. *)
Theorem internal_error_branch_unreachable
    (fuel : nat) (guc : Guc) (h : Host) (args : Args) (e : ErrorData) (t : Trace) :
  RetainLast.pg_retry_retry fuel guc h args <> Some (InternalError e, t)
  /\ RethrowInCatch.pg_retry_retry fuel guc h args <> Some (InternalError e, t).
Proof.
  assert (Hone : INT_MIN <= 1 <= INT_MAX) by (unfold INT_MIN, INT_MAX; lia).
  split.
  - unfold RetainLast.pg_retry_retry.
    destruct (extract_and_validate _ _ _ _) as [e0|p] eqn:Hv; [discriminate|].
    apply extract_and_validate_ok in Hv as [Hmt _].
    unfold RetainLast.run_validated.
    destruct (negb _); [discriminate|].
    destruct (RetainLast.retry_loop _ _ _ _ _ _) as [[st' t']|] eqn:Hl; [|discriminate].
    apply retain_last_loop_exit in Hl; [|exact Hone|reflexivity|lia].
    unfold RetainLast.finish.
    destruct (RetainLast.success st'); [discriminate|].
    destruct (RetainLast.last_error st'); [discriminate|].
    destruct Hl as [Hl|Hl]; [discriminate | now contradiction Hl].
  - unfold RethrowInCatch.pg_retry_retry.
    destruct (extract_and_validate _ _ _ _) as [e0|p] eqn:Hv; [discriminate|].
    apply extract_and_validate_ok in Hv as [Hmt _].
    unfold RethrowInCatch.run_validated.
    destruct (negb _); [discriminate|].
    destruct (RethrowInCatch.retry_loop _ _ _ _ _ _) as [[st' t'|e' t']|] eqn:Hl;
      [|discriminate|discriminate].
    apply rethrow_loop_falls in Hl; [|exact Hone|lia|reflexivity].
    unfold RethrowInCatch.finish. rewrite Hl. discriminate.
Qed.

(** ** One round *)

Lemma n_attempts_begin (t : Trace) : n_attempts (t ++ [EvBeginSub]) = n_attempts t.
Proof. rewrite n_attempts_app. simpl. apply Nat.add_0_r. Qed.

Lemma classify_retry (p : Params) (attempt : Z) (e : ErrorData) (t : Trace) :
  should_retry e (retry_sqlstates p) = true ->
  classify p attempt e ((t ++ [EvBeginSub]) ++ [EvExecute])
  = t ++ [EvBeginSub; EvExecute; EvRollbackSub;
          EvWarning (retry_warning attempt (max_tries p) e)].
Proof.
  intros H. unfold classify. rewrite H. now rewrite <- !app_assoc.
Qed.

Lemma classify_failed (p : Params) (attempt : Z) (e : ErrorData) (t : Trace) :
  classify p attempt e ((t ++ [EvBeginSub]) ++ [EvExecute])
  = t ++ failed_round p attempt e.
Proof.
  unfold classify, failed_round.
  destruct (should_retry e (retry_sqlstates p)); now rewrite <- !app_assoc.
Qed.

Lemma backoff_retry (h : Host) (p : Params) (attempt : Z) (e : ErrorData) (t : Trace) :
  attempt < max_tries p ->
  backoff h p attempt (t ++ [EvBeginSub; EvExecute; EvRollbackSub;
                             EvWarning (retry_warning attempt (max_tries p) e)])
  = t ++ retry_round h p attempt e (n_sleeps t).
Proof.
  intros H. unfold backoff, retry_round.
  rewrite (proj2 (Z.ltb_lt _ _) H).
  rewrite n_sleeps_app. simpl. rewrite Nat.add_0_r. now rewrite <- app_assoc.
Qed.

Lemma failure_at_inl (h : Host) (k : nat) (e : ErrorData) :
  failure_at h k = Some e <-> try_block (SPI_execute h k) = inl e.
Proof.
  unfold failure_at. destruct (try_block _); split; congruence.
Qed.

Lemma failure_at_inr (h : Host) (k : nat) :
  failure_at h k = None <-> exists rows, try_block (SPI_execute h k) = inr rows.
Proof.
  unfold failure_at. destruct (try_block _); split; try discriminate; eauto.
  intros [rows H]. discriminate.
Qed.

Lemma retain_last_once_success (h : Host) (p : Params) (attempt : Z)
    (st : RetainLast.Locals) (t : Trace) (rows : Z) :
  try_block (SPI_execute h (n_attempts t)) = inr rows ->
  RetainLast.attempt_once h p attempt st t
  = ({| RetainLast.processed_rows := rows; RetainLast.success := true;
        RetainLast.last_error := RetainLast.last_error st |}, t ++ success_round).
Proof.
  intros H. unfold RetainLast.attempt_once. rewrite n_attempts_begin, H.
  now rewrite <- !app_assoc.
Qed.

Lemma retain_last_once_retry (h : Host) (p : Params) (attempt : Z)
    (st : RetainLast.Locals) (t : Trace) (e : ErrorData) :
  failure_at h (n_attempts t) = Some e ->
  should_retry e (retry_sqlstates p) = true ->
  attempt < max_tries p ->
  RetainLast.attempt_once h p attempt st t
  = (st, t ++ retry_round h p attempt e (n_sleeps t)).
Proof.
  intros He Hr Hlt. apply failure_at_inl in He.
  unfold RetainLast.attempt_once. rewrite n_attempts_begin, He, Hr.
  rewrite (proj2 (Z.eqb_neq attempt (max_tries p))) by lia. cbn [negb orb].
  rewrite classify_retry by exact Hr. now rewrite backoff_retry.
Qed.

Lemma retain_last_once_save (h : Host) (p : Params) (attempt : Z)
    (st : RetainLast.Locals) (t : Trace) (e : ErrorData) :
  failure_at h (n_attempts t) = Some e ->
  should_retry e (retry_sqlstates p) = false \/ attempt = max_tries p ->
  RetainLast.attempt_once h p attempt st t
  = ({| RetainLast.processed_rows := RetainLast.processed_rows st;
        RetainLast.success := RetainLast.success st;
        RetainLast.last_error := Some e |}, t ++ failed_round p attempt e).
Proof.
  intros He Hs. apply failure_at_inl in He.
  unfold RetainLast.attempt_once. rewrite n_attempts_begin, He.
  assert (Hc : negb (should_retry e (retry_sqlstates p)) || (attempt =? max_tries p) = true).
  { destruct Hs as [-> | ->]; [reflexivity|]. rewrite Z.eqb_refl. apply orb_true_r. }
  rewrite Hc. now rewrite classify_failed.
Qed.

Lemma rethrow_once_success (h : Host) (p : Params) (attempt : Z)
    (st : RethrowInCatch.Locals) (t : Trace) (rows : Z) :
  try_block (SPI_execute h (n_attempts t)) = inr rows ->
  RethrowInCatch.attempt_once h p attempt st t
  = RethrowInCatch.Falls
      {| RethrowInCatch.processed_rows := rows; RethrowInCatch.success := true |}
      (t ++ success_round).
Proof.
  intros H. unfold RethrowInCatch.attempt_once. rewrite n_attempts_begin, H.
  now rewrite <- !app_assoc.
Qed.

Lemma rethrow_once_retry (h : Host) (p : Params) (attempt : Z)
    (st : RethrowInCatch.Locals) (t : Trace) (e : ErrorData) :
  failure_at h (n_attempts t) = Some e ->
  should_retry e (retry_sqlstates p) = true ->
  attempt < max_tries p ->
  RethrowInCatch.attempt_once h p attempt st t
  = RethrowInCatch.Falls st (t ++ retry_round h p attempt e (n_sleeps t)).
Proof.
  intros He Hr Hlt. apply failure_at_inl in He.
  unfold RethrowInCatch.attempt_once. rewrite n_attempts_begin, He, Hr.
  rewrite (proj2 (Z.eqb_neq attempt (max_tries p))) by lia. cbn [negb orb].
  rewrite classify_retry by exact Hr. now rewrite backoff_retry.
Qed.

Lemma rethrow_once_throw (h : Host) (p : Params) (attempt : Z)
    (st : RethrowInCatch.Locals) (t : Trace) (e : ErrorData) :
  failure_at h (n_attempts t) = Some e ->
  should_retry e (retry_sqlstates p) = false \/ attempt = max_tries p ->
  RethrowInCatch.attempt_once h p attempt st t
  = RethrowInCatch.Throws e (t ++ failed_round p attempt e).
Proof.
  intros He Hs. apply failure_at_inl in He.
  unfold RethrowInCatch.attempt_once. rewrite n_attempts_begin, He.
  assert (Hc : negb (should_retry e (retry_sqlstates p)) || (attempt =? max_tries p) = true).
  { destruct Hs as [-> | ->]; [reflexivity|]. rewrite Z.eqb_refl. apply orb_true_r. }
  rewrite Hc. now rewrite classify_failed.
Qed.

(** ** Runs of retried failures *)

Lemma retryable_failure_inv (h : Host) (codes : ArrayType) (k : nat) :
  retryable_failure h codes k = true ->
  exists e, failure_at h k = Some e /\ should_retry e codes = true.
Proof.
  unfold retryable_failure. destruct (failure_at h k) as [e|]; [|discriminate].
  intros H. now exists e.
Qed.

Lemma retry_round_counts (h : Host) (p : Params) (attempt : Z) (e : ErrorData) (s : nat) :
  n_attempts (retry_round h p attempt e s) = 1%nat
  /\ n_sleeps (retry_round h p attempt e s) = 1%nat
  /\ n_warnings (retry_round h p attempt e s) = 1%nat.
Proof. repeat split. Qed.

(** [j] retryable failures in a row, each before the last allowed attempt,
    take [j] rounds of the loop and add [j] attempts, waits and warnings. *)
Lemma rethrow_loop_retries (h : Host) (p : Params) (j : nat) :
  forall (attempt : Z) (st : RethrowInCatch.Locals) (t : Trace) (fuel : nat),
    RethrowInCatch.success st = false ->
    INT_MIN <= attempt ->
    attempt + Z.of_nat j <= max_tries p ->
    max_tries p <= INT_MAX ->
    (forall i, (i < j)%nat ->
               retryable_failure h (retry_sqlstates p) (n_attempts t + i) = true) ->
    exists u,
      n_attempts u = j /\ n_sleeps u = j /\ n_warnings u = j
      /\ RethrowInCatch.retry_loop (j + fuel) h p attempt st t
         = RethrowInCatch.retry_loop fuel h p (attempt + Z.of_nat j) st (t ++ u).
Proof.
  induction j as [|j IH]; intros attempt st t fuel Hs Hlo Hhi Hmax Hall.
  - exists []. rewrite app_nil_r, Z.add_0_r. repeat split.
  - destruct (retryable_failure_inv h _ _ (Hall 0%nat ltac:(lia))) as [e [He Hr]].
    rewrite Nat.add_0_r in He.
    cbn [Nat.add RethrowInCatch.retry_loop].
    rewrite (proj2 (Z.leb_le attempt (max_tries p))) by lia.
    rewrite (rethrow_once_retry h p attempt st t e He Hr) by lia.
    rewrite Hs, wrap32_in_range by (unfold INT_MAX in *; lia).
    destruct (IH (attempt + 1) st (t ++ retry_round h p attempt e (n_sleeps t)) fuel)
      as [u [Ha [Hsl [Hw Hloop]]]]; try assumption; try lia.
    { intros i Hi. rewrite n_attempts_app.
      rewrite (proj1 (retry_round_counts h p attempt e (n_sleeps t))).
      replace (n_attempts t + 1 + i)%nat with (n_attempts t + S i)%nat by lia.
      apply Hall. lia. }
    exists (retry_round h p attempt e (n_sleeps t) ++ u).
    rewrite n_attempts_app, n_sleeps_app, n_warnings_app, Ha, Hsl, Hw.
    repeat split.
    rewrite Hloop, app_assoc. f_equal. lia.
Qed.

Lemma retain_last_loop_retries (h : Host) (p : Params) (j : nat) :
  forall (attempt : Z) (st : RetainLast.Locals) (t : Trace) (fuel : nat),
    RetainLast.success st = false ->
    INT_MIN <= attempt ->
    attempt + Z.of_nat j <= max_tries p ->
    max_tries p <= INT_MAX ->
    (forall i, (i < j)%nat ->
               retryable_failure h (retry_sqlstates p) (n_attempts t + i) = true) ->
    exists u,
      n_attempts u = j /\ n_sleeps u = j /\ n_warnings u = j
      /\ RetainLast.retry_loop (j + fuel) h p attempt st t
         = RetainLast.retry_loop fuel h p (attempt + Z.of_nat j) st (t ++ u).
Proof.
  induction j as [|j IH]; intros attempt st t fuel Hs Hlo Hhi Hmax Hall.
  - exists []. rewrite app_nil_r, Z.add_0_r. repeat split.
  - destruct (retryable_failure_inv h _ _ (Hall 0%nat ltac:(lia))) as [e [He Hr]].
    rewrite Nat.add_0_r in He.
    cbn [Nat.add RetainLast.retry_loop].
    rewrite (proj2 (Z.leb_le attempt (max_tries p))) by lia.
    rewrite (retain_last_once_retry h p attempt st t e He Hr) by lia.
    rewrite Hs, wrap32_in_range by (unfold INT_MAX in *; lia).
    destruct (IH (attempt + 1) st (t ++ retry_round h p attempt e (n_sleeps t)) fuel)
      as [u [Ha [Hsl [Hw Hloop]]]]; try assumption; try lia.
    { intros i Hi. rewrite n_attempts_app.
      rewrite (proj1 (retry_round_counts h p attempt e (n_sleeps t))).
      replace (n_attempts t + 1 + i)%nat with (n_attempts t + S i)%nat by lia.
      apply Hall. lia. }
    exists (retry_round h p attempt e (n_sleeps t) ++ u).
    rewrite n_attempts_app, n_sleeps_app, n_warnings_app, Ha, Hsl, Hw.
    repeat split.
    rewrite Hloop, app_assoc. f_equal. lia.
Qed.

(** The round that ends the loop. *)
Lemma rethrow_loop_success (h : Host) (p : Params) (fuel : nat) (attempt : Z)
    (st : RethrowInCatch.Locals) (t : Trace) (rows : Z) :
  attempt <= max_tries p ->
  try_block (SPI_execute h (n_attempts t)) = inr rows ->
  RethrowInCatch.retry_loop (S fuel) h p attempt st t
  = Some (RethrowInCatch.Falls
            {| RethrowInCatch.processed_rows := rows; RethrowInCatch.success := true |}
            (t ++ success_round)).
Proof.
  intros Hle H. cbn [RethrowInCatch.retry_loop].
  rewrite (proj2 (Z.leb_le _ _) Hle).
  now rewrite (rethrow_once_success h p attempt st t rows H).
Qed.

Lemma rethrow_loop_throw (h : Host) (p : Params) (fuel : nat) (attempt : Z)
    (st : RethrowInCatch.Locals) (t : Trace) (e : ErrorData) :
  attempt <= max_tries p ->
  failure_at h (n_attempts t) = Some e ->
  should_retry e (retry_sqlstates p) = false \/ attempt = max_tries p ->
  RethrowInCatch.retry_loop (S fuel) h p attempt st t
  = Some (RethrowInCatch.Throws e (t ++ failed_round p attempt e)).
Proof.
  intros Hle He Hs. cbn [RethrowInCatch.retry_loop].
  rewrite (proj2 (Z.leb_le _ _) Hle).
  now rewrite (rethrow_once_throw h p attempt st t e He Hs).
Qed.

Lemma retain_last_loop_success (h : Host) (p : Params) (fuel : nat) (attempt : Z)
    (st : RetainLast.Locals) (t : Trace) (rows : Z) :
  attempt <= max_tries p ->
  try_block (SPI_execute h (n_attempts t)) = inr rows ->
  RetainLast.retry_loop (S fuel) h p attempt st t
  = Some ({| RetainLast.processed_rows := rows; RetainLast.success := true;
             RetainLast.last_error := RetainLast.last_error st |},
          t ++ success_round).
Proof.
  intros Hle H. cbn [RetainLast.retry_loop].
  rewrite (proj2 (Z.leb_le _ _) Hle).
  now rewrite (retain_last_once_success h p attempt st t rows H).
Qed.

(** In [src/pg_retry.c] the failure of the last allowed attempt is stored, and
    the loop ends at its next test, provided the counter can be incremented. *)
Lemma retain_last_loop_exhausted (h : Host) (p : Params) (fuel : nat)
    (st : RetainLast.Locals) (t : Trace) (e : ErrorData) :
  INT_MIN <= max_tries p < INT_MAX ->
  RetainLast.success st = false ->
  failure_at h (n_attempts t) = Some e ->
  RetainLast.retry_loop (S (S fuel)) h p (max_tries p) st t
  = Some ({| RetainLast.processed_rows := RetainLast.processed_rows st;
             RetainLast.success := false;
             RetainLast.last_error := Some e |},
          t ++ failed_round p (max_tries p) e).
Proof.
  intros Hr Hs He. cbn [RetainLast.retry_loop].
  rewrite Z.leb_refl.
  rewrite (retain_last_once_save h p (max_tries p) st t e He) by now right.
  cbn [RetainLast.success]. rewrite Hs.
  rewrite wrap32_in_range by (unfold INT_MAX in *; lia).
  now rewrite (proj2 (Z.leb_gt _ _)) by lia.
Qed.

(** ** From the SQL function to the validated run *)

Lemma retain_last_validated (fuel : nat) (guc : Guc) (h : Host) (args : Args) (p : Params) :
  extract_and_validate guc h args (text_to_array (pg_retry_default_sqlstates_str guc))
  = inr p ->
  RetainLast.pg_retry_retry fuel guc h args = RetainLast.run_validated fuel h p.
Proof. intros H. unfold RetainLast.pg_retry_retry. now rewrite H. Qed.

Lemma rethrow_validated (fuel : nat) (guc : Guc) (h : Host) (args : Args) (p : Params) :
  extract_and_validate guc h args (build_sqlstate_array (pg_retry_default_sqlstates_str guc))
  = inr p ->
  RethrowInCatch.pg_retry_retry fuel guc h args = RethrowInCatch.run_validated fuel h p.
Proof. intros H. unfold RethrowInCatch.pg_retry_retry. now rewrite H. Qed.

(** Scenario B of the specification: attempts 1 and 2 fail with 40001,
    attempt 3 updates 7 rows; both variants return 7 after two warnings and
    two waits. *)
Example scenario_b :
  option_map observe
    (RetainLast.pg_retry_retry 4 boot_guc (host_failing_first 2 serialization_failure_at)
       (args_update 3))
  = option_map observe
      (RethrowInCatch.pg_retry_retry 4 boot_guc
         (host_failing_first 2 serialization_failure_at) (args_update 3))
  /\ option_map (fun x => (fst x, n_attempts (snd x), n_warnings (snd x), n_sleeps (snd x)))
       (RethrowInCatch.pg_retry_retry 4 boot_guc
          (host_failing_first 2 serialization_failure_at) (args_update 3))
     = Some (Returned 7, 3%nat, 2%nat, 2%nat).
Proof. split; vm_compute; reflexivity. Qed.

(** ** The counter of [src/pg_retry.c] at [INT_MAX] *)

(** With [max_tries = INT_MAX] the loop test of [src/pg_retry.c] is true for
    every value of the counter, so the loop is only ever left by a success. *)
Lemma retain_last_loop_int_max_none (h : Host) (p : Params) (fuel : nat) :
  forall (attempt : Z) (st : RetainLast.Locals) (t : Trace),
    max_tries p = INT_MAX ->
    INT_MIN <= attempt <= INT_MAX ->
    RetainLast.success st = false ->
    (forall k, failure_at h k <> None) ->
    RetainLast.retry_loop fuel h p attempt st t = None.
Proof.
  induction fuel as [|fuel IH]; intros attempt st t Hm Hr Hs Hf; [reflexivity|].
  cbn [RetainLast.retry_loop].
  rewrite (proj2 (Z.leb_le attempt (max_tries p))) by lia.
  unfold RetainLast.attempt_once.
  pose proof (Hf (n_attempts (t ++ [EvBeginSub]))) as Hk. unfold failure_at in Hk.
  destruct (try_block _) as [e|rows]; [|now contradiction Hk].
  destruct (negb _ || _); cbn [RetainLast.success]; rewrite Hs;
    apply IH; auto using wrap32_range.
Qed.

(** The round of attempt [INT_MAX] stores the error and moves on to attempt
    [INT_MIN]. *)
Lemma retain_last_loop_wraps (h : Host) (p : Params) (fuel : nat)
    (st : RetainLast.Locals) (t : Trace) (e : ErrorData) :
  max_tries p = INT_MAX ->
  RetainLast.success st = false ->
  failure_at h (n_attempts t) = Some e ->
  RetainLast.retry_loop (S fuel) h p INT_MAX st t
  = RetainLast.retry_loop fuel h p INT_MIN
      {| RetainLast.processed_rows := RetainLast.processed_rows st;
         RetainLast.success := false;
         RetainLast.last_error := Some e |}
      (t ++ failed_round p INT_MAX e).
Proof.
  intros Hm Hs He. cbn [RetainLast.retry_loop].
  rewrite Hm, Z.leb_refl.
  rewrite (retain_last_once_save h p INT_MAX st t e He) by (right; now rewrite Hm).
  cbn [RetainLast.success]. rewrite Hs. now rewrite wrap32_succ_int_max.
Qed.

Lemma args_update_validated (h : Host) (dflt : ArrayType) (n : Z) :
  pg_parse_query h = parses_one_update ->
  1 <= n ->
  extract_and_validate boot_guc h (args_update n) dflt
  = inr {| sql := "UPDATE t SET x=1"; max_tries := n; base_delay_ms := 50;
           max_delay_ms := 1000; retry_sqlstates := dflt |}.
Proof.
  intros Hp Hn. unfold extract_and_validate, args_update.
  cbn [arg_sql arg_max_tries arg_base_delay_ms arg_max_delay_ms arg_retry_sqlstates
       or_default].
  rewrite (proj2 (Z.ltb_ge n 1)) by lia. rewrite Hp. reflexivity.
Qed.

Lemma default_codes_text_to_array :
  text_to_array (pg_retry_default_sqlstates_str boot_guc) = default_codes.
Proof. reflexivity. Qed.

Lemma default_codes_build_sqlstate_array :
  build_sqlstate_array (pg_retry_default_sqlstates_str boot_guc) = default_codes.
Proof. reflexivity. Qed.

Lemma retain_last_validated_update (h : Host) (fuel : nat) (n : Z) :
  pg_parse_query h = parses_one_update ->
  1 <= n ->
  RetainLast.pg_retry_retry fuel boot_guc h (args_update n)
  = RetainLast.run_validated fuel h (params_update n).
Proof.
  intros Hp Hn. unfold RetainLast.pg_retry_retry.
  now rewrite default_codes_text_to_array, (args_update_validated h _ n Hp Hn).
Qed.

Lemma rethrow_validated_update (h : Host) (fuel : nat) (n : Z) :
  pg_parse_query h = parses_one_update ->
  1 <= n ->
  RethrowInCatch.pg_retry_retry fuel boot_guc h (args_update n)
  = RethrowInCatch.run_validated fuel h (params_update n).
Proof.
  intros Hp Hn. unfold RethrowInCatch.pg_retry_retry.
  now rewrite default_codes_build_sqlstate_array, (args_update_validated h _ n Hp Hn).
Qed.

Lemma retain_last_run_update (h : Host) (fuel : nat) (n : Z) :
  pg_parse_query h = parses_one_update ->
  SPI_connect_ext h = SPI_OK_CONNECT ->
  1 <= n ->
  RetainLast.pg_retry_retry fuel boot_guc h (args_update n)
  = match RetainLast.retry_loop fuel h (params_update n) 1 RetainLast.init [EvSpiConnect] with
    | None => None
    | Some (st, t) => Some (RetainLast.finish st t)
    end.
Proof.
  intros Hp Hc Hn. rewrite retain_last_validated_update by assumption.
  unfold RetainLast.run_validated. rewrite Hc. reflexivity.
Qed.

(** ** Exhaustion *)

Lemma failed_round_counts (p : Params) (attempt : Z) (e : ErrorData) :
  n_attempts (failed_round p attempt e) = 1%nat
  /\ n_sleeps (failed_round p attempt e) = 0%nat
  /\ n_warnings (failed_round p attempt e)
     = (if should_retry e (retry_sqlstates p) then 1 else 0)%nat.
Proof.
  unfold failed_round. destruct (should_retry e (retry_sqlstates p)); repeat split.
Qed.

Lemma n_attempts_finish (t : Trace) : n_attempts (t ++ [EvSpiFinish]) = n_attempts t.
Proof. rewrite n_attempts_app. simpl. apply Nat.add_0_r. Qed.

Lemma n_sleeps_finish (t : Trace) : n_sleeps (t ++ [EvSpiFinish]) = n_sleeps t.
Proof. rewrite n_sleeps_app. simpl. apply Nat.add_0_r. Qed.

Lemma n_warnings_finish (t : Trace) : n_warnings (t ++ [EvSpiFinish]) = n_warnings t.
Proof. rewrite n_warnings_app. simpl. apply Nat.add_0_r. Qed.

(** When the first [max_tries] executions all fail with retryable errors,
    [src/src/pg_retry.c] makes exactly [max_tries] attempts, waits between them,
    warns about each failure and rethrows the last one. *)
Theorem rethrow_exhaustion (h : Host) (p : Params) (n fuel : nat) :
  SPI_connect_ext h = SPI_OK_CONNECT ->
  max_tries p = Z.of_nat (S n) ->
  max_tries p <= INT_MAX ->
  (forall k, (k <= n)%nat -> retryable_failure h (retry_sqlstates p) k = true) ->
  (n < fuel)%nat ->
  exists e t,
    failure_at h n = Some e
    /\ RethrowInCatch.run_validated fuel h p = Some (Rethrown e, t)
    /\ n_attempts t = S n /\ n_sleeps t = n /\ n_warnings t = S n.
Proof.
  intros Hc Hm Hmax Hall Hfuel.
  destruct (retryable_failure_inv h _ _ (Hall n (Nat.le_refl n))) as [e [He Hr]].
  exists e.
  unfold RethrowInCatch.run_validated. rewrite Hc. cbn [Z.eqb negb Pos.eqb SPI_OK_CONNECT].
  replace fuel with (n + S (fuel - S n))%nat by lia.
  destruct (rethrow_loop_retries h p n 1 RethrowInCatch.init [EvSpiConnect] (S (fuel - S n)))
    as [u [Ha [Hs [Hw Hloop]]]]; try reflexivity; try lia.
  { unfold INT_MIN. lia. }
  { intros i Hi. apply Hall. simpl. lia. }
  rewrite Hloop.
  assert (Hn : n_attempts ([EvSpiConnect] ++ u) = n) by (rewrite n_attempts_app, Ha; reflexivity).
  rewrite (rethrow_loop_throw h p _ (1 + Z.of_nat n) _ _ e); [|lia|now rewrite Hn|right; lia].
  cbn [RethrowInCatch.finish]. eexists. split; [exact He|]. split; [reflexivity|].
  destruct (failed_round_counts p (1 + Z.of_nat n) e) as [Fa [Fs Fw]].
  rewrite Hr in Fw.
  rewrite !n_attempts_app, !n_sleeps_app, !n_warnings_app, Ha, Hs, Hw, Fa, Fs, Fw.
  simpl. lia.
Qed.

(** When the first [max_tries] executions all fail with retryable errors,
    [src/pg_retry.c] too makes exactly [max_tries] attempts, waits between
    them, warns about each failure and rethrows the last one, as long as
    [max_tries] is below [INT_MAX]; the error is rethrown after the loop
    and [SPI_finish]. *)
Theorem retain_last_exhaustion (h : Host) (p : Params) (n fuel : nat) :
  SPI_connect_ext h = SPI_OK_CONNECT ->
  max_tries p = Z.of_nat (S n) ->
  max_tries p < INT_MAX ->
  (forall k, (k <= n)%nat -> retryable_failure h (retry_sqlstates p) k = true) ->
  (S n < fuel)%nat ->
  exists e t,
    failure_at h n = Some e
    /\ RetainLast.run_validated fuel h p = Some (Rethrown e, t)
    /\ n_attempts t = S n /\ n_sleeps t = n /\ n_warnings t = S n.
Proof.
  intros Hc Hm Hmax Hall Hfuel.
  destruct (retryable_failure_inv h _ _ (Hall n (Nat.le_refl n))) as [e [He Hr]].
  exists e.
  unfold RetainLast.run_validated. rewrite Hc. cbn [Z.eqb negb Pos.eqb SPI_OK_CONNECT].
  replace fuel with (n + S (S (fuel - S (S n))))%nat by lia.
  destruct (retain_last_loop_retries h p n 1 RetainLast.init [EvSpiConnect]
              (S (S (fuel - S (S n)))))
    as [u [Ha [Hs [Hw Hloop]]]]; try reflexivity; try lia.
  { unfold INT_MIN. lia. }
  { intros i Hi. apply Hall. simpl. lia. }
  rewrite Hloop.
  assert (Hn : n_attempts ([EvSpiConnect] ++ u) = n) by (rewrite n_attempts_app, Ha; reflexivity).
  replace (1 + Z.of_nat n) with (max_tries p) by lia.
  rewrite (retain_last_loop_exhausted h p _ _ _ e);
    [|unfold INT_MIN; lia|reflexivity|now rewrite Hn].
  unfold RetainLast.finish. cbn [RetainLast.success RetainLast.last_error].
  eexists. split; [exact He|]. split; [reflexivity|].
  destruct (failed_round_counts p (max_tries p) e) as [Fa [Fs Fw]].
  rewrite Hr in Fw.
  rewrite n_attempts_finish, n_sleeps_finish, n_warnings_finish.
  rewrite !n_attempts_app, !n_sleeps_app, !n_warnings_app, Ha, Hs, Hw, Fa, Fs, Fw.
  simpl. lia.
Qed.

Lemma host_failing_first_fails (failing : Z) (outcome : nat -> ErrorData) (k : nat) :
  Z.of_nat k < failing ->
  failure_at (host_failing_first failing outcome) k = Some (outcome k).
Proof.
  intros H. unfold failure_at, host_failing_first. cbn [SPI_execute].
  now rewrite (proj2 (Z.ltb_lt _ _) H).
Qed.

Lemma host_failing_first_succeeds (failing : Z) (outcome : nat -> ErrorData) (k : nat) :
  failing <= Z.of_nat k ->
  try_block (SPI_execute (host_failing_first failing outcome) k) = inr 7.
Proof.
  intros H. unfold host_failing_first. cbn [SPI_execute].
  now rewrite (proj2 (Z.ltb_ge _ _) H).
Qed.

Lemma host_failing_first_retryable (failing : Z) (outcome : nat -> ErrorData)
    (codes : ArrayType) (k : nat) :
  Z.of_nat k < failing ->
  should_retry (outcome k) codes = true ->
  retryable_failure (host_failing_first failing outcome) codes k = true.
Proof.
  intros H Hr. unfold retryable_failure. now rewrite host_failing_first_fails.
Qed.

Lemma int_max_pred_nat : Z.of_nat (Z.to_nat (INT_MAX - 1)) = INT_MAX - 1.
Proof. apply Z2Nat.id. unfold INT_MAX. lia. Qed.

(** The rounds of [src/pg_retry.c] with [max_tries = INT_MAX] on a host whose
    first [INT_MAX] executions (at least) fail with a serialization failure:
    [INT_MAX - 1] retries, then the round of attempt [INT_MAX], which stores
    the error and goes on with attempt [INT_MIN]. *)
Lemma retain_last_int_max_rounds (failing : Z) (fuel : nat) :
  INT_MAX <= failing ->
  let h := host_failing_first failing
             (fun _ => serialization_failure "could not serialize access") in
  exists j t st,
    Z.of_nat (n_attempts t) = INT_MAX
    /\ RetainLast.success st = false
    /\ RetainLast.retry_loop (j + S fuel) h (params_update INT_MAX) 1
         RetainLast.init [EvSpiConnect]
       = RetainLast.retry_loop fuel h (params_update INT_MAX) INT_MIN st t.
Proof.
  intros Hf h. pose proof int_max_pred_nat as Hj.
  remember (Z.to_nat (INT_MAX - 1)) as j eqn:Ej. clear Ej.
  destruct (retain_last_loop_retries h (params_update INT_MAX) j 1 RetainLast.init
              [EvSpiConnect] (S fuel))
    as [u [Ha [_ [_ Hloop]]]]; try reflexivity.
  { unfold INT_MIN. lia. }
  { cbn [params_update max_tries]. lia. }
  { intros i Hi. apply host_failing_first_retryable; [|reflexivity].
    change (n_attempts [EvSpiConnect]) with 0%nat. lia. }
  assert (Hn : n_attempts ([EvSpiConnect] ++ u) = j)
    by (rewrite n_attempts_app, Ha; reflexivity).
  eexists j, _, _. split; [|split]; [| |rewrite Hloop].
  3:{ replace (1 + Z.of_nat j) with INT_MAX by lia.
      apply (retain_last_loop_wraps h (params_update INT_MAX) fuel RetainLast.init _
               (serialization_failure "could not serialize access"));
        [reflexivity|reflexivity|].
      rewrite Hn. apply (host_failing_first_fails failing). lia. }
  - rewrite n_attempts_app, Hn.
    rewrite (proj1 (failed_round_counts _ _ _)). lia.
  - reflexivity.
Qed.

(** C2.  With [max_tries = INT_MAX], when all [INT_MAX] allowed attempts fail
    with the retryable code 40001, [src/pg_retry.c] propagates nothing: it runs
    attempt number [INT_MAX + 1] and returns its row count; on the same
    input [src/src/pg_retry.c] rethrows the failure of attempt [INT_MAX]. *)
Theorem retain_last_exhaustion_lost_at_int_max :
  (exists fuel t,
      RetainLast.pg_retry_retry fuel boot_guc host_failing_int_max (args_update INT_MAX)
      = Some (Returned 7, t)
      /\ Z.of_nat (n_attempts t) = INT_MAX + 1)
  /\ (exists fuel t,
         RethrowInCatch.pg_retry_retry fuel boot_guc host_failing_int_max
           (args_update INT_MAX)
         = Some (Rethrown (serialization_failure "could not serialize access"), t)
         /\ Z.of_nat (n_attempts t) = INT_MAX).
Proof.
  split.
  - destruct (retain_last_int_max_rounds INT_MAX 1 (Z.le_refl _)) as [j [t [st [Hn [Hs Hloop]]]]].
    exists (j + 2)%nat. eexists.
    rewrite retain_last_run_update; try reflexivity; [|unfold INT_MAX; lia].
    unfold host_failing_int_max. rewrite Hloop.
    rewrite (retain_last_loop_success _ _ _ _ _ _ 7).
    + unfold RetainLast.finish. cbn [RetainLast.success RetainLast.processed_rows].
      split; [reflexivity|].
      rewrite n_attempts_finish, n_attempts_app. change (n_attempts success_round) with 1%nat.
      lia.
    + cbn [params_update max_tries]. unfold INT_MIN, INT_MAX. lia.
    + apply host_failing_first_succeeds. lia.
  - pose proof int_max_pred_nat as Hj.
    remember (Z.to_nat (INT_MAX - 1)) as j eqn:Ej. clear Ej.
    destruct (rethrow_exhaustion host_failing_int_max (params_update INT_MAX) j (S j))
      as [e [t [He [Hrun [Ha _]]]]]; try reflexivity; try lia.
    { cbn [params_update max_tries]. lia. }
    { intros k Hk. apply host_failing_first_retryable; [lia|reflexivity]. }
    exists (S j), t.
    rewrite rethrow_validated_update; [|reflexivity|unfold INT_MAX; lia].
    rewrite Hrun.
    unfold host_failing_int_max in He. rewrite host_failing_first_fails in He by lia.
    injection He as <-. split; [reflexivity|lia].
Qed.

(** C1.  With [max_tries = INT_MAX] and every execution failing with the
    retryable code 40001, [src/pg_retry.c] never ends: after the failure of
    attempt [INT_MAX] is stored the counter wraps, the loop test holds again,
    and no amount of fuel yields a success or a failure.  On the same input
    [src/src/pg_retry.c] rethrows after exactly [INT_MAX] attempts. *)
Theorem retain_last_never_ends_at_int_max :
  (forall fuel,
      RetainLast.pg_retry_retry fuel boot_guc host_always_failing (args_update INT_MAX)
      = None)
  /\ (exists fuel t,
         RethrowInCatch.pg_retry_retry fuel boot_guc host_always_failing
           (args_update INT_MAX)
         = Some (Rethrown (serialization_failure "could not serialize access"), t)
         /\ Z.of_nat (n_attempts t) = INT_MAX).
Proof.
  split.
  - intros fuel.
    rewrite retain_last_run_update; try reflexivity; [|unfold INT_MAX; lia].
    rewrite retain_last_loop_int_max_none; try reflexivity.
    + unfold INT_MIN, INT_MAX. lia.
    + intros k. discriminate.
  - pose proof int_max_pred_nat as Hj.
    remember (Z.to_nat (INT_MAX - 1)) as j eqn:Ej. clear Ej.
    destruct (rethrow_exhaustion host_always_failing (params_update INT_MAX) j (S j))
      as [e [t [He [Hrun [Ha _]]]]]; try reflexivity; try lia.
    { cbn [params_update max_tries]. lia. }
    exists (S j), t.
    rewrite rethrow_validated_update; [|reflexivity|unfold INT_MAX; lia].
    rewrite Hrun. injection He as <-. split; [reflexivity|lia].
Qed.

(** C7.  With [max_tries = INT_MAX], after the failure of attempt [INT_MAX]
    (the last allowed one) [src/pg_retry.c] runs another round, in which it
    waits: its trace is one with [INT_MAX] attempts followed by one with a
    wait. *)
Theorem retain_last_sleeps_after_exhaustion_at_int_max :
  exists fuel t0 t1,
    RetainLast.pg_retry_retry fuel boot_guc host_failing_past_int_max (args_update INT_MAX)
    = Some (Returned 7, t0 ++ t1)
    /\ Z.of_nat (n_attempts t0) = INT_MAX
    /\ n_sleeps t1 = 1%nat.
Proof.
  destruct (retain_last_int_max_rounds (INT_MAX + 1) 2 ltac:(lia)) as [j [t [st [Hn [Hs Hloop]]]]].
  set (h := host_failing_past_int_max).
  destruct (retain_last_loop_retries h (params_update INT_MAX) 1 INT_MIN st t 1)
    as [u [Ha [Hsl [_ Hretry]]]]; try assumption.
  { lia. }
  { cbn [params_update max_tries]. unfold INT_MIN, INT_MAX. lia. }
  { reflexivity. }
  { intros i Hi. apply host_failing_first_retryable; [lia|reflexivity]. }
  exists (j + 3)%nat, t, (u ++ success_round ++ [EvSpiFinish]).
  rewrite retain_last_run_update; try reflexivity; [|unfold INT_MAX; lia].
  fold h. unfold h, host_failing_past_int_max in *. rewrite Hloop.
  change 2%nat with (1 + 1)%nat. rewrite Hretry.
  rewrite (retain_last_loop_success _ _ _ _ _ _ 7).
  - unfold RetainLast.finish. cbn [RetainLast.success RetainLast.processed_rows].
    split; [now rewrite <- !app_assoc|]. split; [exact Hn|].
    rewrite n_sleeps_app, Hsl. reflexivity.
  - cbn [params_update max_tries]. unfold INT_MIN, INT_MAX. lia.
  - apply host_failing_first_succeeds. rewrite n_attempts_app, Ha. lia.
Qed.

(** ** A failure that is not retryable *)

(** In [src/src/pg_retry.c] a failure the classifier does not retry is rethrown
    at once, at whatever attempt it occurs: the trace ends with the rollback
    of that attempt, with no warning, no wait and no further attempt. *)
Theorem rethrow_nonretryable_immediate (h : Host) (p : Params) (n fuel : nat)
    (e : ErrorData) :
  SPI_connect_ext h = SPI_OK_CONNECT ->
  Z.of_nat (S n) <= max_tries p <= INT_MAX ->
  (forall k, (k < n)%nat -> retryable_failure h (retry_sqlstates p) k = true) ->
  failure_at h n = Some e ->
  should_retry e (retry_sqlstates p) = false ->
  (n < fuel)%nat ->
  exists t0,
    RethrowInCatch.run_validated fuel h p
    = Some (Rethrown e, t0 ++ [EvBeginSub; EvExecute; EvRollbackSub])
    /\ n_attempts t0 = n /\ n_sleeps t0 = n /\ n_warnings t0 = n.
Proof.
  intros Hc Hm Hall He Hr Hfuel.
  unfold RethrowInCatch.run_validated. rewrite Hc. cbn [Z.eqb negb Pos.eqb SPI_OK_CONNECT].
  replace fuel with (n + S (fuel - S n))%nat by lia.
  destruct (rethrow_loop_retries h p n 1 RethrowInCatch.init [EvSpiConnect] (S (fuel - S n)))
    as [u [Ha [Hs [Hw Hloop]]]]; try reflexivity; try lia.
  { unfold INT_MIN. lia. }
  { intros i Hi. apply Hall. exact Hi. }
  rewrite Hloop.
  assert (Hn : n_attempts ([EvSpiConnect] ++ u) = n) by (rewrite n_attempts_app, Ha; reflexivity).
  rewrite (rethrow_loop_throw h p _ (1 + Z.of_nat n) _ _ e); [|lia|now rewrite Hn|now left].
  cbn [RethrowInCatch.finish]. unfold failed_round. rewrite Hr, app_nil_r.
  exists ([EvSpiConnect] ++ u). split; [reflexivity|].
  rewrite n_attempts_app, n_sleeps_app, n_warnings_app, Ha, Hs, Hw. repeat split.
Qed.

(** C4.  Scenario D with maxTries = 5: the first execution fails with 22012,
    which is not in the default list.  [src/pg_retry.c] stores the error and runs
    a second attempt, whose row count it returns, so that the failure is
    never propagated; when every execution fails with 22012 it makes all
    five attempts and rethrows the fifth failure.  [src/src/pg_retry.c] rethrows
    the first failure after one attempt. *)
Theorem retain_last_continues_after_nonretryable :
  RetainLast.pg_retry_retry 6 boot_guc host_division_then_ok (args_update 5)
  = Some (Returned 7,
          [EvSpiConnect; EvBeginSub; EvExecute; EvRollbackSub;
           EvBeginSub; EvExecute; EvReleaseSub; EvSpiFinish])
  /\ option_map observe
       (RetainLast.pg_retry_retry 6 boot_guc host_always_dividing (args_update 5))
     = Some {| obs_rows := None; obs_error := Some (division_by_zero_at 4);
               obs_attempts := 5; obs_sleeps := []; obs_warnings := [] |}
  /\ RethrowInCatch.pg_retry_retry 6 boot_guc host_division_then_ok (args_update 5)
     = Some (Rethrown division_by_zero,
             [EvSpiConnect; EvBeginSub; EvExecute; EvRollbackSub])
  /\ option_map observe
       (RethrowInCatch.pg_retry_retry 6 boot_guc host_always_dividing (args_update 5))
     = Some {| obs_rows := None; obs_error := Some (division_by_zero_at 0);
               obs_attempts := 1; obs_sleeps := []; obs_warnings := [] |}.
Proof. repeat split; vm_compute; reflexivity. Qed.

(** ** Scenario C: two retryable failures with maxTries = 2 *)

Lemma should_retry_listed (e : ErrorData) (codes : ArrayType) :
  sqlerrcode e <> 0 ->
  In (Some (unpack_sql_state (sqlerrcode e))) codes ->
  should_retry e codes = true.
Proof.
  intros Hz Hin. unfold should_retry.
  rewrite (proj2 (Z.eqb_neq _ _) Hz). now apply is_retryable_sqlstate_In.
Qed.

(** The claim of C3 fails as stated: in Scenario C each variant emits two
    warnings, one for each retryable failure, the second one before the
    failure of attempt 2 is rethrown. *)
Lemma scenario_c_not_one_warning :
  ~ scenario_c_as_stated
      (RetainLast.pg_retry_retry 3 boot_guc host_scenario_c (args_update 2))
  /\ ~ scenario_c_as_stated
         (RethrowInCatch.pg_retry_retry 3 boot_guc host_scenario_c (args_update 2))
  /\ option_map (fun x => n_warnings (snd x))
       (RetainLast.pg_retry_retry 3 boot_guc host_scenario_c (args_update 2))
     = Some 2%nat
  /\ option_map (fun x => n_warnings (snd x))
       (RethrowInCatch.pg_retry_retry 3 boot_guc host_scenario_c (args_update 2))
     = Some 2%nat.
Proof.
  assert (HA : option_map (fun x => n_warnings (snd x))
                 (RetainLast.pg_retry_retry 3 boot_guc host_scenario_c (args_update 2))
               = Some 2%nat) by (vm_compute; reflexivity).
  assert (HB : option_map (fun x => n_warnings (snd x))
                 (RethrowInCatch.pg_retry_retry 3 boot_guc host_scenario_c (args_update 2))
               = Some 2%nat) by (vm_compute; reflexivity).
  repeat split; try assumption.
  - intros [t [Hrun Hw]]. rewrite Hrun in HA. simpl in HA. congruence.
  - intros [t [Hrun Hw]]. rewrite Hrun in HB. simpl in HB. congruence.
Qed.

(** C3 (amended).  With maxTries = 2, when both attempts fail with code 40001
    and 40001 is in the list, both variants make two attempts with one wait
    between them, emit two warnings (for attempt 1 and for attempt 2) and
    propagate the failure of attempt 2, code and message unchanged. *)
Theorem scenario_c_two_warnings (h : Host) (p : Params) (fuel : nat)
    (m1 m2 : option string) :
  SPI_connect_ext h = SPI_OK_CONNECT ->
  max_tries p = 2 ->
  In (Some "40001") (retry_sqlstates p) ->
  failure_at h 0 = Some {| sqlerrcode := ERRCODE_T_R_SERIALIZATION_FAILURE; message := m1 |} ->
  failure_at h 1 = Some {| sqlerrcode := ERRCODE_T_R_SERIALIZATION_FAILURE; message := m2 |} ->
  (3 <= fuel)%nat ->
  let e1 := {| sqlerrcode := ERRCODE_T_R_SERIALIZATION_FAILURE; message := m1 |} in
  let e2 := {| sqlerrcode := ERRCODE_T_R_SERIALIZATION_FAILURE; message := m2 |} in
  exists tA tB,
    RetainLast.run_validated fuel h p = Some (Rethrown e2, tA)
    /\ RethrowInCatch.run_validated fuel h p = Some (Rethrown e2, tB)
    /\ tA = tB ++ [EvSpiFinish]
    /\ unpack_sql_state (sqlerrcode e2) = "40001"
    /\ warnings tB = [EvWarning (retry_warning 1 2 e1); EvWarning (retry_warning 2 2 e2)]
    /\ n_attempts tB = 2%nat
    /\ n_sleeps tB = 1%nat.
Proof.
  intros Hc Hm Hin H1 H2 Hfuel e1 e2.
  assert (Hr1 : should_retry e1 (retry_sqlstates p) = true)
    by (apply should_retry_listed; [discriminate | exact Hin]).
  assert (Hr2 : should_retry e2 (retry_sqlstates p) = true)
    by (apply should_retry_listed; [discriminate | exact Hin]).
  destruct fuel as [|[|[|fuel]]]; try lia.
  set (t1 := [EvSpiConnect] ++ retry_round h p 1 e1 0).
  exists ((t1 ++ failed_round p 2 e2) ++ [EvSpiFinish]), (t1 ++ failed_round p 2 e2).
  assert (Hn1 : n_attempts t1 = 1%nat) by reflexivity.
  split; [|split].
  - unfold RetainLast.run_validated. rewrite Hc. cbn [Z.eqb negb Pos.eqb SPI_OK_CONNECT].
    cbn [RetainLast.retry_loop]. rewrite Hm. cbn [Z.leb Z.compare Pos.compare Pos.compare_cont].
    rewrite (retain_last_once_retry h p 1 RetainLast.init [EvSpiConnect] e1 H1 Hr1) by lia.
    cbn [RetainLast.success RetainLast.init].
    change (wrap32 (1 + 1)) with 2. change (n_sleeps [EvSpiConnect]) with 0%nat. fold t1.
    rewrite (retain_last_once_save h p 2 RetainLast.init t1 e2) by (rewrite ?Hn1; auto).
    cbn [RetainLast.success RetainLast.init].
    change (wrap32 (2 + 1)) with 3.
    destruct fuel; reflexivity.
  - unfold RethrowInCatch.run_validated. rewrite Hc. cbn [Z.eqb negb Pos.eqb SPI_OK_CONNECT].
    cbn [RethrowInCatch.retry_loop]. rewrite Hm. cbn [Z.leb Z.compare Pos.compare Pos.compare_cont].
    rewrite (rethrow_once_retry h p 1 RethrowInCatch.init [EvSpiConnect] e1 H1 Hr1) by lia.
    cbn [RethrowInCatch.success RethrowInCatch.init].
    change (wrap32 (1 + 1)) with 2. change (n_sleeps [EvSpiConnect]) with 0%nat. fold t1.
    rewrite (rethrow_once_throw h p 2 RethrowInCatch.init t1 e2) by (rewrite ?Hn1; auto).
    reflexivity.
  - split; [reflexivity|]. split; [reflexivity|].
    unfold t1, failed_round, retry_round. rewrite Hr2, Hm. repeat split.
Qed.

(** ** The two variants side by side *)








(** ** Backoff bounds *)

(** ** Powers of two *)

Lemma pow2_pos (k : Z) : (0 < 2 ^ k)%Q.
Proof. apply Qpower_0_lt. reflexivity. Qed.

Lemma pow2_add (a b : Z) : (2 ^ (a + b) == 2 ^ a * 2 ^ b)%Q.
Proof. apply Qpower_plus. discriminate. Qed.

Lemma pow2_le (a b : Z) : a <= b -> (2 ^ a <= 2 ^ b)%Q.
Proof. intros H. apply Qpower_le_compat_l; [exact H | discriminate]. Qed.

Lemma pow2_succ (a : Z) : (2 ^ (a + 1) == 2 * 2 ^ a)%Q.
Proof. rewrite pow2_add. change (2 ^ 1)%Q with 2%Q. ring. Qed.

Lemma pow2_lt (a b : Z) : a < b -> (2 ^ a < 2 ^ b)%Q.
Proof.
  intros H. apply Qlt_le_trans with (2 ^ (a + 1))%Q.
  - rewrite pow2_succ. pose proof (pow2_pos a). lra.
  - apply pow2_le. lia.
Qed.

Lemma pow2_lt_inv (a b : Z) : (2 ^ a < 2 ^ b)%Q -> a < b.
Proof.
  intros H. destruct (Z_lt_le_dec a b) as [|Hle]; [assumption|].
  apply pow2_le in Hle. lra.
Qed.

Lemma pow2_inject (n : Z) : 0 <= n -> (inject_Z (2 ^ n) == 2 ^ n)%Q.
Proof. intros H. rewrite Zpower_Qpower by exact H. reflexivity. Qed.

Lemma pow2_sub (a b : Z) : (2 ^ (a - b) == 2 ^ a / 2 ^ b)%Q.
Proof.
  pose proof (pow2_pos b).
  replace a with ((a - b) + b) at 2 by ring. rewrite pow2_add. field. lra.
Qed.

(** ** The binary exponent *)

Lemma ilog2_spec (q : Q) :
  (0 < q)%Q -> (2 ^ ilog2 q <= q)%Q /\ (q < 2 ^ (ilog2 q + 1))%Q.
Proof.
  intros Hq. destruct q as [n d]. unfold ilog2. cbn [Qnum Qden].
  assert (Hn : 0 < n) by (unfold Qlt in Hq; cbn in Hq; lia).
  set (a := Z.log2 n). set (b := Z.log2 (Z.pos d)).
  destruct (Z.log2_spec n Hn) as [Ha1 Ha2]. fold a in Ha1, Ha2.
  destruct (Z.log2_spec (Z.pos d) (Pos2Z.is_pos d)) as [Hb1 Hb2]. fold b in Hb1, Hb2.
  assert (Ha0 : 0 <= a) by apply Z.log2_nonneg.
  assert (Hb0 : 0 <= b) by apply Z.log2_nonneg.
  assert (Hq' : (n # d == inject_Z n / inject_Z (Z.pos d))%Q) by apply Qmake_Qdiv.
  assert (Hdpos : (0 < inject_Z (Z.pos d))%Q)
    by (change 0%Q with (inject_Z 0); rewrite <- Zlt_Qlt; lia).
  rewrite Zle_Qle, pow2_inject in Ha1, Hb1 by assumption.
  rewrite Zlt_Qlt, pow2_inject in Ha2, Hb2 by lia.
  replace (Z.succ a) with (a + 1) in Ha2 by lia.
  replace (Z.succ b) with (b + 1) in Hb2 by lia.
  rewrite pow2_succ in Ha2, Hb2.
  pose proof (pow2_pos a) as Hpa. pose proof (pow2_pos b) as Hpb.
  pose proof (pow2_sub a b) as Hab.
  pose proof (pow2_succ (a - b)) as Hs.
  pose proof (pow2_succ (a - b - 1)) as Hs'.
  replace (a - b - 1 + 1) with (a - b) in Hs' by ring.
  set (N := inject_Z n) in *. set (D := inject_Z (Z.pos d)) in *.
  set (A := (2 ^ a)%Q) in *. set (B := (2 ^ b)%Q) in *.
  assert (Hlow : (A / B < 2 * (N / D))%Q).
  { apply Qlt_shift_div_r; [exact Hpb|].
    setoid_replace (2 * (N / D) * B)%Q with ((2 * B) * N / D)%Q by (field; lra).
    apply Qlt_shift_div_l; [exact Hdpos|]. nra. }
  assert (Hhigh : (N / D < 2 * (A / B))%Q).
  { apply Qlt_shift_div_r; [exact Hdpos|].
    setoid_replace (2 * (A / B) * D)%Q with ((2 * A) * D / B)%Q by (field; lra).
    apply Qlt_shift_div_l; [exact Hpb|]. nra. }
  destruct (Qle_bool (2 ^ (a - b)) (n # d)) eqn:E.
  - apply Qle_bool_iff in E. split; [exact E|].
    rewrite Hs, Hab, Hq'. exact Hhigh.
  - assert (E' : (n # d < 2 ^ (a - b))%Q).
    { apply Qnot_le_lt. intros H. apply Qle_bool_iff in H. congruence. }
    replace (a - b - 1 + 1) with (a - b) by ring. split; [|exact E'].
    rewrite Hq'. rewrite Hab in Hs'. lra.
Qed.

Lemma ilog2_unique (q : Q) (e : Z) :
  (2 ^ e <= q)%Q -> (q < 2 ^ (e + 1))%Q -> ilog2 q = e.
Proof.
  intros H1 H2.
  assert (Hq : (0 < q)%Q) by (pose proof (pow2_pos e); lra).
  destruct (ilog2_spec q Hq) as [H3 H4].
  assert (ilog2 q < e + 1) by (apply pow2_lt_inv; lra).
  assert (e < ilog2 q + 1) by (apply pow2_lt_inv; lra).
  lia.
Qed.

Lemma ilog2_mono (x y : Q) : (0 < x)%Q -> (x <= y)%Q -> ilog2 x <= ilog2 y.
Proof.
  intros Hx Hxy.
  destruct (ilog2_spec x Hx) as [H1 _].
  destruct (ilog2_spec y) as [_ H2]; [lra|].
  assert (ilog2 x < ilog2 y + 1) by (apply pow2_lt_inv; lra). lia.
Qed.

Lemma ilog2_comp (x y : Q) : (0 < x)%Q -> (x == y)%Q -> ilog2 x = ilog2 y.
Proof.
  intros Hx Hxy. apply Z.le_antisymm; apply ilog2_mono; lra.
Qed.

(** ** Rounding to an integer *)

Lemma Qfloor_bounds (z : Q) :
  (inject_Z (Qfloor z) <= z)%Q /\ (z < inject_Z (Qfloor z) + 1)%Q.
Proof.
  split; [apply Qfloor_le|].
  pose proof (Qlt_floor z) as H. rewrite inject_Z_plus in H. exact H.
Qed.

Lemma Qfloor_unique (z : Q) (n : Z) :
  (inject_Z n <= z)%Q -> (z < inject_Z n + 1)%Q -> Qfloor z = n.
Proof.
  intros H1 H2. destruct (Qfloor_bounds z) as [H3 H4].
  assert (Ha : (inject_Z n < inject_Z (Qfloor z + 1))%Q)
    by (rewrite inject_Z_plus; change (inject_Z 1) with 1%Q; lra).
  assert (Hb : (inject_Z (Qfloor z) < inject_Z (n + 1))%Q)
    by (rewrite inject_Z_plus; change (inject_Z 1) with 1%Q; lra).
  rewrite <- Zlt_Qlt in Ha, Hb. lia.
Qed.

(** The rounded integer is the floor or the floor plus one, by the side of
    the half the fraction lies on. *)
Lemma round_half_even_cases (z : Q) :
  let f := Qfloor z in
  let r := (z - inject_Z f)%Q in
  ((r < 1 # 2)%Q /\ round_half_even z = f)
  \/ ((1 # 2 < r)%Q /\ round_half_even z = f + 1)
  \/ ((r == 1 # 2)%Q /\ Z.even f = true /\ round_half_even z = f)
  \/ ((r == 1 # 2)%Q /\ Z.even f = false /\ round_half_even z = f + 1).
Proof.
  intros f r. unfold round_half_even. fold f. fold r.
  destruct (r ?= 1 # 2)%Q eqn:E.
  - apply Qeq_alt in E. destruct (Z.even f) eqn:Ev; [right; right; left | right; right; right]; auto.
  - apply Qlt_alt in E. left. auto.
  - apply Qgt_alt in E. right. left. auto.
Qed.

Lemma round_half_even_bounds (z : Q) :
  (z - (1 # 2) <= inject_Z (round_half_even z))%Q
  /\ (inject_Z (round_half_even z) <= z + (1 # 2))%Q.
Proof.
  destruct (Qfloor_bounds z) as [H1 H2].
  destruct (round_half_even_cases z) as [[Hr ->] | [[Hr ->] | [[Hr [_ ->]] | [Hr [_ ->]]]]];
    rewrite ?inject_Z_plus; change (inject_Z 1) with 1%Q; split; lra.
Qed.

Lemma round_half_even_near (z : Q) (n : Z) :
  (inject_Z n - (1 # 2) < z)%Q -> (z < inject_Z n + (1 # 2))%Q ->
  round_half_even z = n.
Proof.
  intros H1 H2. destruct (round_half_even_bounds z) as [H3 H4].
  assert (Ha : (inject_Z n < inject_Z (round_half_even z + 1))%Q)
    by (rewrite inject_Z_plus; change (inject_Z 1) with 1%Q; lra).
  assert (Hb : (inject_Z (round_half_even z) < inject_Z (n + 1))%Q)
    by (rewrite inject_Z_plus; change (inject_Z 1) with 1%Q; lra).
  rewrite <- Zlt_Qlt in Ha, Hb. lia.
Qed.

Lemma round_half_even_Z (z : Q) (n : Z) : (z == inject_Z n)%Q -> round_half_even z = n.
Proof. intros H. apply round_half_even_near; lra. Qed.

Lemma round_half_even_mono (x y : Q) :
  (x <= y)%Q -> round_half_even x <= round_half_even y.
Proof.
  intros Hxy.
  pose proof (Qfloor_resp_le _ _ Hxy) as Hf.
  destruct (Qfloor_bounds x) as [Hx1 Hx2]. destruct (Qfloor_bounds y) as [Hy1 Hy2].
  destruct (Z.eq_dec (Qfloor x) (Qfloor y)) as [E | NE].
  - destruct (round_half_even_cases x)
      as [[Hr ->] | [[Hr ->] | [[Hr [Ev ->]] | [Hr [Ev ->]]]]];
    destruct (round_half_even_cases y)
      as [[Hr' ->] | [[Hr' ->] | [[Hr' [Ev' ->]] | [Hr' [Ev' ->]]]]];
    rewrite <- ?E in *; try lia; try congruence; exfalso; lra.
  - assert (Hlt : Qfloor x + 1 <= Qfloor y) by lia.
    assert (round_half_even x <= Qfloor x + 1)
      by (destruct (round_half_even_cases x)
            as [[_ ->] | [[_ ->] | [[_ [_ ->]] | [_ [_ ->]]]]]; lia).
    assert (Qfloor y <= round_half_even y)
      by (destruct (round_half_even_cases y)
            as [[_ ->] | [[_ ->] | [[_ [_ ->]] | [_ [_ ->]]]]]; lia).
    lia.
Qed.

Lemma round_half_even_comp (x y : Q) : (x == y)%Q -> round_half_even x = round_half_even y.
Proof. intros H. apply Z.le_antisymm; apply round_half_even_mono; lra. Qed.

Lemma round_half_even_opp (z : Q) : round_half_even (- z) = - round_half_even z.
Proof.
  destruct (Qfloor_bounds z) as [H1 H2].
  set (f := Qfloor z) in *.
  destruct (Qeq_dec z (inject_Z f)) as [Hint | Hfrac].
  - rewrite (round_half_even_Z z f Hint).
    apply round_half_even_Z. rewrite inject_Z_opp. lra.
  - assert (Hlt : (inject_Z f < z)%Q).
    { apply Qle_lteq in H1. destruct H1 as [H1 | H1]; [exact H1|].
      exfalso. apply Hfrac. symmetry. exact H1. }
    assert (Hfl : Qfloor (- z) = - f - 1).
    { apply Qfloor_unique; unfold Z.sub; rewrite inject_Z_plus, !inject_Z_opp;
        change (inject_Z 1) with 1%Q; lra. }
    assert (Hinj : (inject_Z (- f - 1) == - inject_Z f - 1)%Q).
    { unfold Z.sub. rewrite inject_Z_plus, !inject_Z_opp. reflexivity. }
    assert (Hpar : Z.even (- f - 1) = negb (Z.even f)).
    { replace (- f - 1) with (- (f + 1)) by ring.
      rewrite Z.even_opp, Z.even_add. destruct (Z.even f); reflexivity. }
    destruct (round_half_even_cases z)
      as [[Hr ->] | [[Hr ->] | [[Hr [Ev ->]] | [Hr [Ev ->]]]]]; fold f in Hr;
    destruct (round_half_even_cases (- z))
      as [[Hr' ->] | [[Hr' ->] | [[Hr' [Ev' ->]] | [Hr' [Ev' ->]]]]];
    rewrite Hfl in *; rewrite ?Hinj in *; try lia;
    try (exfalso; lra);
    try (exfalso; rewrite Hpar in *; try rewrite Ev in *; try fold f in Ev;
         try rewrite Ev in *; discriminate).
Qed.

(** ** Rounding to a double *)

Lemma Qabs_pos_nonzero (q : Q) : ~ (q == 0)%Q -> (0 < Qabs q)%Q.
Proof.
  intros H. destruct (Qlt_le_dec 0 q) as [Hp | Hn].
  - rewrite Qabs_pos; lra.
  - rewrite Qabs_neg by exact Hn.
    destruct (Qlt_le_dec q 0) as [Hlt | Hge]; [lra|].
    exfalso. apply H. lra.
Qed.

Lemma round_double_comp (x y : Q) : (x == y)%Q -> round_double x = round_double y.
Proof. intros H. unfold round_double. rewrite (Qred_complete x y H). reflexivity. Qed.

Lemma round_double_zero (q : Q) : (q == 0)%Q -> round_double q = 0%Q.
Proof.
  intros H. rewrite (round_double_comp q 0 H). reflexivity.
Qed.

Lemma ulp_exponent_comp (x y : Q) :
  ~ (x == 0)%Q -> (x == y)%Q -> ulp_exponent x = ulp_exponent y.
Proof.
  intros Hx H. unfold ulp_exponent. f_equal. f_equal. f_equal.
  apply ilog2_comp.
  - apply Qabs_pos_nonzero. exact Hx.
  - rewrite H. reflexivity.
Qed.

(** Away from zero the rounded value is the nearest multiple of the unit in
    the last place. *)
Lemma round_double_eq (q : Q) :
  ~ (q == 0)%Q ->
  (round_double q
   == inject_Z (round_half_even (q / 2 ^ ulp_exponent q)) * 2 ^ ulp_exponent q)%Q.
Proof.
  intros Hq. unfold round_double.
  assert (Hred : (Qred q == q)%Q) by apply Qred_correct.
  destruct (Qeq_bool (Qred q) 0) eqn:E.
  - apply Qeq_bool_iff in E. exfalso. apply Hq. rewrite <- Hred. exact E.
  - assert (Hnz : ~ (Qred q == 0)%Q) by (rewrite Hred; exact Hq).
    rewrite (ulp_exponent_comp (Qred q) q Hnz Hred).
    rewrite (round_half_even_comp (Qred q / 2 ^ ulp_exponent q) (q / 2 ^ ulp_exponent q))
      by (rewrite Hred; reflexivity).
    reflexivity.
Qed.

Lemma round_double_opp (q : Q) : (round_double (- q) == - round_double q)%Q.
Proof.
  destruct (Qeq_dec q 0) as [Hz | Hnz].
  - rewrite (round_double_zero q Hz), (round_double_zero (- q)) by lra. reflexivity.
  - assert (Hnz' : ~ (- q == 0)%Q) by (intros H; apply Hnz; lra).
    rewrite (round_double_eq q Hnz), (round_double_eq (- q) Hnz').
    assert (Hk : ulp_exponent (- q) = ulp_exponent q).
    { unfold ulp_exponent. f_equal. f_equal. f_equal.
      apply ilog2_comp; [apply Qabs_pos_nonzero; exact Hnz' | apply Qabs_opp]. }
    rewrite Hk. pose proof (pow2_pos (ulp_exponent q)) as Hp.
    rewrite (round_half_even_comp (- q / 2 ^ ulp_exponent q) (- (q / 2 ^ ulp_exponent q)))
      by (field; lra).
    rewrite round_half_even_opp, inject_Z_opp. ring.
Qed.

(** The rounding error is at most half a unit in the last place. *)
Lemma pow2_half (k : Z) : (2 ^ k == 2 * 2 ^ (k - 1))%Q.
Proof. rewrite <- pow2_succ. replace (k - 1 + 1) with k by ring. reflexivity. Qed.

Lemma round_double_half_ulp (q : Q) :
  (q - 2 ^ (ulp_exponent q - 1) <= round_double q)%Q
  /\ (round_double q <= q + 2 ^ (ulp_exponent q - 1))%Q.
Proof.
  pose proof (pow2_pos (ulp_exponent q - 1)) as Hp.
  pose proof (pow2_half (ulp_exponent q)) as Hu.
  destruct (Qeq_dec q 0) as [Hz | Hnz].
  - rewrite (round_double_zero q Hz).
    set (h := (2 ^ (ulp_exponent q - 1))%Q) in *. lra.
  - rewrite (round_double_eq q Hnz).
    destruct (round_half_even_bounds (q / 2 ^ ulp_exponent q)) as [H1 H2].
    set (u := (2 ^ ulp_exponent q)%Q) in *.
    set (h := (2 ^ (ulp_exponent q - 1))%Q) in *.
    set (m := inject_Z (round_half_even (q / u))) in *.
    assert (Hupos : (0 < u)%Q) by lra.
    split.
    + setoid_replace (q - h)%Q with ((q / u - (1 # 2)) * u)%Q by (rewrite Hu; field; lra).
      apply Qmult_le_compat_r; lra.
    + setoid_replace (q + h)%Q with ((q / u + (1 # 2)) * u)%Q by (rewrite Hu; field; lra).
      apply Qmult_le_compat_r; lra.
Qed.

Lemma ulp_exponent_below (q : Q) (e : Z) :
  DBL_MIN_EXP <= e -> (Qabs q < 2 ^ e)%Q -> ~ (q == 0)%Q ->
  ulp_exponent q <= e - DBL_MANT_DIG.
Proof.
  intros He Hq Hnz. unfold ulp_exponent.
  destruct (ilog2_spec (Qabs q) (Qabs_pos_nonzero q Hnz)) as [H1 _].
  assert (ilog2 (Qabs q) < e) by (apply pow2_lt_inv; lra).
  unfold DBL_MIN_EXP, DBL_MANT_DIG in *. lia.
Qed.

(** Below [2^e] the rounding error is at most [2^(e-54)]. *)
Lemma round_double_error (q : Q) (e : Z) :
  DBL_MIN_EXP <= e -> (Qabs q < 2 ^ e)%Q ->
  (q - 2 ^ (e - DBL_MANT_DIG - 1) <= round_double q)%Q
  /\ (round_double q <= q + 2 ^ (e - DBL_MANT_DIG - 1))%Q.
Proof.
  intros He Hq.
  destruct (Qeq_dec q 0) as [Hz | Hnz].
  - rewrite (round_double_zero q Hz). pose proof (pow2_pos (e - DBL_MANT_DIG - 1)).
    set (h := (2 ^ (e - DBL_MANT_DIG - 1))%Q) in *. lra.
  - destruct (round_double_half_ulp q) as [H1 H2].
    assert (Hle : (2 ^ (ulp_exponent q - 1) <= 2 ^ (e - DBL_MANT_DIG - 1))%Q).
    { apply pow2_le. pose proof (ulp_exponent_below q e He Hq Hnz). lia. }
    set (h := (2 ^ (e - DBL_MANT_DIG - 1))%Q) in *.
    set (h' := (2 ^ (ulp_exponent q - 1))%Q) in *. lra.
Qed.

(** A multiple of the unit in the last place less than half a unit away is
    the rounded value. *)
Lemma round_double_near (q : Q) (n : Z) :
  ~ (q == 0)%Q ->
  (inject_Z n * 2 ^ ulp_exponent q - 2 ^ (ulp_exponent q - 1) < q)%Q ->
  (q < inject_Z n * 2 ^ ulp_exponent q + 2 ^ (ulp_exponent q - 1))%Q ->
  (round_double q == inject_Z n * 2 ^ ulp_exponent q)%Q.
Proof.
  intros Hnz H1 H2. rewrite (round_double_eq q Hnz).
  pose proof (pow2_pos (ulp_exponent q - 1)) as Hp.
  pose proof (pow2_half (ulp_exponent q)) as Hu.
  set (u := (2 ^ ulp_exponent q)%Q) in *.
  set (h := (2 ^ (ulp_exponent q - 1))%Q) in *.
  assert (Hupos : (0 < u)%Q) by lra.
  rewrite (round_half_even_near (q / u) n); [reflexivity| |].
  - apply Qlt_shift_div_l; [exact Hupos|]. lra.
  - apply Qlt_shift_div_r; [exact Hupos|]. lra.
Qed.

(** What binary64 represents is rounded to itself: [m * 2^j] with a
    significand [m] of at most 53 bits and [j] from the exponent of the
    least subnormal on. *)
Lemma round_double_exact (q : Q) (m j : Z) :
  (q == inject_Z m * 2 ^ j)%Q ->
  Z.abs m < 2 ^ DBL_MANT_DIG -> DBL_MIN_EXP - DBL_MANT_DIG <= j ->
  (round_double q == q)%Q.
Proof.
  intros Hq Hm Hj.
  destruct (Qeq_dec q 0) as [Hz | Hnz].
  - rewrite (round_double_zero q Hz). symmetry. exact Hz.
  - pose proof (pow2_pos j) as Hpj.
    assert (Habs : (Qabs q == inject_Z (Z.abs m) * 2 ^ j)%Q).
    { rewrite Hq, Qabs_Qmult, (Qabs_pos (2 ^ j)) by lra.
      reflexivity. }
    assert (Hk : ulp_exponent q <= j).
    { unfold ulp_exponent.
      destruct (ilog2_spec (Qabs q) (Qabs_pos_nonzero q Hnz)) as [H1 _].
      assert (Hlt : (Qabs q < 2 ^ (DBL_MANT_DIG + j))%Q).
      { rewrite Habs, pow2_add. apply Qmult_lt_compat_r; [exact Hpj|].
        rewrite <- pow2_inject by (unfold DBL_MANT_DIG; lia).
        rewrite <- Zlt_Qlt. exact Hm. }
      assert (ilog2 (Qabs q) < DBL_MANT_DIG + j) by (apply pow2_lt_inv; lra).
      lia. }
    set (k := ulp_exponent q) in *.
    pose proof (pow2_pos k) as Hpk.
    assert (Hgrid : (q == inject_Z (m * 2 ^ (j - k)) * 2 ^ k)%Q).
    { rewrite inject_Z_mult, pow2_inject by lia. rewrite Hq, pow2_sub. field. lra. }
    pose proof (pow2_pos (k - 1)) as Hph.
    apply Qeq_trans with (inject_Z (m * 2 ^ (j - k)) * 2 ^ k)%Q;
      [|symmetry; exact Hgrid].
    apply round_double_near; [exact Hnz| |]; fold k;
      set (h := (2 ^ (k - 1))%Q) in *; set (u := (2 ^ k)%Q) in *;
      set (g := inject_Z (m * 2 ^ (j - k))) in *; lra.
Qed.

Lemma round_double_Z (q : Q) (n : Z) :
  (q == inject_Z n)%Q -> Z.abs n < 2 ^ DBL_MANT_DIG -> (round_double q == inject_Z n)%Q.
Proof.
  intros Hq Hn. rewrite <- Hq. apply (round_double_exact q n 0).
  - rewrite Hq. change (2 ^ 0)%Q with 1%Q. ring.
  - exact Hn.
  - unfold DBL_MIN_EXP, DBL_MANT_DIG. lia.
Qed.

(** Rounding does not cross a multiple of the unit in the last place. *)
Lemma round_double_le_grid (q : Q) (n : Z) :
  ~ (q == 0)%Q ->
  (q <= inject_Z n * 2 ^ ulp_exponent q)%Q ->
  (round_double q <= inject_Z n * 2 ^ ulp_exponent q)%Q.
Proof.
  intros Hnz H. rewrite (round_double_eq q Hnz).
  pose proof (pow2_pos (ulp_exponent q)) as Hp.
  set (u := (2 ^ ulp_exponent q)%Q) in *.
  apply Qmult_le_compat_r; [|lra].
  rewrite <- Zle_Qle.
  apply Z.le_trans with (round_half_even (inject_Z n)).
  - apply round_half_even_mono. apply Qle_shift_div_r; [exact Hp | exact H].
  - rewrite (round_half_even_Z (inject_Z n) n) by reflexivity. lia.
Qed.

Lemma round_double_ge_grid (q : Q) (n : Z) :
  ~ (q == 0)%Q ->
  (inject_Z n * 2 ^ ulp_exponent q <= q)%Q ->
  (inject_Z n * 2 ^ ulp_exponent q <= round_double q)%Q.
Proof.
  intros Hnz H. rewrite (round_double_eq q Hnz).
  pose proof (pow2_pos (ulp_exponent q)) as Hp.
  set (u := (2 ^ ulp_exponent q)%Q) in *.
  apply Qmult_le_compat_r; [|lra].
  rewrite <- Zle_Qle.
  apply Z.le_trans with (round_half_even (inject_Z n)).
  - rewrite (round_half_even_Z (inject_Z n) n) by reflexivity. lia.
  - apply round_half_even_mono. apply Qle_shift_div_l; [exact Hp | exact H].
Qed.

Lemma round_double_nonneg (q : Q) : (0 <= q)%Q -> (0 <= round_double q)%Q.
Proof.
  intros H. destruct (Qeq_dec q 0) as [Hz | Hnz].
  - rewrite (round_double_zero q Hz). lra.
  - pose proof (round_double_ge_grid q 0 Hnz) as H0.
    setoid_replace (inject_Z 0 * 2 ^ ulp_exponent q)%Q with 0%Q in H0
      by (change (inject_Z 0) with 0%Q; ring).
    apply H0. exact H.
Qed.

Lemma round_double_nonpos (q : Q) : (q <= 0)%Q -> (round_double q <= 0)%Q.
Proof.
  intros H. pose proof (round_double_nonneg (- q)) as H0.
  rewrite round_double_opp in H0. lra.
Qed.

Lemma ulp_exponent_pos (q : Q) :
  (0 < q)%Q ->
  ulp_exponent q = Z.max (DBL_MIN_EXP - DBL_MANT_DIG) (ilog2 q + 1 - DBL_MANT_DIG).
Proof.
  intros H. unfold ulp_exponent. f_equal. f_equal. f_equal.
  apply ilog2_comp; [rewrite Qabs_pos; lra | apply Qabs_pos; lra].
Qed.

Lemma round_double_mono_pos (x y : Q) :
  (0 < x)%Q -> (x <= y)%Q -> (round_double x <= round_double y)%Q.
Proof.
  intros Hx Hxy.
  assert (Hy : (0 < y)%Q) by lra.
  assert (Hxnz : ~ (x == 0)%Q) by lra.
  assert (Hynz : ~ (y == 0)%Q) by lra.
  pose proof (ulp_exponent_pos x Hx) as Hkx.
  pose proof (ulp_exponent_pos y Hy) as Hky.
  pose proof (ilog2_mono x y Hx Hxy) as Hmono.
  destruct (ilog2_spec x Hx) as [_ Hx2]. destruct (ilog2_spec y Hy) as [Hy1 _].
  destruct (Z.eq_dec (ulp_exponent x) (ulp_exponent y)) as [E | NE].
  - rewrite (round_double_eq x Hxnz), (round_double_eq y Hynz), E.
    pose proof (pow2_pos (ulp_exponent y)) as Hp.
    set (u := (2 ^ ulp_exponent y)%Q) in *.
    apply Qmult_le_compat_r; [|lra].
    rewrite <- Zle_Qle. apply round_half_even_mono.
    apply Qmult_le_compat_r; [exact Hxy|]. apply Qlt_le_weak, Qinv_lt_0_compat. exact Hp.
  - (* the two lie in different binades: a power of two separates them *)
    set (kx := ulp_exponent x) in *. set (ky := ulp_exponent y) in *.
    assert (Hlt : kx < ky) by lia.
    assert (Hey : ky = ilog2 y + 1 - DBL_MANT_DIG) by lia.
    assert (Hex : ilog2 x < ilog2 y) by lia.
    set (B := (2 ^ ilog2 y)%Q) in *.
    assert (HxB : (x <= B)%Q).
    { apply Qle_trans with (2 ^ (ilog2 x + 1))%Q; [lra|]. apply pow2_le. lia. }
    assert (HBx : (B == inject_Z (2 ^ (ilog2 y - kx)) * 2 ^ kx)%Q).
    { rewrite pow2_inject by (unfold DBL_MANT_DIG in *; lia). rewrite <- pow2_add. unfold B.
      replace (ilog2 y - kx + kx) with (ilog2 y) by ring. reflexivity. }
    assert (HBy : (B == inject_Z (2 ^ (ilog2 y - ky)) * 2 ^ ky)%Q).
    { rewrite pow2_inject by (unfold DBL_MANT_DIG in *; lia). rewrite <- pow2_add. unfold B.
      replace (ilog2 y - ky + ky) with (ilog2 y) by ring. reflexivity. }
    apply Qle_trans with B.
    + rewrite HBx. apply round_double_le_grid; [exact Hxnz|]. fold kx. rewrite <- HBx. exact HxB.
    + rewrite HBy. apply round_double_ge_grid; [exact Hynz|]. fold ky. rewrite <- HBy. exact Hy1.
Qed.

(** Rounding is monotone. *)
Lemma round_double_mono (x y : Q) :
  (x <= y)%Q -> (round_double x <= round_double y)%Q.
Proof.
  intros Hxy.
  destruct (Qlt_le_dec 0 x) as [Hx | Hx].
  - apply round_double_mono_pos; assumption.
  - destruct (Qlt_le_dec y 0) as [Hy | Hy].
    + pose proof (round_double_mono_pos (- y) (- x)) as H.
      rewrite !round_double_opp in H. lra.
    + pose proof (round_double_nonpos x Hx). pose proof (round_double_nonneg y Hy). lra.
Qed.

Lemma round_double_le_Z (q : Q) (n : Z) :
  (q <= inject_Z n)%Q -> Z.abs n < 2 ^ DBL_MANT_DIG -> (round_double q <= inject_Z n)%Q.
Proof.
  intros H Hn. rewrite <- (round_double_Z (inject_Z n) n) by (reflexivity || exact Hn).
  apply round_double_mono. exact H.
Qed.

Lemma round_double_ge_Z (q : Q) (n : Z) :
  (inject_Z n <= q)%Q -> Z.abs n < 2 ^ DBL_MANT_DIG -> (inject_Z n <= round_double q)%Q.
Proof.
  intros H Hn. rewrite <- (round_double_Z (inject_Z n) n) by (reflexivity || exact Hn).
  apply round_double_mono. exact H.
Qed.

(** A value above an integer [n] of at most 53 bits by no more than
    [n * 2^-54] is rounded down to [n]. *)
Lemma round_double_just_above (q : Q) (n : Z) :
  0 <= n < 2 ^ DBL_MANT_DIG ->
  (inject_Z n <= q)%Q -> (q <= inject_Z n * (1 + 2 ^ (- 54)))%Q ->
  (round_double q == inject_Z n)%Q.
Proof.
  intros Hn H1 H2.
  assert (Heps : (2 ^ (- 54) == 1 # 18014398509481984)%Q) by reflexivity.
  rewrite Heps in H2. clear Heps.
  destruct (Z.eq_dec n 0) as [-> | Hn0].
  - change (inject_Z 0) with 0%Q in *. rewrite round_double_zero; [reflexivity | lra].
  - assert (Hpos : 0 < n) by lia.
    destruct (Z.log2_spec n Hpos) as [Hl1 Hl2].
    set (e := Z.log2 n) in *.
    assert (He0 : 0 <= e) by apply Z.log2_nonneg.
    assert (He : e < DBL_MANT_DIG).
    { apply (Z.pow_lt_mono_r_iff 2); unfold DBL_MANT_DIG in *; lia. }
    assert (Hn1 : (1 <= inject_Z n)%Q)
      by (change 1%Q with (inject_Z 1); rewrite <- Zle_Qle; lia).
    assert (Hq : (0 < q)%Q) by lra.
    assert (Hl1q : (2 ^ e <= inject_Z n)%Q)
      by (rewrite <- pow2_inject by exact He0; rewrite <- Zle_Qle; exact Hl1).
    assert (Hl2q : (inject_Z n + 1 <= 2 ^ (e + 1))%Q).
    { rewrite <- pow2_inject by lia. change 1%Q with (inject_Z 1).
      rewrite <- inject_Z_plus, <- Zle_Qle. lia. }
    assert (Hsmall : (2 ^ (e + 1) <= 2 ^ 53)%Q) by (apply pow2_le; unfold DBL_MANT_DIG in *; lia).
    change (2 ^ 53)%Q with 9007199254740992%Q in Hsmall.
    assert (Hlog : ilog2 q = e).
    { apply ilog2_unique; [lra|]. set (P := (2 ^ (e + 1))%Q) in *. nra. }
    assert (Hk : ulp_exponent q = e + 1 - DBL_MANT_DIG).
    { rewrite (ulp_exponent_pos q Hq), Hlog. unfold DBL_MIN_EXP, DBL_MANT_DIG in *. lia. }
    assert (Hgrid : (inject_Z n == inject_Z (n * 2 ^ (DBL_MANT_DIG - 1 - e)) * 2 ^ ulp_exponent q)%Q).
    { rewrite Hk, inject_Z_mult, pow2_inject by lia.
      rewrite <- Qmult_assoc, <- pow2_add.
      replace (DBL_MANT_DIG - 1 - e + (e + 1 - DBL_MANT_DIG)) with 0 by ring.
      change (2 ^ 0)%Q with 1%Q. ring. }
    rewrite Hgrid. apply round_double_near; [lra| |]; rewrite <- Hgrid.
    + pose proof (pow2_pos (ulp_exponent q - 1)).
      set (h := (2 ^ (ulp_exponent q - 1))%Q) in *. lra.
    + (* half a unit in the last place is [2^(e+1) * 2^-54] *)
      assert (Hh : (2 ^ (ulp_exponent q - 1) == 2 ^ (e + 1) * (1 # 18014398509481984))%Q).
      { rewrite Hk. replace (e + 1 - DBL_MANT_DIG - 1) with ((e + 1) + (- 54))
          by (unfold DBL_MANT_DIG; ring).
        rewrite pow2_add. reflexivity. }
      rewrite Hh. set (P := (2 ^ (e + 1))%Q) in *. nra.
Qed.

(** ** The arithmetic of [calculate_delay] *)

Lemma int_is_double (n : Z) : 0 <= n <= INT_MAX -> Z.abs n < 2 ^ DBL_MANT_DIG.
Proof. unfold INT_MAX, DBL_MANT_DIG. intros H. change (2 ^ 53) with 9007199254740992. lia. Qed.

(** A result of moderate size does not overflow. *)
Lemma double_of_real_finite (q : Q) (n : Z) :
  (- inject_Z n <= q)%Q -> (q <= inject_Z n)%Q -> 0 <= n < 2 ^ DBL_MANT_DIG ->
  double_of_real q = Finite (round_double q).
Proof.
  intros H1 H2 Hn. unfold double_of_real.
  assert (Ha : Z.abs n < 2 ^ DBL_MANT_DIG) by lia.
  assert (Hb : Z.abs (- n) < 2 ^ DBL_MANT_DIG) by lia.
  pose proof (round_double_le_Z q n H2 Ha) as Hle.
  rewrite <- inject_Z_opp in H1.
  pose proof (round_double_ge_Z q (- n) H1 Hb) as Hge.
  rewrite inject_Z_opp in Hge.
  destruct (Qle_bool (2 ^ DBL_MAX_EXP) (Qabs (round_double q))) eqn:E; [|reflexivity].
  exfalso. apply Qle_bool_iff in E.
  assert (Habs : (Qabs (round_double q) <= inject_Z n)%Q)
    by (apply Qabs_Qle_condition; split; assumption).
  assert (Hn' : (inject_Z n < 2 ^ DBL_MANT_DIG)%Q).
  { rewrite <- pow2_inject by (unfold DBL_MANT_DIG; lia). rewrite <- Zlt_Qlt. lia. }
  assert (Hp : (2 ^ DBL_MANT_DIG < 2 ^ DBL_MAX_EXP)%Q)
    by (apply pow2_lt; unfold DBL_MANT_DIG, DBL_MAX_EXP; lia).
  set (A := (2 ^ DBL_MANT_DIG)%Q) in *. set (B := (2 ^ DBL_MAX_EXP)%Q) in *. lra.
Qed.

Lemma uncapped_integer (attempt base : Z) :
  1 <= attempt -> (uncapped attempt base == inject_Z (base * 2 ^ (attempt - 1)))%Q.
Proof.
  intros Ha. unfold uncapped. rewrite inject_Z_mult, Zpower_Qpower by lia. reflexivity.
Qed.

Lemma uncapped_nonneg (attempt base : Z) : 0 <= base -> (0 <= uncapped attempt base)%Q.
Proof.
  intros H. unfold uncapped. apply Qmult_le_0_compat.
  - change 0%Q with (inject_Z 0). now rewrite <- Zle_Qle.
  - apply Qpower_0_le. discriminate.
Qed.

(** The delay after the cap is the integer [capped_delay_ms]. *)
Lemma capped_delay (attempt base max : Z) :
  1 <= attempt <= INT_MAX ->
  0 <= base <= max ->
  max <= INT_MAX ->
  exists d : Q,
    Min (dmul (double_of_int base) (pow2 (attempt - 1))) (double_of_int max) = Finite d
    /\ (d == inject_Z (capped_delay_ms attempt base max))%Q.
Proof.
  intros Ha Hb Hm. unfold capped_delay_ms, pow2.
  replace (1025 <=? attempt) with (DBL_MAX_EXP <=? attempt - 1)
    by (unfold DBL_MAX_EXP; destruct (1024 <=? attempt - 1) eqn:E1;
        destruct (1025 <=? attempt) eqn:E2; try reflexivity;
        [apply Z.leb_le in E1; apply Z.leb_gt in E2 | apply Z.leb_gt in E1; apply Z.leb_le in E2];
        lia).
  destruct (DBL_MAX_EXP <=? attempt - 1) eqn:He.
  - (* pow has overflowed: the product is infinite, or NaN for a base of 0 *)
    exists (inject_Z max). split; [|reflexivity].
    unfold double_of_int. cbn [dmul].
    destruct (Qeq_bool (inject_Z base) 0); [reflexivity|].
    unfold is_negative. cbn [inject_Z Qnum].
    now rewrite (proj2 (Z.ltb_ge base 0)) by lia.
  - apply Z.leb_gt in He.
    rewrite (proj2 (Z.ltb_ge (attempt - 1) (DBL_MIN_EXP - DBL_MANT_DIG)))
      by (unfold DBL_MIN_EXP, DBL_MANT_DIG; lia).
    unfold double_of_int. cbn [dmul].
    fold (uncapped attempt base).
    pose proof (uncapped_integer attempt base ltac:(lia)) as Hint.
    pose proof (uncapped_nonneg attempt base ltac:(lia)) as Hnn.
    assert (Hex : (round_double (uncapped attempt base) == uncapped attempt base)%Q).
    { apply (round_double_exact _ base (attempt - 1)).
      - reflexivity.
      - apply int_is_double. lia.
      - unfold DBL_MIN_EXP, DBL_MANT_DIG. lia. }
    assert (Hpow : 0 <= 2 ^ (attempt - 1)) by (apply Z.pow_nonneg; lia).
    unfold double_of_real, Min.
    destruct (Qle_bool (2 ^ DBL_MAX_EXP) (Qabs (round_double (uncapped attempt base)))) eqn:Eo.
    + (* the product has overflowed: it is plus infinity *)
      apply Qle_bool_iff in Eo. rewrite Hex, (Qabs_pos _ Hnn) in Eo.
      assert (Hneg : is_negative (round_double (uncapped attempt base)) = false).
      { unfold is_negative. apply Z.ltb_ge.
        assert (H0 : (0 <= round_double (uncapped attempt base))%Q) by (rewrite Hex; exact Hnn).
        unfold Qle in H0. cbn in H0. lia. }
      rewrite Hneg. cbn [dlt negb]. exists (inject_Z max). split; [reflexivity|].
      assert (Hbig : (inject_Z max < uncapped attempt base)%Q).
      { apply Qlt_le_trans with (2 ^ DBL_MAX_EXP)%Q; [|exact Eo].
        apply Qle_lt_trans with (inject_Z INT_MAX); [rewrite <- Zle_Qle; exact Hm|].
        reflexivity. }
      rewrite Hint, <- Zlt_Qlt in Hbig. rewrite Z.min_r by lia. reflexivity.
    + cbn [dlt].
      destruct (Qle_bool (inject_Z max) (round_double (uncapped attempt base))) eqn:Hle;
        cbn [negb].
      * exists (inject_Z max). split; [reflexivity|].
        apply Qle_bool_iff in Hle. rewrite Hex, Hint, <- Zle_Qle in Hle.
        rewrite Z.min_r by lia. reflexivity.
      * exists (round_double (uncapped attempt base)). split; [reflexivity|].
        assert (Hlt : (round_double (uncapped attempt base) < inject_Z max)%Q).
        { apply Qnot_le_lt. intros H. apply Qle_bool_iff in H. congruence. }
        rewrite Hex, Hint, <- Zlt_Qlt in Hlt.
        rewrite Z.min_l by lia. rewrite Hex. exact Hint.
Qed.

Lemma capped_delay_ms_range (attempt base max : Z) :
  1 <= attempt -> 0 <= base <= max -> 0 <= capped_delay_ms attempt base max <= max.
Proof.
  intros Ha Hb. unfold capped_delay_ms.
  assert (0 <= 2 ^ (attempt - 1)) by (apply Z.pow_nonneg; lia).
  destruct (1025 <=? attempt); [lia|]. split; [|apply Z.le_min_r].
  apply Z.min_glb; nia.
Qed.

Lemma jittered_delay_comp (u u' d d' : Q) :
  (u == u')%Q -> (d == d')%Q -> jittered_delay u d = jittered_delay u' d'.
Proof.
  intros Hu Hd. unfold jittered_delay.
  rewrite (round_double_comp (u * d) (u' * d')) by (rewrite Hu, Hd; reflexivity).
  rewrite (round_double_comp (d * round_double (2 # 10)) (d' * round_double (2 # 10)))
    by (rewrite Hd; reflexivity).
  apply round_double_comp. rewrite Hd. reflexivity.
Qed.

(** Landmarks of binary64: the double next to 0.1; the ties at [2^53 + 1]
    and [2^53 + 3], which go to the even neighbour; the largest double,
    and the overflow from half a unit above it; the least subnormal, and
    the ties at half of it and at three halves of it. *)
Lemma round_double_landmarks :
  (round_double (1 # 10) == 3602879701896397 # 36028797018963968)%Q
  /\ (round_double 9007199254740993 == 9007199254740992)%Q
  /\ (round_double 9007199254740995 == 9007199254740996)%Q
  /\ double_of_real (2 ^ 1024 - 2 ^ 971) = Finite (round_double (2 ^ 1024 - 2 ^ 971))
  /\ (round_double (2 ^ 1024 - 2 ^ 971) == 2 ^ 1024 - 2 ^ 971)%Q
  /\ double_of_real (2 ^ 1024 - 2 ^ 970) = Infinity false
  /\ double_of_real (- (2 ^ 1024 - 2 ^ 970)) = Infinity true
  /\ (round_double (2 ^ (- 1074)) == 2 ^ (- 1074))%Q
  /\ (round_double (2 ^ (- 1075)) == 0)%Q
  /\ (round_double (3 * 2 ^ (- 1075)) == 2 ^ (- 1073))%Q.
Proof. repeat split; vm_compute; reflexivity. Qed.

(** The two constants of the body, as binary64 has them: both lie above
    the decimal by the factor [1 + 2^-54], and [0.4] is twice [0.2]. *)
Lemma double_0_2 : (round_double (2 # 10) == 3602879701896397 # 18014398509481984)%Q.
Proof. vm_compute. reflexivity. Qed.

Lemma double_0_4 : (round_double (4 # 10) == 3602879701896397 # 9007199254740992)%Q.
Proof. vm_compute. reflexivity. Qed.

(** Below [2^33] the rounding error is at most [2^-21]. *)
Lemma round_double_error_33 (q : Q) :
  (- (8589934592) < q)%Q -> (q < 8589934592)%Q ->
  (q - (1 # 2097152) <= round_double q)%Q /\ (round_double q <= q + (1 # 2097152))%Q.
Proof.
  intros H1 H2.
  apply (round_double_error q 33).
  - unfold DBL_MIN_EXP. lia.
  - apply Qabs_Qlt_condition. change (2 ^ 33)%Q with 8589934592%Q. split; assumption.
Qed.

Lemma inject_Z_int (n : Z) :
  0 <= n <= INT_MAX -> (0 <= inject_Z n)%Q /\ (inject_Z n <= 2147483647)%Q.
Proof.
  intros H. split.
  - change 0%Q with (inject_Z 0). rewrite <- Zle_Qle. lia.
  - change 2147483647%Q with (inject_Z INT_MAX). rewrite <- Zle_Qle. lia.
Qed.

(** The jittered delay is within [2^-18] of [d * (0.8 + 0.4 * u)]. *)
Lemma jittered_delay_error (u : Q) (n : Z) :
  (0 <= u)%Q -> (u <= 1)%Q -> 0 <= n <= INT_MAX ->
  let d := inject_Z n in
  (d * ((8 # 10) + (4 # 10) * u) - (1 # 262144) <= jittered_delay u d)%Q
  /\ (jittered_delay u d <= d * ((8 # 10) + (4 # 10) * u) + (1 # 262144))%Q.
Proof.
  intros Hu0 Hu1 Hn d. unfold jittered_delay.
  destruct (inject_Z_int n Hn) as [Hd0 Hd1]. fold d in Hd0, Hd1.
  pose proof double_0_2 as Hc2. pose proof double_0_4 as Hc4.
  set (c2 := round_double (2 # 10)) in *. set (c4 := round_double (4 # 10)) in *.
  assert (Hp0 : (0 <= u * d)%Q) by (apply Qmult_le_0_compat; assumption).
  assert (Hp1 : (u * d <= d)%Q) by nra.
  set (p := (u * d)%Q) in *.
  setoid_replace (d * ((8 # 10) + (4 # 10) * u))%Q with ((8 # 10) * d + (4 # 10) * p)%Q
    by (unfold p; ring).
  destruct (round_double_error_33 p) as [Ha1 Ha2]; [lra | lra |].
  set (a := round_double p) in *.
  destruct (round_double_error_33 (a * c4)) as [Hb1 Hb2];
    [rewrite Hc4; lra | rewrite Hc4; lra |].
  set (b := round_double (a * c4)) in *.
  rewrite Hc4 in Hb1, Hb2.
  destruct (round_double_error_33 (d * c2)) as [Hy1 Hy2];
    [rewrite Hc2; lra | rewrite Hc2; lra |].
  set (y := round_double (d * c2)) in *.
  rewrite Hc2 in Hy1, Hy2.
  destruct (round_double_error_33 (b + - y)) as [Hj1 Hj2]; [lra | lra |].
  set (j := round_double (b + - y)) in *.
  destruct (round_double_error_33 (d + j)) as [HD1 HD2]; [lra | lra |].
  set (D := round_double (d + j)) in *.
  split; lra.
Qed.

(** The jittered delay is at least the capped delay less the fifth of it,
    rounded up: [floor(0.8 * d)]. *)
Lemma jittered_delay_lower (u : Q) (n : Z) :
  (0 <= u)%Q -> 0 <= n <= INT_MAX ->
  (inject_Z (n - (n + 4) / 5) <= jittered_delay u (inject_Z n))%Q.
Proof.
  intros Hu0 Hn. unfold jittered_delay.
  destruct (inject_Z_int n Hn) as [Hd0 Hd1].
  set (d := inject_Z n) in *. set (K := (n + 4) / 5).
  assert (HK : 0 <= K <= INT_MAX /\ n <= 5 * K) by (subst K; unfold INT_MAX in *; Z.to_euclidean_division_equations; lia).
  destruct HK as [HK Hn5].
  assert (HKq : (d <= 5 * inject_Z K)%Q).
  { unfold d. change 5%Q with (inject_Z 5). rewrite <- inject_Z_mult, <- Zle_Qle. exact Hn5. }
  destruct (inject_Z_int K HK) as [HK0 HK1].
  pose proof double_0_2 as Hc2. pose proof double_0_4 as Hc4.
  set (c2 := round_double (2 # 10)) in *. set (c4 := round_double (4 # 10)) in *.
  assert (Hy : (round_double (d * c2) <= inject_Z K)%Q).
  { rewrite <- (round_double_just_above (inject_Z K * (1 + 2 ^ (- 54))) K).
    - apply round_double_mono. rewrite Hc2.
      change (2 ^ (- 54))%Q with (1 # 18014398509481984)%Q. lra.
    - unfold INT_MAX, DBL_MANT_DIG in *. change (2 ^ 53) with 9007199254740992. lia.
    - change (2 ^ (- 54))%Q with (1 # 18014398509481984)%Q. lra.
    - apply Qle_refl. }
  set (y := round_double (d * c2)) in *.
  assert (Ha : (0 <= round_double (u * d))%Q)
    by (apply round_double_nonneg, Qmult_le_0_compat; assumption).
  set (a := round_double (u * d)) in *.
  assert (Hb : (0 <= round_double (a * c4))%Q).
  { apply round_double_nonneg, Qmult_le_0_compat; [exact Ha|]. rewrite Hc4. discriminate. }
  set (b := round_double (a * c4)) in *.
  assert (Hj : (inject_Z (- K) <= round_double (b + - y))%Q).
  { apply round_double_ge_Z; [rewrite inject_Z_opp; lra|].
    unfold INT_MAX, DBL_MANT_DIG in *. change (2 ^ 53) with 9007199254740992. lia. }
  set (j := round_double (b + - y)) in *.
  apply round_double_ge_Z.
  - unfold Z.sub. rewrite inject_Z_plus. fold d. lra.
  - unfold INT_MAX, DBL_MANT_DIG in *. change (2 ^ 53) with 9007199254740992. lia.
Qed.

(** A larger draw does not shorten the jittered delay. *)
Lemma jittered_delay_mono (u u' d : Q) :
  (u <= u')%Q -> (0 <= d)%Q -> (jittered_delay u d <= jittered_delay u' d)%Q.
Proof.
  intros Hu Hd. unfold jittered_delay.
  pose proof double_0_4 as Hc4.
  set (c4 := round_double (4 # 10)) in *.
  assert (Ha : (round_double (u * d) <= round_double (u' * d))%Q)
    by (apply round_double_mono, Qmult_le_compat_r; assumption).
  set (a := round_double (u * d)) in *. set (a' := round_double (u' * d)) in *.
  assert (Hb : (round_double (a * c4) <= round_double (a' * c4))%Q).
  { apply round_double_mono, Qmult_le_compat_r; [exact Ha|]. rewrite Hc4. discriminate. }
  set (b := round_double (a * c4)) in *. set (b' := round_double (a' * c4)) in *.
  set (y := round_double (d * round_double (2 # 10))).
  assert (Hj : (round_double (b + - y) <= round_double (b' + - y))%Q)
    by (apply round_double_mono; lra).
  apply round_double_mono. lra.
Qed.

(** At the draw 1/2 the two products of the jitter are the same double, and
    the jitter is zero. *)
Lemma jittered_delay_half (n : Z) :
  0 <= n <= INT_MAX ->
  (jittered_delay (round_double (1 # 2)) (inject_Z n) == inject_Z n)%Q.
Proof.
  intros Hn. unfold jittered_delay.
  set (d := inject_Z n).
  assert (Hhalf : (round_double (1 # 2) == 1 # 2)%Q) by (vm_compute; reflexivity).
  assert (Ha : (round_double (round_double (1 # 2) * d) == (1 # 2) * d)%Q).
  { rewrite (round_double_comp _ ((1 # 2) * d)) by (rewrite Hhalf; reflexivity).
    apply (round_double_exact _ n (- 1)).
    - unfold d. change (2 ^ (- 1))%Q with (1 # 2)%Q. ring.
    - apply int_is_double. exact Hn.
    - unfold DBL_MIN_EXP, DBL_MANT_DIG. lia. }
  assert (Hb : round_double (round_double (round_double (1 # 2) * d) * round_double (4 # 10))
               = round_double (d * round_double (2 # 10))).
  { apply round_double_comp. rewrite Ha, double_0_4, double_0_2. ring. }
  rewrite Hb.
  rewrite (round_double_comp
             (round_double (d * round_double (2 # 10)) + - round_double (d * round_double (2 # 10)))
             0) by ring.
  rewrite (round_double_zero 0) by reflexivity.
  rewrite (round_double_comp (d + 0) d) by ring.
  apply round_double_Z; [reflexivity | apply int_is_double; exact Hn].
Qed.

(** Rounding keeps a value between two integers of at most 53 bits. *)
Lemma round_double_between (q : Q) (lo hi : Z) :
  (inject_Z lo <= q)%Q -> (q <= inject_Z hi)%Q ->
  Z.abs lo < 2 ^ DBL_MANT_DIG -> Z.abs hi < 2 ^ DBL_MANT_DIG ->
  (inject_Z lo <= round_double q)%Q /\ (round_double q <= inject_Z hi)%Q.
Proof.
  intros H1 H2 Hlo Hhi. split.
  - apply round_double_ge_Z; assumption.
  - apply round_double_le_Z; assumption.
Qed.

Ltac small_int :=
  unfold INT_MAX, DBL_MANT_DIG in *; change (2 ^ 53) with 9007199254740992; lia.

(** Within the arguments that [pg_retry_retry] lets through, nothing
    overflows after the cap: the delay is the truncated [jittered_delay] of
    the rounded draw and the capped delay, raised to 1 ms. *)
Lemma calculate_delay_finite (w : LongWidth) (u : Q) (attempt base max : Z) :
  (0 <= u)%Q -> (u <= 1)%Q ->
  1 <= attempt <= INT_MAX ->
  0 <= base <= max ->
  max <= INT_MAX ->
  calculate_delay w u attempt base max
  = Z.max 1 (long_of_double w
               (Finite (jittered_delay (round_double u)
                          (inject_Z (capped_delay_ms attempt base max))))).
Proof.
  intros Hu0 Hu1 Ha Hb Hm.
  destruct (capped_delay attempt base max Ha Hb Hm) as [d [Hcap Hd]].
  pose proof (capped_delay_ms_range attempt base max ltac:(lia) Hb) as Hn.
  set (n := capped_delay_ms attempt base max) in *.
  assert (Hn' : 0 <= n <= INT_MAX) by lia.
  destruct (inject_Z_int n Hn') as [Hd0 Hd1]. rewrite <- Hd in Hd0, Hd1.
  rewrite <- (jittered_delay_comp (round_double u) (round_double u) d (inject_Z n))
    by (reflexivity || exact Hd).
  unfold calculate_delay, jittered_delay.
  rewrite wrap32_in_range by (unfold INT_MIN, INT_MAX in *; lia).
  rewrite Hcap.
  destruct (round_double_between u 0 1) as [Hr0 Hr1]; try assumption; try small_int.
  change (inject_Z 0) with 0%Q in Hr0. change (inject_Z 1) with 1%Q in Hr1.
  rewrite (double_of_real_finite u 1) by (try small_int; change (inject_Z 1) with 1%Q; lra).
  rewrite (double_of_real_finite (4 # 10) 1)
    by (try small_int; change (inject_Z 1) with 1%Q; lra).
  rewrite (double_of_real_finite (2 # 10) 1)
    by (try small_int; change (inject_Z 1) with 1%Q; lra).
  pose proof double_0_2 as Hc2. pose proof double_0_4 as Hc4.
  set (c2 := round_double (2 # 10)) in *. set (c4 := round_double (4 # 10)) in *.
  set (u' := round_double u) in *.
  assert (Hp0 : (0 <= u' * d)%Q) by (apply Qmult_le_0_compat; assumption).
  assert (Hp1 : (u' * d <= d)%Q) by nra.
  cbn [dmul].
  set (M := 2147483647%Q) in *.
  assert (HM : inject_Z INT_MAX = M) by reflexivity.
  assert (HM2 : inject_Z (2 * INT_MAX) = (2 * M)%Q) by reflexivity.
  assert (HM3 : inject_Z (3 * INT_MAX) = (3 * M)%Q) by reflexivity.
  assert (HmM : inject_Z (- INT_MAX) = (- M)%Q) by reflexivity.
  assert (HmM2 : inject_Z (- (2 * INT_MAX)) = (- (2 * M))%Q) by reflexivity.
  rewrite (double_of_real_finite (u' * d) INT_MAX) by (try small_int; rewrite HM; lra).
  destruct (round_double_between (u' * d) 0 INT_MAX) as [Ha0 Ha1];
    try small_int; try (rewrite ?HM; change (inject_Z 0) with 0%Q; lra).
  change (inject_Z 0) with 0%Q in Ha0. rewrite HM in Ha1.
  set (a := round_double (u' * d)) in *.
  cbn [dmul].
  assert (Hac0 : (0 <= a * c4)%Q) by (rewrite Hc4; lra).
  assert (Hac1 : (a * c4 <= M)%Q) by (rewrite Hc4; lra).
  rewrite (double_of_real_finite (a * c4) INT_MAX) by (try small_int; rewrite HM; lra).
  destruct (round_double_between (a * c4) 0 INT_MAX) as [Hb0 Hb1];
    try small_int; try (rewrite ?HM; change (inject_Z 0) with 0%Q; lra).
  change (inject_Z 0) with 0%Q in Hb0. rewrite HM in Hb1.
  set (b := round_double (a * c4)) in *.
  assert (Hdc0 : (0 <= d * c2)%Q) by (rewrite Hc2; lra).
  assert (Hdc1 : (d * c2 <= M)%Q) by (rewrite Hc2; lra).
  rewrite (double_of_real_finite (d * c2) INT_MAX) by (try small_int; rewrite HM; lra).
  destruct (round_double_between (d * c2) 0 INT_MAX) as [Hy0 Hy1];
    try small_int; try (rewrite ?HM; change (inject_Z 0) with 0%Q; lra).
  change (inject_Z 0) with 0%Q in Hy0. rewrite HM in Hy1.
  set (y := round_double (d * c2)) in *.
  unfold dsub. cbn [dopp dadd].
  rewrite (double_of_real_finite (b + - y) INT_MAX) by (try small_int; rewrite HM; lra).
  destruct (round_double_between (b + - y) (- INT_MAX) INT_MAX) as [Hj0 Hj1];
    try small_int; try (rewrite ?HM, ?HmM; lra).
  rewrite HmM in Hj0. rewrite HM in Hj1.
  set (j := round_double (b + - y)) in *.
  cbn [dadd].
  rewrite (double_of_real_finite (d + j) (2 * INT_MAX)) by (try small_int; rewrite HM2; lra).
  reflexivity.
Qed.

(** The cast of a value that is not negative: its floor, if that fits a
    [long]. *)
Lemma long_of_double_floor (w : LongWidth) (q : Q) :
  (0 <= q)%Q ->
  long_of_double w (Finite q)
  = if Qfloor q <=? LONG_MAX w then Qfloor q else LONG_MIN w.
Proof.
  intros H. destruct q as [n d]. unfold Qle in H. cbn [Qnum Qden] in H.
  cbn [long_of_double Qnum Qden Qfloor].
  rewrite Z.quot_div_nonneg by lia.
  assert (H0 : 0 <= n / Z.pos d) by (apply Z.div_pos; lia).
  rewrite (proj2 (Z.leb_le (LONG_MIN w) (n / Z.pos d))); [reflexivity|].
  destruct w; cbn; lia.
Qed.

Lemma LONG_MIN_negative (w : LongWidth) : LONG_MIN w < 0.
Proof. destruct w; reflexivity. Qed.

Lemma INT_MAX_fits_long (w : LongWidth) : INT_MAX <= LONG_MAX w.
Proof. destruct w; cbn; unfold INT_MAX; lia. Qed.

Lemma Qfloor_scaled (c n : Z) : Qfloor ((c # 10) * inject_Z n) = c * n / 10.
Proof. reflexivity. Qed.

(** The truncated jittered delay lies between [floor(0.8 * n)] and
    [floor(1.2 * n)] for a capped delay of [n] ms. *)
Lemma jittered_delay_floor (u : Q) (n : Z) :
  (0 <= u)%Q -> (u <= 1)%Q -> 0 <= n <= INT_MAX ->
  (0 <= jittered_delay u (inject_Z n))%Q
  /\ 8 * n / 10 <= Qfloor (jittered_delay u (inject_Z n)) <= 12 * n / 10.
Proof.
  intros Hu0 Hu1 Hn.
  pose proof (jittered_delay_lower u n Hu0 Hn) as Hlo.
  destruct (jittered_delay_error u n Hu0 Hu1 Hn) as [_ Hhi]. cbv zeta in Hhi.
  destruct (inject_Z_int n Hn) as [Hd0 Hd1].
  set (J := jittered_delay u (inject_Z n)) in *.
  assert (Hk : 0 <= n - (n + 4) / 5 /\ n - (n + 4) / 5 = 8 * n / 10)
    by (unfold INT_MAX in *; Z.to_euclidean_division_equations; lia).
  destruct Hk as [Hk0 Hk].
  split.
  - apply Qle_trans with (inject_Z (n - (n + 4) / 5)); [|exact Hlo].
    change 0%Q with (inject_Z 0). rewrite <- Zle_Qle. exact Hk0.
  - split.
    + rewrite <- Hk. rewrite <- (Qfloor_Z (n - (n + 4) / 5)).
      apply Qfloor_resp_le. exact Hlo.
    + pose proof (Qfloor_le J) as Hf.
      set (z := Qfloor J) in *.
      assert (Hz : (inject_Z (5 * z) < inject_Z (6 * n + 1))%Q).
      { rewrite inject_Z_plus, !inject_Z_mult.
        change (inject_Z 5) with 5%Q. change (inject_Z 6) with 6%Q.
        change (inject_Z 1) with 1%Q.
        assert (Hud : (inject_Z n * u <= inject_Z n)%Q) by nra.
        set (d := inject_Z n) in *. set (p := (d * u)%Q) in *.
        assert (Hexp : (d * ((8 # 10) + (4 # 10) * u) == (8 # 10) * d + (4 # 10) * p)%Q)
          by (unfold p; ring).
        rewrite Hexp in Hhi. lra. }
      rewrite <- Zlt_Qlt in Hz.
      Z.to_euclidean_division_equations. lia.
Qed.

Lemma capped_delay_ms_uncapped (attempt base max : Z) :
  1 <= attempt -> 0 <= base <= max -> max <= INT_MAX ->
  0 < base \/ attempt <= 1024 ->
  (uncapped attempt base < inject_Z max)%Q ->
  (uncapped attempt base == inject_Z (capped_delay_ms attempt base max))%Q.
Proof.
  intros Ha Hb Hm Hfin Hlt.
  pose proof (uncapped_integer attempt base Ha) as Hint.
  rewrite Hint in Hlt |- *. rewrite <- Zlt_Qlt in Hlt.
  unfold capped_delay_ms.
  destruct (1025 <=? attempt) eqn:E.
  - apply Z.leb_le in E. exfalso.
    destruct Hfin as [Hpos | Hsmall]; [|lia].
    assert (2 ^ 31 <= 2 ^ (attempt - 1)) by (apply Z.pow_le_mono_r; lia).
    change (2 ^ 31) with 2147483648 in *. unfold INT_MAX in *. nia.
  - rewrite Z.min_l by lia. reflexivity.
Qed.

(** C6 fails as stated: the cast to [long] truncates, so that base 3 at
    attempt 1 with the lowest draw gives 2 ms, below 0.8 * 3; and with both
    delays 0 the result 1 ms lies above maxDelayMs * 1.2 = 0.  Either holds
    for both widths of a [long]. *)
Lemma delay_below_band_and_above_range :
  calculate_delay Long64 0 1 3 1000 = 2
  /\ calculate_delay Long32 0 1 3 1000 = 2
  /\ ~ spec_delay_in_band (calculate_delay Long64 0 1 3 1000) 1 3
  /\ calculate_delay Long64 (1 # 2) 1 0 0 = 1
  /\ calculate_delay Long32 (1 # 2) 1 0 0 = 1
  /\ ~ spec_delay_in_range (calculate_delay Long64 (1 # 2) 1 0 0) 0.
Proof.
  split; [vm_compute; reflexivity|]. split; [vm_compute; reflexivity|].
  split; [|split; [vm_compute; reflexivity|split; [vm_compute; reflexivity|]]].
  - intros [H _]. vm_compute in H. apply H. reflexivity.
  - intros [_ H]. vm_compute in H. apply H. reflexivity.
Qed.

(** With a base of 0 the delay is 1 ms up to attempt 1024; from attempt 1025
    on [pow] overflows, 0 times infinity is NaN, [Min] returns the cap, and
    the delay is that of the cap. *)
Lemma zero_base_delay_after_pow_overflows :
  calculate_delay Long64 (1 # 2) 1024 0 1000 = 1
  /\ calculate_delay Long64 (1 # 2) 1025 0 1000 = 1000.
Proof. split; vm_compute; reflexivity. Qed.

(** The rounding of the doubles shows in the result: a draw just below 0.05
    with a delay of 50 ms gives 40 + 20 * draw < 41 in the reals, and 41 ms
    in doubles, where the sum is rounded up to 41 before the cast. *)
Lemma delay_rounded_up_before_the_cast :
  (50 * ((8 # 10) + (4 # 10) * (56294995342131 # 1125899906842624)) < 41)%Q
  /\ calculate_delay Long64 (56294995342131 # 1125899906842624) 1 50 1000 = 41.
Proof. split; vm_compute; reflexivity. Qed.

(** Where a [long] has 32 bits a delay beyond [LONG_MAX] does not survive
    the cast: what comes back is the floor of 1 ms. *)
Lemma delay_beyond_32_bit_long :
  calculate_delay Long64 1 1 2000000000 2000000000 = 2400000000
  /\ calculate_delay Long32 1 1 2000000000 2000000000 = 1.
Proof. split; vm_compute; reflexivity. Qed.

(** C6 (amended).  For an attempt n >= 1, delays 0 <= base <= max and a draw
    in [0, 1], the delay is an integer in [1, max(1, floor(1.2 * max))];
    when x = base * 2^(n-1) is below max (and, for base = 0, n is at most
    1024) and floor(1.2 * x) fits a [long], as it always does when a [long]
    has 64 bits, the delay lies in
    [max(1, floor(0.8 * x)), max(1, floor(1.2 * x))]; and with base = 0 and
    max = 0 it is exactly 1. *)
Theorem calculate_delay_bounds (w : LongWidth) (u : Q) (attempt base max : Z) :
  (0 <= u)%Q -> (u <= 1)%Q ->
  1 <= attempt <= INT_MAX ->
  0 <= base <= max ->
  max <= INT_MAX ->
  let delay := calculate_delay w u attempt base max in
  let x := uncapped attempt base in
  1 <= delay <= Z.max 1 (Qfloor ((12 # 10) * inject_Z max))
  /\ (0 < base \/ attempt <= 1024 ->
      (x < inject_Z max)%Q ->
      w = Long64 \/ Qfloor ((12 # 10) * x) <= LONG_MAX w ->
      Z.max 1 (Qfloor ((8 # 10) * x)) <= delay <= Z.max 1 (Qfloor ((12 # 10) * x)))
  /\ (base = 0 -> max = 0 -> delay = 1).
Proof.
  intros H0 H1 Ha Hb Hm delay x.
  pose proof (calculate_delay_finite w u attempt base max H0 H1 Ha Hb Hm) as Hr.
  fold delay in Hr.
  pose proof (capped_delay_ms_range attempt base max ltac:(lia) Hb) as Hn.
  set (n := capped_delay_ms attempt base max) in *.
  destruct (round_double_between u 0 1) as [Hu0 Hu1]; try assumption; try small_int.
  change (inject_Z 0) with 0%Q in Hu0. change (inject_Z 1) with 1%Q in Hu1.
  destruct (jittered_delay_floor (round_double u) n Hu0 Hu1 ltac:(lia)) as [HJ0 [Hlo Hhi]].
  rewrite (long_of_double_floor w _ HJ0) in Hr.
  pose proof (LONG_MIN_negative w) as Hmin.
  set (z := Qfloor (jittered_delay (round_double u) (inject_Z n))) in *.
  rewrite !Qfloor_scaled.
  assert (Hrange : 1 <= delay <= Z.max 1 (12 * max / 10)).
  { rewrite Hr. destruct (z <=? LONG_MAX w); [|lia].
    assert (12 * n / 10 <= 12 * max / 10) by (apply Z.div_le_mono; lia). lia. }
  split; [exact Hrange|]. split.
  - intros Hfin Hlt Hfits.
    pose proof (capped_delay_ms_uncapped attempt base max ltac:(lia) Hb Hm Hfin Hlt) as Hx.
    fold x in Hx. fold n in Hx.
    rewrite (Qfloor_comp _ _ (Qmult_comp _ _ (Qeq_refl (8 # 10)) _ _ Hx)).
    rewrite (Qfloor_comp _ _ (Qmult_comp _ _ (Qeq_refl (12 # 10)) _ _ Hx)) in *.
    rewrite !Qfloor_scaled in *.
    assert (Hz : z <= LONG_MAX w).
    { destruct Hfits as [-> | Hfits]; [|lia].
      assert (12 * n / 10 <= 12 * INT_MAX / 10) by (apply Z.div_le_mono; lia).
      change (12 * INT_MAX / 10) with 2576980376 in *.
      change (LONG_MAX Long64) with 9223372036854775807. lia. }
    apply Z.leb_le in Hz. rewrite Hz in Hr. lia.
  - intros -> ->. change (12 * 0 / 10) with 0 in Hrange. lia.
Qed.

(** ** Where the waits lie *)

Lemma no_sleep_before_attempt_app (a b : Trace) :
  n_sleeps a = 0%nat -> no_sleep_before_attempt (a ++ EvExecute :: b) = true.
Proof.
  induction a as [|ev a IH]; [reflexivity|].
  destruct ev; try discriminate; cbn; auto.
Qed.

Lemma n_sleeps_rev (t : Trace) : n_sleeps (rev t) = n_sleeps t.
Proof.
  induction t as [|ev t IH]; [reflexivity|].
  cbn [rev]. rewrite n_sleeps_app, IH. unfold n_sleeps. cbn [filter].
  destruct (is_sleep ev); cbn [List.length]; lia.
Qed.

Lemma last_round_quiet_rev (t : Trace) :
  last_round_quiet t -> no_sleep_before_attempt (rev t) = true.
Proof.
  intros [t0 [u [-> Hu]]].
  rewrite rev_app_distr. cbn [rev]. rewrite <- !app_assoc. cbn [app].
  apply no_sleep_before_attempt_app. now rewrite n_sleeps_rev.
Qed.

Lemma last_round_quiet_finish (t : Trace) :
  last_round_quiet t -> last_round_quiet (t ++ [EvSpiFinish]).
Proof.
  intros [t0 [u [-> Hu]]]. exists t0, (u ++ [EvSpiFinish]).
  split; [now rewrite <- app_assoc|]. now rewrite n_sleeps_finish.
Qed.

Lemma last_round_quiet_success (t : Trace) : last_round_quiet (t ++ success_round).
Proof. exists t, [EvReleaseSub]. now split. Qed.

Lemma last_round_quiet_failed (p : Params) (a : Z) (e : ErrorData) (t : Trace) :
  last_round_quiet (t ++ failed_round p a e).
Proof.
  eexists t, _. split; [reflexivity|].
  now destruct (should_retry e (retry_sqlstates p)).
Qed.

(** The three ways a round of [src/src/pg_retry.c] can go. *)
Lemma rethrow_once_cases (h : Host) (p : Params) (a : Z)
    (st : RethrowInCatch.Locals) (t : Trace) :
  a <= max_tries p ->
  (exists rows,
      RethrowInCatch.attempt_once h p a st t
      = RethrowInCatch.Falls
          {| RethrowInCatch.processed_rows := rows; RethrowInCatch.success := true |}
          (t ++ success_round))
  \/ (exists e, RethrowInCatch.attempt_once h p a st t
                = RethrowInCatch.Throws e (t ++ failed_round p a e))
  \/ (exists e, a < max_tries p
                /\ RethrowInCatch.attempt_once h p a st t
                   = RethrowInCatch.Falls st (t ++ retry_round h p a e (n_sleeps t))).
Proof.
  intros Hle.
  destruct (failure_at h (n_attempts t)) as [e|] eqn:He.
  - destruct (should_retry e (retry_sqlstates p)) eqn:Hr.
    + destruct (Z.eq_dec a (max_tries p)) as [Ha|Ha].
      * right; left. exists e. apply rethrow_once_throw; auto.
      * right; right. exists e. split; [lia|]. apply rethrow_once_retry; auto; lia.
    + right; left. exists e. apply rethrow_once_throw; auto.
  - apply failure_at_inr in He as [rows He].
    left. exists rows. now apply rethrow_once_success.
Qed.

(** And the three ways a round of [src/pg_retry.c] can go. *)
Lemma retain_last_once_cases (h : Host) (p : Params) (a : Z)
    (st : RetainLast.Locals) (t : Trace) :
  a <= max_tries p ->
  (exists rows,
      RetainLast.attempt_once h p a st t
      = ({| RetainLast.processed_rows := rows; RetainLast.success := true;
            RetainLast.last_error := RetainLast.last_error st |}, t ++ success_round))
  \/ (exists e,
         (should_retry e (retry_sqlstates p) = false \/ a = max_tries p)
         /\ RetainLast.attempt_once h p a st t
            = ({| RetainLast.processed_rows := RetainLast.processed_rows st;
                  RetainLast.success := RetainLast.success st;
                  RetainLast.last_error := Some e |}, t ++ failed_round p a e))
  \/ (exists e, a < max_tries p
                /\ RetainLast.attempt_once h p a st t
                   = (st, t ++ retry_round h p a e (n_sleeps t))).
Proof.
  intros Hle.
  destruct (failure_at h (n_attempts t)) as [e|] eqn:He.
  - destruct (should_retry e (retry_sqlstates p)) eqn:Hr.
    + destruct (Z.eq_dec a (max_tries p)) as [Ha|Ha].
      * right; left. exists e. split; [now right|]. apply retain_last_once_save; auto.
      * right; right. exists e. split; [lia|]. apply retain_last_once_retry; auto; lia.
    + right; left. exists e. split; [now left|]. apply retain_last_once_save; auto.
  - apply failure_at_inr in He as [rows He].
    left. exists rows. now apply retain_last_once_success.
Qed.

(** Every run of the loop of [src/src/pg_retry.c] that ends begins with an
    attempt, ends with a round that does not wait, and makes no more than
    [max_tries] attempts. *)
Lemma rethrow_loop_trace (h : Host) (p : Params) (fuel : nat) :
  forall (attempt : Z) (st : RethrowInCatch.Locals) (t : Trace)
         (rd : RethrowInCatch.Round),
    1 <= attempt <= max_tries p ->
    max_tries p <= INT_MAX ->
    RethrowInCatch.success st = false ->
    Z.of_nat (n_attempts t) = attempt - 1 ->
    RethrowInCatch.retry_loop fuel h p attempt st t = Some rd ->
    (exists u, trace_of rd = t ++ EvBeginSub :: EvExecute :: u)
    /\ last_round_quiet (trace_of rd)
    /\ Z.of_nat (n_attempts (trace_of rd)) <= max_tries p.
Proof.
  induction fuel as [|fuel IH]; intros attempt st t rd Ha Hmax Hs Hn;
    cbn [RethrowInCatch.retry_loop]; [discriminate|].
  rewrite (proj2 (Z.leb_le attempt (max_tries p))) by lia.
  destruct (rethrow_once_cases h p attempt st t ltac:(lia))
    as [[rows ->] | [[e ->] | [e [Hlt ->]]]].
  - cbn [RethrowInCatch.success]. intros H. injection H as <-. cbn [trace_of].
    split; [now eexists|]. split; [apply last_round_quiet_success|].
    rewrite n_attempts_app. change (n_attempts success_round) with 1%nat. lia.
  - intros H. injection H as <-. cbn [trace_of].
    split; [unfold failed_round; now eexists|].
    split; [apply last_round_quiet_failed|].
    rewrite n_attempts_app, (proj1 (failed_round_counts _ _ _)). lia.
  - rewrite Hs, wrap32_in_range by (unfold INT_MIN, INT_MAX in *; lia).
    intros H. apply IH in H; try assumption; try lia.
    + destruct H as [[u Hu] [Hq Hc]]. split; [|now split].
      rewrite Hu. unfold retry_round. rewrite <- app_assoc. now eexists.
    + rewrite n_attempts_app, (proj1 (retry_round_counts _ _ _ _ _)). lia.
Qed.

(** For [src/src/pg_retry.c]: in every run that ends, no wait comes before
    the first attempt or after the last one, and there are at most
    [max_tries] attempts, so that nothing is waited for after the last
    allowed attempt. *)
Theorem rethrow_sleeps_between_attempts (h : Host) (p : Params) (fuel : nat)
    (r : Result) (t : Trace) :
  1 <= max_tries p <= INT_MAX ->
  RethrowInCatch.run_validated fuel h p = Some (r, t) ->
  sleeps_between_attempts t = true /\ Z.of_nat (n_attempts t) <= max_tries p.
Proof.
  intros Hm. unfold RethrowInCatch.run_validated.
  destruct (negb (SPI_connect_ext h =? SPI_OK_CONNECT)).
  { intros H. injection H as <- <-. split; [reflexivity|]. simpl. lia. }
  destruct (RethrowInCatch.retry_loop fuel h p 1 RethrowInCatch.init [EvSpiConnect])
    as [rd|] eqn:Hl; [|discriminate].
  apply rethrow_loop_trace in Hl; try reflexivity; try lia.
  destruct Hl as [[u Hu] [Hq Hc]].
  unfold RethrowInCatch.finish. unfold sleeps_between_attempts.
  destruct rd as [st' t'|e t']; cbn [trace_of] in *.
  - destruct (RethrowInCatch.success st'); intros H; injection H as <- <-;
      (split; [|now rewrite n_attempts_finish]);
      (apply andb_true_intro; split;
       [rewrite Hu; reflexivity
       |apply last_round_quiet_rev, last_round_quiet_finish, Hq]).
  - intros H. injection H as <- <-. split; [|exact Hc].
    apply andb_true_intro. split; [rewrite Hu; reflexivity|].
    now apply last_round_quiet_rev.
Qed.

(** The same for [src/pg_retry.c], as long as [max_tries] is below [INT_MAX]. *)
Lemma retain_last_loop_trace (h : Host) (p : Params) (fuel : nat) :
  forall (attempt : Z) (st st' : RetainLast.Locals) (t t' : Trace),
    1 <= attempt <= max_tries p + 1 ->
    max_tries p < INT_MAX ->
    RetainLast.success st = false ->
    Z.of_nat (n_attempts t) = attempt - 1 ->
    (attempt = max_tries p + 1 ->
     last_round_quiet t /\ exists u, t = [EvSpiConnect] ++ EvBeginSub :: EvExecute :: u) ->
    (attempt <= max_tries p -> t = [EvSpiConnect]
                               \/ exists u, t = [EvSpiConnect] ++ EvBeginSub :: EvExecute :: u) ->
    RetainLast.retry_loop fuel h p attempt st t = Some (st', t') ->
    (exists u, t' = [EvSpiConnect] ++ EvBeginSub :: EvExecute :: u)
    /\ last_round_quiet t'
    /\ Z.of_nat (n_attempts t') <= max_tries p.
Proof.
  assert (Hext : forall (t u : Trace) (x : Trace),
             t = [EvSpiConnect] \/ (exists v, t = [EvSpiConnect] ++ EvBeginSub :: EvExecute :: v) ->
             x = EvBeginSub :: EvExecute :: u ->
             exists v, t ++ x = [EvSpiConnect] ++ EvBeginSub :: EvExecute :: v).
  { intros t u x [-> | [v ->]] ->; [now eexists|].
    rewrite <- app_assoc. cbn [app]. now eexists. }
  induction fuel as [|fuel IH]; intros attempt st st' t t' Ha Hmax Hs Hn Hexit Hrun;
    cbn [RetainLast.retry_loop]; [discriminate|].
  destruct (attempt <=? max_tries p) eqn:Hle.
  2:{ apply Z.leb_gt in Hle. intros H. injection H as <- <-.
      destruct (Hexit ltac:(lia)) as [Hq Hu]. repeat split; try assumption. lia. }
  apply Z.leb_le in Hle. specialize (Hrun Hle).
  destruct (retain_last_once_cases h p attempt st t Hle)
    as [[rows ->] | [[e [Hwhy ->]] | [e [Hlt ->]]]].
  - cbn [RetainLast.success]. intros H. injection H as <- <-.
    split; [eapply (Hext t); [exact Hrun|reflexivity]|].
    split; [apply last_round_quiet_success|].
    rewrite n_attempts_app. change (n_attempts success_round) with 1%nat. lia.
  - cbn [RetainLast.success]. rewrite Hs, wrap32_in_range by (unfold INT_MIN, INT_MAX in *; lia).
    apply IH; try reflexivity; try lia.
    + rewrite n_attempts_app, (proj1 (failed_round_counts _ _ _)). lia.
    + intros _. split; [apply last_round_quiet_failed|].
      unfold failed_round. eapply (Hext t); [exact Hrun|reflexivity].
    + intros _. right. unfold failed_round. eapply (Hext t); [exact Hrun|reflexivity].
  - rewrite Hs, wrap32_in_range by (unfold INT_MIN, INT_MAX in *; lia).
    apply IH; try assumption; try lia.
    + rewrite n_attempts_app, (proj1 (retry_round_counts _ _ _ _ _)). lia.
    + intros _. right. unfold retry_round. eapply (Hext t); [exact Hrun|reflexivity].
Qed.

(** For [src/pg_retry.c] with [max_tries] below [INT_MAX]: in every run that
    ends, no wait comes before the first attempt or after the last one, and
    there are at most [max_tries] attempts. *)
Theorem retain_last_sleeps_between_attempts (h : Host) (p : Params) (fuel : nat)
    (r : Result) (t : Trace) :
  1 <= max_tries p < INT_MAX ->
  RetainLast.run_validated fuel h p = Some (r, t) ->
  sleeps_between_attempts t = true /\ Z.of_nat (n_attempts t) <= max_tries p.
Proof.
  intros Hm. unfold RetainLast.run_validated.
  destruct (negb (SPI_connect_ext h =? SPI_OK_CONNECT)).
  { intros H. injection H as <- <-. split; [reflexivity|]. simpl. lia. }
  destruct (RetainLast.retry_loop fuel h p 1 RetainLast.init [EvSpiConnect])
    as [[st' t']|] eqn:Hl; [|discriminate].
  apply retain_last_loop_trace in Hl; try reflexivity; try lia; [|now left].
  destruct Hl as [[u Hu] [Hq Hc]].
  assert (Hfin : sleeps_between_attempts (t' ++ [EvSpiFinish]) = true).
  { apply andb_true_intro. split; [rewrite Hu; reflexivity|].
    apply last_round_quiet_rev, last_round_quiet_finish, Hq. }
  unfold RetainLast.finish.
  destruct (RetainLast.success st'); [|destruct (RetainLast.last_error st')];
    intros H; injection H as <- <-; (split; [exact Hfin|now rewrite n_attempts_finish]).
Qed.

(** ** A single try *)

(** With maxTries = 1 either variant makes exactly one attempt and never
    waits, whatever the attempt does. *)
Theorem single_try_never_sleeps (h : Host) (p : Params) (fuel : nat) :
  max_tries p = 1 ->
  SPI_connect_ext h = SPI_OK_CONNECT ->
  (2 <= fuel)%nat ->
  exists rA tA rB tB,
    RetainLast.run_validated fuel h p = Some (rA, tA)
    /\ RethrowInCatch.run_validated fuel h p = Some (rB, tB)
    /\ n_attempts tA = 1%nat /\ n_sleeps tA = 0%nat
    /\ n_attempts tB = 1%nat /\ n_sleeps tB = 0%nat.
Proof.
  intros Hm Hc Hfuel. destruct fuel as [|[|fuel]]; try lia.
  unfold RetainLast.run_validated, RethrowInCatch.run_validated.
  rewrite Hc. cbn [Z.eqb negb Pos.eqb SPI_OK_CONNECT].
  cbn [RetainLast.retry_loop RethrowInCatch.retry_loop].
  rewrite Hm. cbn [Z.leb Z.compare Pos.compare Pos.compare_cont].
  destruct (retain_last_once_cases h p 1 RetainLast.init [EvSpiConnect] ltac:(lia))
    as [[rows HA] | [[e [_ HA]] | [e [Hlt _]]]]; [| |lia];
  destruct (rethrow_once_cases h p 1 RethrowInCatch.init [EvSpiConnect] ltac:(lia))
    as [[rows' HB] | [[e' HB] | [e' [Hlt' _]]]]; try lia;
  rewrite HA, HB; cbn [RetainLast.success RethrowInCatch.success RetainLast.init];
  change (wrap32 (1 + 1)) with 2;
  cbn [Z.leb Z.compare Pos.compare Pos.compare_cont];
  unfold RetainLast.finish, RethrowInCatch.finish;
  cbn [RetainLast.success RethrowInCatch.success RetainLast.last_error];
  do 4 eexists; (split; [reflexivity|]); (split; [reflexivity|]);
  rewrite ?n_attempts_finish, ?n_sleeps_finish, !n_attempts_app, !n_sleeps_app,
    ?(proj1 (failed_round_counts _ _ _)), ?(proj1 (proj2 (failed_round_counts _ _ _)));
  repeat split.
Qed.

(** ** Termination *)

(** The loop of [src/src/pg_retry.c] ends within [max_tries] rounds, whatever
    the executions do. *)
Lemma rethrow_loop_ends (h : Host) (p : Params) (j : nat) :
  forall (attempt : Z) (st : RethrowInCatch.Locals) (t : Trace) (fuel : nat),
    INT_MIN <= attempt ->
    attempt + Z.of_nat j = max_tries p ->
    max_tries p <= INT_MAX ->
    RethrowInCatch.success st = false ->
    (j < fuel)%nat ->
    exists rd, RethrowInCatch.retry_loop fuel h p attempt st t = Some rd.
Proof.
  induction j as [|j IH]; intros attempt st t fuel Hlo Hj Hmax Hs Hfuel;
    (destruct fuel as [|fuel]; [lia|]); cbn [RethrowInCatch.retry_loop];
    rewrite (proj2 (Z.leb_le attempt (max_tries p))) by lia;
    destruct (rethrow_once_cases h p attempt st t ltac:(lia))
      as [[rows ->] | [[e ->] | [e [Hlt ->]]]]; try (now eexists); try lia.
  rewrite Hs, wrap32_in_range by (unfold INT_MIN, INT_MAX in *; lia).
  apply IH; try assumption; lia.
Qed.

(** Whatever the executions do, a call of [src/src/pg_retry.c] ends within
    [max_tries] rounds of its loop: with that much fuel the run has an
    outcome. *)
Theorem rethrow_always_ends (h : Host) (p : Params) (fuel : nat) :
  1 <= max_tries p <= INT_MAX ->
  (Z.to_nat (max_tries p) <= fuel)%nat ->
  exists x, RethrowInCatch.run_validated fuel h p = Some x.
Proof.
  intros Hm Hfuel. unfold RethrowInCatch.run_validated.
  destruct (negb (SPI_connect_ext h =? SPI_OK_CONNECT)); [now eexists|].
  destruct (rethrow_loop_ends h p (Z.to_nat (max_tries p - 1)) 1 RethrowInCatch.init
              [EvSpiConnect] fuel) as [rd ->]; try reflexivity; try lia.
  - unfold INT_MIN. lia.
  - now eexists.
Qed.

(** So does the loop of [src/pg_retry.c], after one more test of the counter, as
    long as [max_tries] is below [INT_MAX]. *)
Lemma retain_last_loop_ends (h : Host) (p : Params) (j : nat) :
  forall (attempt : Z) (st : RetainLast.Locals) (t : Trace) (fuel : nat),
    INT_MIN <= attempt ->
    attempt + Z.of_nat j = max_tries p ->
    max_tries p < INT_MAX ->
    RetainLast.success st = false ->
    (S j < fuel)%nat ->
    exists x, RetainLast.retry_loop fuel h p attempt st t = Some x.
Proof.
  induction j as [|j IH]; intros attempt st t fuel Hlo Hj Hmax Hs Hfuel;
    (destruct fuel as [|fuel]; [lia|]); cbn [RetainLast.retry_loop];
    rewrite (proj2 (Z.leb_le attempt (max_tries p))) by lia;
    destruct (retain_last_once_cases h p attempt st t ltac:(lia))
      as [[rows ->] | [[e [_ ->]] | [e [Hlt ->]]]]; try (now eexists); try lia;
    cbn [RetainLast.success]; rewrite Hs, wrap32_in_range
      by (unfold INT_MIN, INT_MAX in *; lia).
  - destruct fuel as [|fuel]; [lia|]. cbn [RetainLast.retry_loop].
    rewrite (proj2 (Z.leb_gt _ _)) by lia. now eexists.
  - apply IH; try reflexivity; lia.
  - apply IH; try assumption; lia.
Qed.

(** Whatever the executions do, a call of [src/pg_retry.c] with [max_tries]
    below [INT_MAX] ends within [max_tries] rounds of its loop and one more
    test of the counter. *)
Theorem retain_last_ends_below_int_max (h : Host) (p : Params) (fuel : nat) :
  1 <= max_tries p < INT_MAX ->
  (Z.to_nat (max_tries p) < fuel)%nat ->
  exists x, RetainLast.run_validated fuel h p = Some x.
Proof.
  intros Hm Hfuel. unfold RetainLast.run_validated.
  destruct (negb (SPI_connect_ext h =? SPI_OK_CONNECT)); [now eexists|].
  destruct (retain_last_loop_ends h p (Z.to_nat (max_tries p - 1)) 1 RetainLast.init
              [EvSpiConnect] fuel) as [[st t] ->]; try reflexivity; try lia.
  - unfold INT_MIN. lia.
  - now eexists.
Qed.

(** ** The token loop of [build_sqlstate_array] *)

Lemma skip_spaces_length (s : string) :
  (String.length (skip_spaces s) <= String.length s)%nat.
Proof.
  induction s as [|c s IH]; cbn [skip_spaces]; [lia|].
  destruct (isspace c); cbn [String.length]; lia.
Qed.

(** After the scan [ptr] stands at the end or on a comma, and has not moved
    back. *)
Lemma scan_field_rest (s : string) :
  (String.length (snd (scan_field s)) <= String.length s)%nat
  /\ (snd (scan_field s) = EmptyString
      \/ exists c rest, snd (scan_field s) = String c rest /\ is_comma c = true).
Proof.
  induction s as [|c s [IHl IHc]]; cbn [scan_field].
  - split; [cbn; lia | now left].
  - destruct (is_comma c) eqn:Hc.
    + cbn [snd]. split; [lia|]. right. now exists c, s.
    + destruct (scan_field s) as [field rest]. cbn [snd] in *.
      split; [cbn [String.length]; lia | exact IHc].
Qed.

(** Every round moves [ptr] forward, so the rounds never run out: once the
    bound is at least the length of the text, the tokens are the same. *)
Lemma sqlstate_tokens_enough (n : nat) :
  forall (m : nat) (s : string),
    (String.length s <= n)%nat -> (String.length s <= m)%nat ->
    sqlstate_tokens n s = sqlstate_tokens m s.
Proof.
  induction n as [|n IH]; intros m s Hn Hm.
  - destruct s; [|cbn in Hn; lia]. now destruct m.
  - destruct m as [|m].
    + destruct s; [reflexivity | cbn in Hm; lia].
    + destruct s as [|c s]; [reflexivity|].
      cbn [sqlstate_tokens].
      pose proof (skip_spaces_length (String c s)) as Hskip.
      destruct (scan_field_rest (skip_spaces (String c s))) as [Hlen Hshape].
      destruct (scan_field (skip_spaces (String c s))) as [field rest].
      cbn [snd] in Hlen, Hshape. cbn [String.length] in Hn, Hm, Hskip.
      assert (Hnext : forall k, (S (String.length s) <= S k)%nat ->
                 (String.length
                    match rest with
                    | String c0 rest0 => if is_comma c0 then rest0 else rest
                    | EmptyString => rest
                    end <= k)%nat).
      { intros k Hk. destruct Hshape as [-> | [c0 [rest0 [-> Hc0]]]].
        - cbn. lia.
        - rewrite Hc0. cbn [String.length] in Hlen. lia. }
      rewrite (IH m _ (Hnext n Hn) (Hnext m Hm)). reflexivity.
Qed.

(** * The theorems at concrete invocations *)

Lemma invalid_invocation_rejected_witness :
  exists e,
    RetainLast.pg_retry_retry 0 boot_guc
      {| pg_parse_query := fun _ => inr [ {| stmt := T_TransactionStmt |} ];
         SPI_connect_ext := SPI_OK_CONNECT;
         SPI_execute := fun _ => SpiReturns SPI_OK_UPDATE 0;
         prng := fun _ => 0%Q;
         long_width := Long64 |}
      {| arg_sql := Some "COMMIT"; arg_max_tries := Some 1000000;
         arg_base_delay_ms := None; arg_max_delay_ms := None;
         arg_retry_sqlstates := None |}
    = Some (Rejected e, [])
    /\ sqlerrcode e = ERRCODE_FEATURE_NOT_SUPPORTED.
Proof.
  destruct (invalid_invocation_rejected_before_any_attempt 0 boot_guc
              {| pg_parse_query := fun _ => inr [ {| stmt := T_TransactionStmt |} ];
                 SPI_connect_ext := SPI_OK_CONNECT;
                 SPI_execute := fun _ => SpiReturns SPI_OK_UPDATE 0;
                 prng := fun _ => 0%Q;
         long_width := Long64 |}
              {| arg_sql := Some "COMMIT"; arg_max_tries := Some 1000000;
                 arg_base_delay_ms := None; arg_max_delay_ms := None;
                 arg_retry_sqlstates := None |}
              UnsupportedStatement eq_refl) as [e [HA _]].
  exists e. split; [exact HA|].
  vm_compute in HA. injection HA as <-. reflexivity.
Defined.

Lemma scenario_c_two_warnings_witness :
  exists tA tB,
    RetainLast.run_validated 3 host_scenario_c (params_update 2)
    = Some (Rethrown (serialization_failure_at 1), tA)
    /\ RethrowInCatch.run_validated 3 host_scenario_c (params_update 2)
       = Some (Rethrown (serialization_failure_at 1), tB)
    /\ tA = tB ++ [EvSpiFinish]
    /\ unpack_sql_state (sqlerrcode (serialization_failure_at 1)) = "40001"
    /\ warnings tB = [EvWarning (retry_warning 1 2 (serialization_failure_at 0));
                      EvWarning (retry_warning 2 2 (serialization_failure_at 1))]
    /\ n_attempts tB = 2%nat
    /\ n_sleeps tB = 1%nat.
Proof.
  apply (scenario_c_two_warnings host_scenario_c (params_update 2) 3
           (message (serialization_failure_at 0)) (message (serialization_failure_at 1)));
    [reflexivity | reflexivity | simpl; tauto | reflexivity | reflexivity | lia].
Defined.

Lemma calculate_delay_bounds_witness :
  1 <= calculate_delay Long32 (1 # 3) 3 50 1000
       <= Z.max 1 (Qfloor ((12 # 10) * inject_Z 1000))
  /\ Z.max 1 (Qfloor ((8 # 10) * uncapped 3 50))
     <= calculate_delay Long32 (1 # 3) 3 50 1000
     <= Z.max 1 (Qfloor ((12 # 10) * uncapped 3 50))
  /\ 1 <= calculate_delay Long64 (1 # 3) 1 0 0 <= 1.
Proof.
  destruct (calculate_delay_bounds Long32 (1 # 3) 3 50 1000) as [Hrange [Hband _]];
    [unfold Qle; simpl; lia | unfold Qle; simpl; lia | unfold INT_MAX; lia | lia
    | unfold INT_MAX; lia |].
  destruct (calculate_delay_bounds Long64 (1 # 3) 1 0 0) as [_ [_ Hzero]];
    [unfold Qle; simpl; lia | unfold Qle; simpl; lia | unfold INT_MAX; lia | lia
    | unfold INT_MAX; lia |].
  split; [exact Hrange|]. split.
  - apply Hband; [left; lia | reflexivity | right; vm_compute; discriminate].
  - rewrite (Hzero eq_refl eq_refl). lia.
Defined.


(** * Further properties *)

(** ** The default list of [src/src/pg_retry.c] *)

Lemma isspace_not_comma (c : ascii) : isspace c = true -> is_comma c = false.
Proof.
  unfold isspace, is_comma. intros H.
  apply orb_true_iff in H as [H|H].
  - apply Z.eqb_eq in H. rewrite H. reflexivity.
  - apply andb_true_iff in H as [H1 H2]. apply Z.leb_le in H1, H2.
    apply Z.eqb_neq. lia.
Qed.

Lemma skip_spaces_idem (s : string) : skip_spaces (skip_spaces s) = skip_spaces s.
Proof.
  induction s as [|c s IH]; cbn [skip_spaces]; [reflexivity|].
  destruct (isspace c) eqn:E; [exact IH|]. cbn [skip_spaces]. now rewrite E.
Qed.

(** Skipping the leading white space and scanning to the comma commute. *)
Lemma scan_field_skip_spaces (s : string) :
  scan_field (skip_spaces s) = (skip_spaces (fst (scan_field s)), snd (scan_field s)).
Proof.
  induction s as [|c s IH]; [reflexivity|].
  cbn [skip_spaces scan_field].
  destruct (isspace c) eqn:Hs.
  - rewrite (isspace_not_comma c Hs).
    destruct (scan_field s) as [f r]. cbn [fst snd skip_spaces] in *.
    now rewrite Hs.
  - cbn [scan_field]. destruct (is_comma c); [reflexivity|].
    destruct (scan_field s) as [f r]. cbn [fst snd skip_spaces]. now rewrite Hs.
Qed.

(** The scan cuts the first field of the text off. *)
Lemma scan_field_split (s : string) :
  split_commas s
  = match snd (scan_field s) with
    | EmptyString => [fst (scan_field s)]
    | String _ rest => fst (scan_field s) :: split_commas rest
    end.
Proof.
  induction s as [|c s IH]; [reflexivity|].
  cbn [split_commas scan_field].
  destruct (is_comma c); [reflexivity|].
  rewrite IH. destruct (scan_field s) as [f r]. cbn [fst snd].
  now destruct r.
Qed.

Lemma trimmed_fields_empty : trimmed_fields EmptyString = [].
Proof. reflexivity. Qed.

Lemma sqlstate_tokens_nil (n : nat) : sqlstate_tokens n EmptyString = [].
Proof. now destruct n. Qed.

(** The token loop yields the trimmed, non-empty fields. *)
Lemma sqlstate_tokens_trimmed_fields (n : nat) :
  forall s : string,
    (String.length s <= n)%nat -> sqlstate_tokens n s = trimmed_fields s.
Proof.
  induction n as [|n IH]; intros s Hn.
  - destruct s; [reflexivity | cbn in Hn; lia].
  - destruct s as [|c s]; [reflexivity|].
    cbn [sqlstate_tokens]. rewrite scan_field_skip_spaces.
    unfold trimmed_fields. rewrite (scan_field_split (String c s)).
    destruct (scan_field_rest (String c s)) as [Hlen Hshape].
    destruct (scan_field (String c s)) as [f r]. cbn [fst snd] in *.
    fold (trim f).
    destruct Hshape as [-> | [c0 [r0 [-> Hc0]]]].
    + rewrite sqlstate_tokens_nil. cbn [map filter].
      now destruct (trim f).
    + rewrite Hc0. cbn [String.length] in Hlen, Hn.
      rewrite (IH r0) by lia. cbn [map filter]. fold (trimmed_fields r0).
      now destruct (trim f).
Qed.

Lemma trim_elements_some (l : list string) :
  trim_elements (map Some l)
  = map Some (filter (fun field => negb (is_empty field)) (map trim l)).
Proof.
  unfold trim_elements. induction l as [|f l IH]; [reflexivity|].
  cbn [map filter option_map]. rewrite IH. now destruct (is_empty (trim f)).
Qed.

Lemma build_sqlstate_array_fields (csv : string) :
  build_sqlstate_array csv = map Some (trimmed_fields csv).
Proof.
  unfold build_sqlstate_array. destruct csv as [|c s]; [reflexivity|].
  now rewrite sqlstate_tokens_trimmed_fields.
Qed.

(** [build_sqlstate_array] returns what [text_to_array] returns for the same
    text, with every field freed of the white space at its two ends and the
    fields that are then empty left out; the order of the fields is kept. *)
Theorem build_sqlstate_array_trims_and_drops (csv : string) :
  build_sqlstate_array csv = trim_elements (text_to_array csv).
Proof.
  rewrite build_sqlstate_array_fields. unfold text_to_array.
  destruct csv as [|c s]; [reflexivity|].
  now rewrite trim_elements_some.
Qed.

(** *** What a token looks like *)

Lemma skip_spaces_fixed (s : string) :
  skip_spaces s = s <->
  match s with EmptyString => True | String c _ => isspace c = false end.
Proof.
  destruct s as [|c s]; cbn [skip_spaces]; [tauto|].
  destruct (isspace c) eqn:E; [|tauto].
  split; [|discriminate]. intros H.
  pose proof (skip_spaces_length s) as Hl. rewrite H in Hl. cbn in Hl. lia.
Qed.

Lemma skip_spaces_head (s : string) : skip_spaces (skip_spaces s) = skip_spaces s
  /\ match skip_spaces s with EmptyString => True | String c _ => isspace c = false end.
Proof.
  split; [apply skip_spaces_idem|]. apply skip_spaces_fixed, skip_spaces_idem.
Qed.

(** Trimming the end keeps the first character of a text that does not
    begin with white space. *)
Lemma trim_end_head (s : string) :
  skip_spaces s = s -> skip_spaces (trim_end s) = trim_end s.
Proof.
  intros H. apply skip_spaces_fixed in H. apply skip_spaces_fixed.
  destruct s as [|c s]; [exact I|]. cbn [trim_end].
  destruct (trim_end s); [|exact H]. now rewrite H.
Qed.

Lemma trim_end_idem (s : string) : trim_end (trim_end s) = trim_end s.
Proof.
  induction s as [|c s IH]; [reflexivity|]. cbn [trim_end].
  destruct (trim_end s) as [|k ks] eqn:E.
  - destruct (isspace c) eqn:Hc; [reflexivity|]. cbn [trim_end]. now rewrite Hc.
  - cbn [trim_end]. cbn [trim_end] in IH. rewrite IH. reflexivity.
Qed.

Lemma trim_shape (f : string) :
  skip_spaces (trim f) = trim f /\ trim_end (trim f) = trim f.
Proof.
  unfold trim. split; [apply trim_end_head, skip_spaces_idem | apply trim_end_idem].
Qed.

Lemma skip_spaces_chars (test : ascii -> bool) (s : string) :
  some_char test (skip_spaces s) = true -> some_char test s = true.
Proof.
  unfold some_char. induction s as [|c s IH]; cbn [skip_spaces]; [trivial|].
  destruct (isspace c); [|trivial].
  intros H. cbn [list_ascii_of_string existsb]. rewrite (IH H). apply orb_true_r.
Qed.

Lemma trim_end_chars (test : ascii -> bool) (s : string) :
  some_char test (trim_end s) = true -> some_char test s = true.
Proof.
  unfold some_char. induction s as [|c s IH]; [trivial|].
  cbn [trim_end list_ascii_of_string existsb].
  destruct (trim_end s) as [|k ks].
  - destruct (isspace c); [discriminate|].
    cbn [list_ascii_of_string existsb]. rewrite orb_false_r. intros ->. reflexivity.
  - cbn [list_ascii_of_string existsb] in *.
    intros H. apply orb_true_iff in H as [H|H]; [now rewrite H|].
    rewrite (IH H). apply orb_true_r.
Qed.

Lemma split_commas_cons (s : string) : exists f fs, split_commas s = f :: fs.
Proof.
  induction s as [|c s [f [fs IH]]]; cbn [split_commas]; [now eexists; eexists|].
  destruct (is_comma c); [now eexists; eexists|]. rewrite IH. now eexists; eexists.
Qed.

Lemma split_commas_no_comma (s : string) :
  Forall (fun f => some_char is_comma f = false) (split_commas s).
Proof.
  induction s as [|c s IH]; cbn [split_commas].
  - now constructor.
  - destruct (is_comma c) eqn:Hc.
    + constructor; [reflexivity | exact IH].
    + destruct (split_commas s) as [|f fs]; [repeat constructor; cbn; now rewrite Hc|].
      inversion IH as [|? ? Hf Hfs]; subst. constructor; [|exact Hfs].
      unfold some_char in *. cbn [list_ascii_of_string existsb]. now rewrite Hc, Hf.
Qed.

(** Every element of the array [build_sqlstate_array] returns is a non-null,
    non-empty text that neither begins nor ends with white space and holds
    no comma. *)
Theorem build_sqlstate_array_elements_are_clean (csv : string) :
  Forall (fun elem =>
            exists token,
              elem = Some token
              /\ token <> EmptyString
              /\ skip_spaces token = token
              /\ trim_end token = token
              /\ some_char is_comma token = false)
         (build_sqlstate_array csv).
Proof.
  rewrite build_sqlstate_array_fields. unfold trimmed_fields.
  apply Forall_forall. intros elem Hin.
  apply in_map_iff in Hin as [token [<- Hin]].
  apply filter_In in Hin as [Hin Hne].
  apply in_map_iff in Hin as [f [<- Hf]].
  exists (trim f). split; [reflexivity|].
  split; [now destruct (trim f)|].
  destruct (trim_shape f) as [H1 H2]. split; [exact H1|]. split; [exact H2|].
  pose proof (split_commas_no_comma csv) as Hall.
  rewrite Forall_forall in Hall. specialize (Hall f Hf).
  destruct (some_char is_comma (trim f)) eqn:E; [|reflexivity].
  unfold trim in E. apply trim_end_chars, skip_spaces_chars in E. congruence.
Qed.

(** *** The array of tokens fits the memory reserved for it *)

Lemma count_commas_fields (s : string) :
  forall count : Z,
    0 <= count ->
    count + Z.of_nat (String.length s) <= INT_MAX ->
    count_commas s count + 1 = count + Z.of_nat (List.length (split_commas s)).
Proof.
  induction s as [|c s IH]; intros count H0 Hmax; cbn [count_commas split_commas].
  - cbn. lia.
  - cbn [String.length] in Hmax.
    destruct (is_comma c).
    + rewrite wrap32_in_range by (unfold INT_MIN, INT_MAX in *; lia).
      rewrite IH by lia. cbn [List.length]. lia.
    + rewrite IH by lia.
      destruct (split_commas_cons s) as [f [fs ->]]. reflexivity.
Qed.

Lemma filter_length_le {A : Type} (test : A -> bool) (l : list A) :
  (List.length (filter test l) <= List.length l)%nat.
Proof.
  induction l as [|a l IH]; [apply Nat.le_refl|]. cbn [filter].
  destruct (test a); cbn [List.length]; lia.
Qed.

Lemma split_commas_length (s : string) :
  (List.length (split_commas s) <= S (String.length s))%nat.
Proof.
  induction s as [|c s IH]; cbn [split_commas]; [cbn; lia|].
  destruct (is_comma c); cbn [List.length String.length]; [lia|].
  destruct (split_commas s); cbn [List.length] in *; lia.
Qed.

(** For a text shorter than [INT_MAX] characters, the number of tokens
    [build_sqlstate_array] stores never exceeds the number of slots it has
    reserved for them (the number of commas plus one): [idx] stays within
    [count], and [elements] is not written past its end. *)
Theorem build_sqlstate_array_fits_allocation (csv : string) :
  Z.of_nat (String.length csv) < INT_MAX ->
  Z.of_nat (List.length (build_sqlstate_array csv)) <= slots_allocated csv
  /\ slots_allocated csv = Z.of_nat (List.length (split_commas csv)).
Proof.
  intros Hlen.
  assert (Hs : slots_allocated csv = Z.of_nat (List.length (split_commas csv))).
  { unfold slots_allocated. rewrite (count_commas_fields csv 0) by lia.
    pose proof (split_commas_length csv).
    apply wrap32_in_range. unfold INT_MIN, INT_MAX in *. lia. }
  split; [|exact Hs]. rewrite Hs, build_sqlstate_array_fields.
  unfold trimmed_fields. rewrite length_map.
  pose proof (filter_length_le (fun field => negb (is_empty field))
                (map trim (split_commas csv))) as H.
  rewrite length_map in H. lia.
Qed.

(** *** Texts that yield no token *)

Lemma trim_end_empty (s : string) :
  trim_end s = EmptyString <-> all_chars isspace s = true.
Proof.
  unfold all_chars. induction s as [|c s IH]; [cbn; tauto|].
  cbn [trim_end list_ascii_of_string forallb].
  destruct (trim_end s) as [|k ks].
  - destruct (isspace c); cbn [andb].
    + rewrite <- IH. tauto.
    + split; discriminate.
  - split; [discriminate|]. intros H. apply andb_true_iff in H as [_ H].
    apply IH in H. discriminate.
Qed.

Lemma skip_spaces_empty (s : string) :
  skip_spaces s = EmptyString <-> all_chars isspace s = true.
Proof.
  unfold all_chars. induction s as [|c s IH]; [cbn; tauto|].
  cbn [skip_spaces list_ascii_of_string forallb].
  destruct (isspace c); cbn [andb]; [exact IH|]. split; discriminate.
Qed.

Lemma trim_empty (f : string) : trim f = EmptyString <-> all_chars isspace f = true.
Proof.
  unfold trim. rewrite trim_end_empty. split.
  - intros H. apply skip_spaces_empty.
    destruct (skip_spaces_head f) as [_ Hh].
    destruct (skip_spaces f) as [|c s]; [reflexivity|].
    unfold all_chars in H. cbn [list_ascii_of_string forallb] in H.
    rewrite Hh in H. discriminate.
  - intros H. apply skip_spaces_empty in H. now rewrite H.
Qed.

Lemma split_commas_all_space (s : string) :
  Forall (fun f => all_chars isspace f = true) (split_commas s)
  <-> all_chars (fun c => isspace c || is_comma c) s = true.
Proof.
  unfold all_chars. induction s as [|c s IH]; cbn [split_commas].
  - split; [reflexivity | repeat constructor].
  - cbn [list_ascii_of_string forallb]. destruct (is_comma c) eqn:Hc.
    + rewrite orb_true_r. cbn [andb]. rewrite <- IH. split.
      * intros H. now inversion H.
      * intros H. now constructor.
    + rewrite orb_false_r. destruct (split_commas_cons s) as [f [fs E]].
      rewrite E in *. rewrite andb_true_iff, <- IH. split.
      * intros H. inversion H as [|? ? Hf Hfs]; subst.
        cbn [list_ascii_of_string forallb] in Hf. apply andb_true_iff in Hf as [H1 H2].
        split; [exact H1|]. now constructor.
      * intros [H1 H]. inversion H as [|? ? Hf Hfs]; subst. constructor; [|exact Hfs].
        cbn [list_ascii_of_string forallb]. now rewrite H1, Hf.
Qed.

(** [build_sqlstate_array] returns the empty array exactly for the texts
    that hold nothing but white space and commas, the empty text among
    them. *)
Theorem build_sqlstate_array_empty_iff (csv : string) :
  build_sqlstate_array csv = []
  <-> all_chars (fun c => isspace c || is_comma c) csv = true.
Proof.
  rewrite build_sqlstate_array_fields, <- split_commas_all_space.
  unfold trimmed_fields. split.
  - intros H. apply map_eq_nil in H. apply Forall_forall. intros f Hf.
    apply trim_empty. destruct (trim f) as [|k ks] eqn:E; [reflexivity|].
    assert (Hin : In (String k ks)
                    (filter (fun field => negb (is_empty field))
                       (map trim (split_commas csv)))).
    { apply filter_In. split; [|reflexivity]. rewrite <- E. now apply in_map. }
    rewrite H in Hin. contradiction.
  - intros H. rewrite Forall_forall in H.
    destruct (filter (fun field => negb (is_empty field)) (map trim (split_commas csv)))
      as [|x l] eqn:E; [reflexivity|].
    assert (Hin : In x (x :: l)) by now left. rewrite <- E in Hin.
    apply filter_In in Hin as [Hin Hne]. apply in_map_iff in Hin as [f [<- Hf]].
    apply H, trim_empty in Hf. rewrite Hf in Hne. discriminate.
Qed.

(** *** Texts on which the two variants build the same array *)

Lemma filter_map_fixed {A : Type} (test : A -> bool) (g : A -> A) (l : list A) :
  filter test (map g l) = l <-> Forall (fun x => test x = true /\ g x = x) l.
Proof.
  induction l as [|a l IH]; cbn [map filter].
  - split; [constructor | reflexivity].
  - split.
    + destruct (test (g a)) eqn:E.
      * intros H. injection H as Ha Hl. constructor; [|now apply IH].
        split; [now rewrite <- Ha at 1 | exact Ha].
      * intros H. pose proof (filter_length_le test (map g l)) as Hle.
        rewrite H, length_map in Hle. cbn [List.length] in Hle. lia.
    + intros H. inversion H as [|? ? [Ht Hg] Hl]; subst.
      rewrite Hg, Ht. f_equal. now apply IH.
Qed.

Lemma map_Some_inj (l l' : list string) : map Some l = map Some l' -> l = l'.
Proof.
  revert l'. induction l as [|a l IH]; intros [|b l'] H; try discriminate; [reflexivity|].
  cbn [map] in H. injection H as -> H. f_equal. now apply IH.
Qed.

(** [build_sqlstate_array] and [text_to_array] build the same array from a
    text exactly when the text is empty or none of its fields is empty or
    begins or ends with white space. *)
Theorem default_arrays_agree_iff (csv : string) :
  build_sqlstate_array csv = text_to_array csv
  <-> csv = EmptyString
      \/ Forall (fun field => field <> EmptyString /\ trim field = field)
           (split_commas csv).
Proof.
  destruct csv as [|c s]; [split; [now left | reflexivity]|].
  rewrite build_sqlstate_array_fields. unfold text_to_array, trimmed_fields.
  split.
  - intros H. right. apply map_Some_inj, filter_map_fixed in H.
    eapply Forall_impl; [|exact H]. cbn beta. intros f [Hne Hf].
    split; [|exact Hf]. now destruct f.
  - intros [H|H]; [discriminate|]. f_equal. apply filter_map_fixed.
    eapply Forall_impl; [|exact H]. cbn beta. intros f [Hne Hf].
    split; [|exact Hf]. now destruct f.
Qed.

(** ** SQLSTATE codes *)

Lemma land_63 (v : Z) : Z.land v 63 = v mod 64.
Proof. change 63 with (Z.ones 6). rewrite Z.land_ones by lia. reflexivity. Qed.

Lemma sixbit_char_range (c : ascii) :
  sixbit_char c = true <-> 48 <= ascii_code c <= 111.
Proof. unfold sixbit_char. rewrite andb_true_iff, !Z.leb_le. tauto. Qed.

Lemma ascii_code_range (c : ascii) : 0 <= ascii_code c < 256.
Proof.
  unfold ascii_code. pose proof (N_ascii_bounded c) as H. lia.
Qed.

Lemma PGSIXBIT_sixbit (c : ascii) :
  sixbit_char c = true -> PGSIXBIT c = ascii_code c - 48.
Proof.
  intros H. apply sixbit_char_range in H. unfold PGSIXBIT.
  rewrite land_63. apply Z.mod_small. lia.
Qed.

(** A six-bit group on top of the rest of the code is unpacked to its
    character, and the shift leaves the rest. *)
Lemma PGUNSIXBIT_group (c : ascii) (rest : Z) :
  sixbit_char c = true ->
  PGUNSIXBIT (ascii_code c - 48 + 64 * rest) = c
  /\ Z.shiftr (ascii_code c - 48 + 64 * rest) 6 = rest.
Proof.
  intros H. apply sixbit_char_range in H. split.
  - unfold PGUNSIXBIT. rewrite land_63.
    replace ((ascii_code c - 48 + 64 * rest) mod 64) with (ascii_code c - 48).
    2:{ rewrite (Z.mul_comm 64 rest), Z.mod_add by lia. symmetry. apply Z.mod_small. lia. }
    replace (ascii_code c - 48 + 48) with (ascii_code c) by lia.
    unfold ascii_code. rewrite N2Z.id. apply ascii_N_embedding.
  - rewrite Z.shiftr_div_pow2 by lia. change (2 ^ 6) with 64.
    rewrite (Z.mul_comm 64 rest), Z.div_add by lia.
    rewrite Z.div_small by lia. lia.
Qed.

Lemma MAKE_SQLSTATE_groups (c1 c2 c3 c4 c5 : ascii) :
  sixbit_char c1 = true -> sixbit_char c2 = true -> sixbit_char c3 = true ->
  sixbit_char c4 = true -> sixbit_char c5 = true ->
  MAKE_SQLSTATE c1 c2 c3 c4 c5
  = ascii_code c1 - 48
    + 64 * (ascii_code c2 - 48
            + 64 * (ascii_code c3 - 48
                    + 64 * (ascii_code c4 - 48 + 64 * (ascii_code c5 - 48 + 64 * 0)))).
Proof.
  intros H1 H2 H3 H4 H5. unfold MAKE_SQLSTATE.
  rewrite !PGSIXBIT_sixbit by assumption.
  rewrite !Z.shiftl_mul_pow2 by lia.
  change (2 ^ 6) with 64. change (2 ^ 12) with 4096.
  change (2 ^ 18) with 262144. change (2 ^ 24) with 16777216. lia.
Qed.

Lemma unpack_MAKE_SQLSTATE (c1 c2 c3 c4 c5 : ascii) :
  sixbit_char c1 = true -> sixbit_char c2 = true -> sixbit_char c3 = true ->
  sixbit_char c4 = true -> sixbit_char c5 = true ->
  unpack_sql_state (MAKE_SQLSTATE c1 c2 c3 c4 c5)
  = String c1 (String c2 (String c3 (String c4 (String c5 EmptyString)))).
Proof.
  intros H1 H2 H3 H4 H5. rewrite MAKE_SQLSTATE_groups by assumption.
  unfold unpack_sql_state. cbn [unpack_groups].
  repeat match goal with
         | |- context [PGUNSIXBIT (ascii_code ?c - 48 + 64 * ?r)] =>
             match goal with
             | Hc : sixbit_char c = true |- _ =>
                 rewrite (proj1 (PGUNSIXBIT_group c r Hc)),
                         ?(proj2 (PGUNSIXBIT_group c r Hc))
             end
         end.
  reflexivity.
Qed.

(** An error raised with the code [MAKE_SQLSTATE(c1, ..., c5)], for
    characters between ['0'] and ['o'] (the digits and upper-case letters
    among them), is unpacked to the text [c1...c5], and is retried exactly
    when that text is an element of the list, unless the code is the one of
    "00000", which packs to 0. *)
Theorem packed_code_is_retried_iff_listed
    (c1 c2 c3 c4 c5 : ascii) (m : option string) (codes : ArrayType) :
  sixbit_char c1 = true -> sixbit_char c2 = true -> sixbit_char c3 = true ->
  sixbit_char c4 = true -> sixbit_char c5 = true ->
  let text := String c1 (String c2 (String c3 (String c4 (String c5 EmptyString)))) in
  unpack_sql_state (MAKE_SQLSTATE c1 c2 c3 c4 c5) = text
  /\ (should_retry {| sqlerrcode := MAKE_SQLSTATE c1 c2 c3 c4 c5; message := m |} codes
      = true
      <-> In (Some text) codes /\ text <> "00000"%string).
Proof.
  intros H1 H2 H3 H4 H5 text.
  pose proof (unpack_MAKE_SQLSTATE c1 c2 c3 c4 c5 H1 H2 H3 H4 H5) as Hu.
  fold text in Hu. split; [exact Hu|].
  unfold should_retry. cbn [sqlerrcode]. rewrite Hu.
  destruct (MAKE_SQLSTATE c1 c2 c3 c4 c5 =? 0) eqn:E.
  - apply Z.eqb_eq in E. split; [discriminate|]. intros [_ Hne]. exfalso. apply Hne.
    rewrite <- Hu, E. reflexivity.
  - rewrite is_retryable_sqlstate_In.
    apply Z.eqb_neq in E. split; [|tauto]. intros Hin. split; [exact Hin|].
    intros Ht. apply E. rewrite MAKE_SQLSTATE_groups by assumption.
    unfold text in Ht. injection Ht as -> -> -> -> ->. reflexivity.
Qed.

(** Whatever the code, its unpacked text has five characters of the
    six-bit alphabet. *)
Lemma unpack_sql_state_shaped (code : Z) :
  sqlstate_shaped (Some (unpack_sql_state code)) = true.
Proof.
  assert (Hc : forall v, sixbit_char (PGUNSIXBIT v) = true).
  { intros v. apply sixbit_char_range. unfold PGUNSIXBIT, ascii_code.
    rewrite land_63. pose proof (Z.mod_pos_bound v 64 ltac:(lia)) as Hm.
    rewrite N_ascii_embedding by lia. lia. }
  unfold sqlstate_shaped, unpack_sql_state, all_chars.
  cbn [unpack_groups String.length Nat.eqb list_ascii_of_string forallb andb].
  now rewrite !Hc.
Qed.

(** Elements of the list that do not have the shape of a code (null, not
    five characters long, or with a character outside ['0'] to ['o'], such
    as a blank or a lower-case [p]) never match: leaving them out of the list
    changes the classification of no error. *)
Theorem misshapen_elements_never_match (e : ErrorData) (codes : ArrayType) :
  should_retry e codes = should_retry e (filter sqlstate_shaped codes).
Proof.
  unfold should_retry. destruct (sqlerrcode e =? 0); [reflexivity|].
  pose proof (unpack_sql_state_shaped (sqlerrcode e)) as Hs.
  remember (unpack_sql_state (sqlerrcode e)) as s eqn:Es. clear Es.
  induction codes as [|[elem|] rest IH]; [reflexivity| |exact IH].
  cbn [filter is_retryable_sqlstate].
  destruct (sqlstate_shaped (Some elem)) eqn:El.
  - cbn [is_retryable_sqlstate]. now rewrite IH.
  - destruct (strcmp s elem =? 0) eqn:E; [|exact IH].
    apply strcmp_eqb in E. subst. congruence.
Qed.

(** ** Invariants of the retry loop *)

(** A property of the counter and the trace that every retried round keeps
    holds when the loop of [src/src/pg_retry.c] is left. *)
Section RethrowInvariant.

Variables (h : Host) (p : Params).
Variable I : Z -> Trace -> Prop.
Variable F : RethrowInCatch.Round -> Prop.

Hypothesis I_success : forall (a : Z) (t : Trace) (rows : Z),
  I a t -> a <= max_tries p ->
  try_block (SPI_execute h (n_attempts t)) = inr rows ->
  F (RethrowInCatch.Falls
       {| RethrowInCatch.processed_rows := rows; RethrowInCatch.success := true |}
       (t ++ success_round)).

Hypothesis I_throw : forall (a : Z) (t : Trace) (e : ErrorData),
  I a t -> a <= max_tries p ->
  failure_at h (n_attempts t) = Some e ->
  should_retry e (retry_sqlstates p) = false \/ a = max_tries p ->
  F (RethrowInCatch.Throws e (t ++ failed_round p a e)).

Hypothesis I_retry : forall (a : Z) (t : Trace) (e : ErrorData),
  I a t -> a < max_tries p ->
  failure_at h (n_attempts t) = Some e ->
  should_retry e (retry_sqlstates p) = true ->
  I (a + 1) (t ++ retry_round h p a e (n_sleeps t)).

Lemma rethrow_loop_invariant (fuel : nat) :
  forall (a : Z) (st : RethrowInCatch.Locals) (t : Trace) (rd : RethrowInCatch.Round),
    INT_MIN <= a <= max_tries p ->
    max_tries p <= INT_MAX ->
    RethrowInCatch.success st = false ->
    I a t ->
    RethrowInCatch.retry_loop fuel h p a st t = Some rd ->
    F rd.
Proof.
  induction fuel as [|fuel IH]; intros a st t rd Ha Hmax Hs Hi;
    cbn [RethrowInCatch.retry_loop]; [discriminate|].
  rewrite (proj2 (Z.leb_le a (max_tries p))) by lia.
  destruct (failure_at h (n_attempts t)) as [e|] eqn:He.
  - destruct (should_retry e (retry_sqlstates p)) eqn:Hr.
    + destruct (Z.eq_dec a (max_tries p)) as [Hlast|Hlast].
      * rewrite (rethrow_once_throw h p a st t e He) by now right.
        intros H. injection H as <-. apply (I_throw a t e); auto; lia.
      * rewrite (rethrow_once_retry h p a st t e He Hr) by lia.
        rewrite Hs, wrap32_in_range by (unfold INT_MIN, INT_MAX in *; lia).
        apply IH; try assumption; [lia|]. apply I_retry; auto; lia.
    + rewrite (rethrow_once_throw h p a st t e He) by now left.
      intros H. injection H as <-. apply (I_throw a t e); auto; lia.
  - apply failure_at_inr in He as [rows He].
    rewrite (rethrow_once_success h p a st t rows He).
    cbn [RethrowInCatch.success]. intros H. injection H as <-.
    apply (I_success a t rows); auto; lia.
Qed.

End RethrowInvariant.

(** The same for the loop of [src/pg_retry.c], whose counter may wrap around
    and whose rounds go on after an error has been stored. *)
Section RetainLastInvariant.

Variables (h : Host) (p : Params).
Variable I : Z -> RetainLast.Locals -> Trace -> Prop.
Variable F : RetainLast.Locals * Trace -> Prop.

Hypothesis I_success : forall (a : Z) (st : RetainLast.Locals) (t : Trace) (rows : Z),
  I a st t -> RetainLast.success st = false -> a <= max_tries p ->
  try_block (SPI_execute h (n_attempts t)) = inr rows ->
  F ({| RetainLast.processed_rows := rows; RetainLast.success := true;
        RetainLast.last_error := RetainLast.last_error st |}, t ++ success_round).

Hypothesis I_save : forall (a : Z) (st : RetainLast.Locals) (t : Trace) (e : ErrorData),
  I a st t -> RetainLast.success st = false -> a <= max_tries p ->
  failure_at h (n_attempts t) = Some e ->
  should_retry e (retry_sqlstates p) = false \/ a = max_tries p ->
  I (wrap32 (a + 1))
    {| RetainLast.processed_rows := RetainLast.processed_rows st;
       RetainLast.success := RetainLast.success st;
       RetainLast.last_error := Some e |}
    (t ++ failed_round p a e).

Hypothesis I_retry : forall (a : Z) (st : RetainLast.Locals) (t : Trace) (e : ErrorData),
  I a st t -> RetainLast.success st = false -> a < max_tries p ->
  failure_at h (n_attempts t) = Some e ->
  should_retry e (retry_sqlstates p) = true ->
  I (wrap32 (a + 1)) st (t ++ retry_round h p a e (n_sleeps t)).

Hypothesis I_exit : forall (a : Z) (st : RetainLast.Locals) (t : Trace),
  I a st t -> RetainLast.success st = false -> max_tries p < a -> F (st, t).

Lemma retain_last_loop_invariant (fuel : nat) :
  forall (a : Z) (st : RetainLast.Locals) (t : Trace) (x : RetainLast.Locals * Trace),
    RetainLast.success st = false ->
    I a st t ->
    RetainLast.retry_loop fuel h p a st t = Some x ->
    F x.
Proof.
  induction fuel as [|fuel IH]; intros a st t x Hs Hi;
    cbn [RetainLast.retry_loop]; [discriminate|].
  destruct (a <=? max_tries p) eqn:Hle.
  2:{ apply Z.leb_gt in Hle. intros H. injection H as <-. now apply (I_exit a). }
  apply Z.leb_le in Hle.
  destruct (failure_at h (n_attempts t)) as [e|] eqn:He.
  - destruct (should_retry e (retry_sqlstates p)) eqn:Hr.
    + destruct (Z.eq_dec a (max_tries p)) as [Hlast|Hlast].
      * rewrite (retain_last_once_save h p a st t e He) by now right.
        set (st' := RetainLast.mkLocals _ _ _).
        assert (Hs' : RetainLast.success st' = false) by exact Hs.
        cbv beta iota. rewrite Hs'.
        apply IH; [exact Hs'|]. unfold st'. apply I_save; auto.
      * rewrite (retain_last_once_retry h p a st t e He Hr) by lia.
        rewrite Hs. apply IH; [exact Hs|]. apply I_retry; auto; lia.
    + rewrite (retain_last_once_save h p a st t e He) by now left.
      set (st' := RetainLast.mkLocals _ _ _).
      assert (Hs' : RetainLast.success st' = false) by exact Hs.
      cbv beta iota. rewrite Hs'.
      apply IH; [exact Hs'|]. unfold st'. apply I_save; auto.
  - apply failure_at_inr in He as [rows He].
    rewrite (retain_last_once_success h p a st t rows He).
    cbn [RetainLast.success]. intros H. injection H as <-.
    now apply (I_success a).
Qed.

End RetainLastInvariant.

(** ** Subtransactions *)

Lemma phase_run_app (s : Phase) (t u : Trace) :
  phase_run s (t ++ u)
  = match phase_run s t with
    | Some s' => phase_run s' u
    | None => None
    end.
Proof.
  revert s. induction t as [|e t IH]; intros s; [reflexivity|].
  cbn [app phase_run]. destruct (phase_step s e); [apply IH | reflexivity].
Qed.

Lemma count_app (test : Event -> bool) (t u : Trace) :
  List.length (filter test (t ++ u))
  = (List.length (filter test t) + List.length (filter test u))%nat.
Proof. now rewrite filter_app, length_app. Qed.

(** A round, or the call of [SPI_finish], may follow any trace that is in
    order: it starts from any phase of rest and ends in one. *)
Lemma events_in_order_app (t u : Trace) :
  events_in_order t = true ->
  (forall s, at_rest s = true ->
             exists s', phase_run s u = Some s' /\ at_rest s' = true) ->
  events_in_order (t ++ u) = true.
Proof.
  unfold events_in_order. rewrite phase_run_app.
  destruct (phase_run Outside t) as [s|]; [|discriminate].
  intros Hs Hu. destruct (Hu s Hs) as [s' [-> Hs']]. exact Hs'.
Qed.

Lemma subxacts_settled_round (released extra : nat) (t u : Trace) :
  subxacts_settled released t ->
  (forall s, at_rest s = true ->
             exists s', phase_run s u = Some s' /\ at_rest s' = true) ->
  n_scopes u = 1%nat -> n_attempts u = 1%nat ->
  n_released u = extra -> (n_rolled_back u + extra)%nat = 1%nat ->
  subxacts_settled (released + extra) (t ++ u).
Proof.
  intros [H1 [H2 [H3 H4]]] U1 U2 U3 U4 U5.
  split; [now apply events_in_order_app|].
  unfold n_scopes, n_attempts, n_released, n_rolled_back in *.
  rewrite !count_app. repeat split; lia.
Qed.

Lemma subxacts_settled_success (t : Trace) :
  subxacts_settled 0 t -> subxacts_settled 1 (t ++ success_round).
Proof.
  intros H. apply (subxacts_settled_round 0 1); try assumption; try reflexivity.
  intros s Hs. exists Outside. now destruct s.
Qed.

Lemma subxacts_settled_failed (p : Params) (a : Z) (e : ErrorData) (t : Trace) :
  subxacts_settled 0 t -> subxacts_settled 0 (t ++ failed_round p a e).
Proof.
  intros H. apply (subxacts_settled_round 0 0); try assumption;
    unfold failed_round; destruct (should_retry e (retry_sqlstates p));
    try reflexivity; intros s Hs;
    [exists Warned | exists RolledBack]; now destruct s.
Qed.

Lemma subxacts_settled_retry (h : Host) (p : Params) (a : Z) (e : ErrorData) (n : nat)
    (t : Trace) :
  subxacts_settled 0 t -> subxacts_settled 0 (t ++ retry_round h p a e n).
Proof.
  intros H. apply (subxacts_settled_round 0 0); try assumption; try reflexivity.
  intros s Hs. exists Outside. now destruct s.
Qed.

Lemma subxacts_settled_finish (released : nat) (t : Trace) :
  subxacts_settled released t -> subxacts_settled released (t ++ [EvSpiFinish]).
Proof.
  intros [H1 [H2 [H3 H4]]]. split.
  - apply events_in_order_app; [exact H1|]. intros s Hs. exists Outside. now destruct s.
  - unfold n_scopes, n_attempts, n_released, n_rolled_back in *.
    rewrite !count_app. cbn. repeat split; lia.
Qed.

(** Whatever the executions do, and in both variants: every attempt runs
    in a subtransaction of its own, which is begun right before the
    execution and released or rolled back right after it; a warning comes
    only right after a rollback, a wait only right after a warning, and
    every wait is followed at once by the check for interrupts; no
    subtransaction is left open when the call ends; and exactly one
    subtransaction is released when rows are returned, none when an error
    is propagated, all the others being rolled back. *)
Theorem every_attempt_in_its_own_subtransaction
    (fuel : nat) (h : Host) (p : Params) (r : Result) (t : Trace) :
  1 <= max_tries p <= INT_MAX ->
  RetainLast.run_validated fuel h p = Some (r, t)
  \/ RethrowInCatch.run_validated fuel h p = Some (r, t) ->
  events_in_order t = true
  /\ n_scopes t = n_attempts t
  /\ n_released t = match r with Returned _ => 1%nat | _ => 0%nat end
  /\ (n_rolled_back t + n_released t)%nat = n_attempts t.
Proof.
  intros Hm Hrun.
  assert (Hgoal : subxacts_settled match r with Returned _ => 1%nat | _ => 0%nat end t).
  { destruct Hrun as [Hrun|Hrun]; revert Hrun.
    - unfold RetainLast.run_validated.
      destruct (negb (SPI_connect_ext h =? SPI_OK_CONNECT)).
      { intros H. injection H as <- <-. now repeat split. }
      destruct (RetainLast.retry_loop fuel h p 1 RetainLast.init [EvSpiConnect])
        as [[st' t']|] eqn:Hl; [|discriminate].
      apply (retain_last_loop_invariant h p
               (fun _ _ t => subxacts_settled 0 t)
               (fun x => subxacts_settled (if RetainLast.success (fst x) then 1 else 0)
                           (snd x))) in Hl.
      + cbn [fst snd] in Hl. unfold RetainLast.finish.
        destruct (RetainLast.success st'); [|destruct (RetainLast.last_error st')];
          intros H; injection H as <- <-; now apply subxacts_settled_finish.
      + intros a st u rows Hi _ _ _. cbn [fst snd RetainLast.success].
        now apply subxacts_settled_success.
      + intros a st u e Hi _ _ _ _. now apply subxacts_settled_failed.
      + intros a st u e Hi _ _ _ _. now apply subxacts_settled_retry.
      + intros a st u Hi Hs _. cbn [fst snd]. now rewrite Hs.
      + reflexivity.
      + now repeat split.
    - unfold RethrowInCatch.run_validated.
      destruct (negb (SPI_connect_ext h =? SPI_OK_CONNECT)).
      { intros H. injection H as <- <-. now repeat split. }
      destruct (RethrowInCatch.retry_loop fuel h p 1 RethrowInCatch.init [EvSpiConnect])
        as [rd|] eqn:Hl; [|discriminate].
      apply (rethrow_loop_invariant h p
               (fun _ t => subxacts_settled 0 t)
               (fun rd => match rd with
                          | RethrowInCatch.Falls st u =>
                              RethrowInCatch.success st = true /\ subxacts_settled 1 u
                          | RethrowInCatch.Throws _ u => subxacts_settled 0 u
                          end)) in Hl.
      + unfold RethrowInCatch.finish. destruct rd as [st' t'|e t'].
        * destruct Hl as [-> Hl]. intros H. injection H as <- <-.
          now apply subxacts_settled_finish.
        * intros H. injection H as <- <-. exact Hl.
      + intros a u rows Hi _ _. split; [reflexivity|].
        now apply subxacts_settled_success.
      + intros a u e Hi _ _ _. now apply subxacts_settled_failed.
      + intros a u e Hi _ _ _. now apply subxacts_settled_retry.
      + unfold INT_MIN. lia.
      + lia.
      + reflexivity.
      + now repeat split. }
  destruct Hgoal as [H1 [H2 [H3 H4]]].
  rewrite H3. repeat split; assumption.
Qed.

(** ** The SPI connection *)

Lemma n_finished_app (t u : Trace) :
  n_finished (t ++ u) = (n_finished t + n_finished u)%nat.
Proof. apply count_app. Qed.

Lemma n_finished_failed (p : Params) (a : Z) (e : ErrorData) :
  n_finished (failed_round p a e) = 0%nat.
Proof. unfold failed_round. now destruct (should_retry e (retry_sqlstates p)). Qed.

(** Once connected, [src/pg_retry.c] calls [SPI_finish] exactly once, as the
    last thing it does to the host, whether it returns rows or rethrows;
    [src/src/pg_retry.c] does so only when it returns rows: when it rethrows a
    failure it leaves from the catch handler and never calls [SPI_finish]. *)
Theorem spi_finish_is_skipped_by_the_rethrow_in_catch
    (fuel : nat) (h : Host) (p : Params) (r : Result) (t : Trace) :
  1 <= max_tries p <= INT_MAX ->
  SPI_connect_ext h = SPI_OK_CONNECT ->
  (RetainLast.run_validated fuel h p = Some (r, t) ->
   exists t', t = t' ++ [EvSpiFinish] /\ n_finished t' = 0%nat)
  /\ (RethrowInCatch.run_validated fuel h p = Some (r, t) ->
      match r with
      | Returned _ => exists t', t = t' ++ [EvSpiFinish] /\ n_finished t' = 0%nat
      | _ => exists e, r = Rethrown e /\ n_finished t = 0%nat
      end).
Proof.
  intros Hm Hc. split.
  - unfold RetainLast.run_validated. rewrite Hc.
    cbn [Z.eqb negb Pos.eqb SPI_OK_CONNECT].
    destruct (RetainLast.retry_loop fuel h p 1 RetainLast.init [EvSpiConnect])
      as [[st' t']|] eqn:Hl; [|discriminate].
    apply (retain_last_loop_invariant h p
             (fun _ _ t => n_finished t = 0%nat)
             (fun x => n_finished (snd x) = 0%nat)) in Hl.
    + cbn [snd] in Hl. unfold RetainLast.finish.
      destruct (RetainLast.success st'); [|destruct (RetainLast.last_error st')];
        intros H; injection H as <- <-; now exists t'.
    + intros a st u rows Hi _ _ _. cbn [snd]. now rewrite n_finished_app, Hi.
    + intros a st u e Hi _ _ _ _. now rewrite n_finished_app, Hi, n_finished_failed.
    + intros a st u e Hi _ _ _ _. now rewrite n_finished_app, Hi.
    + intros a st u Hi _ _. exact Hi.
    + reflexivity.
    + reflexivity.
  - unfold RethrowInCatch.run_validated. rewrite Hc.
    cbn [Z.eqb negb Pos.eqb SPI_OK_CONNECT].
    destruct (RethrowInCatch.retry_loop fuel h p 1 RethrowInCatch.init [EvSpiConnect])
      as [rd|] eqn:Hl; [|discriminate].
    apply (rethrow_loop_invariant h p
             (fun _ t => n_finished t = 0%nat)
             (fun rd => n_finished (trace_of rd) = 0%nat
                        /\ match rd with
                           | RethrowInCatch.Falls st _ => RethrowInCatch.success st = true
                           | RethrowInCatch.Throws _ _ => True
                           end)) in Hl.
    + unfold RethrowInCatch.finish. destruct rd as [st' t'|e t']; cbn [trace_of] in Hl.
      * destruct Hl as [Hl ->]. intros H. injection H as <- <-. now exists t'.
      * destruct Hl as [Hl _]. intros H. injection H as <- <-. now exists e.
    + intros a u rows Hi _ _. cbn [trace_of]. now rewrite n_finished_app, Hi.
    + intros a u e Hi _ _ _. cbn [trace_of].
      now rewrite n_finished_app, Hi, n_finished_failed.
    + intros a u e Hi _ _ _. now rewrite n_finished_app, Hi.
    + unfold INT_MIN. lia.
    + lia.
    + reflexivity.
    + reflexivity.
Qed.

(** ** Success after retried failures *)

(** When the first [n] executions fail with retryable errors and the next
    one returns a result code that is not negative, with attempts left for
    it, both variants make [n + 1] attempts, warn and wait [n] times and
    return [SPI_processed] as the [int] it is stored in: the row count
    itself while it fits, its low 32 bits otherwise. *)
Theorem success_after_retried_failures
    (h : Host) (p : Params) (n fuel : nat) (code processed : Z) :
  SPI_connect_ext h = SPI_OK_CONNECT ->
  Z.of_nat (S n) <= max_tries p <= INT_MAX ->
  (forall k, (k < n)%nat -> retryable_failure h (retry_sqlstates p) k = true) ->
  SPI_execute h n = SpiReturns code processed ->
  0 <= code ->
  (n < fuel)%nat ->
  exists tA tB,
    RetainLast.run_validated fuel h p = Some (Returned (wrap32 processed), tA)
    /\ RethrowInCatch.run_validated fuel h p = Some (Returned (wrap32 processed), tB)
    /\ n_attempts tA = S n /\ n_sleeps tA = n /\ n_warnings tA = n
    /\ n_attempts tB = S n /\ n_sleeps tB = n /\ n_warnings tB = n
    /\ (0 <= processed <= INT_MAX -> wrap32 processed = processed).
Proof.
  intros Hc Hm Hall Hex Hcode Hfuel.
  assert (Htry : try_block (SPI_execute h n) = inr (wrap32 processed)).
  { rewrite Hex. cbn [try_block]. now rewrite (proj2 (Z.ltb_ge code 0)) by lia. }
  unfold RetainLast.run_validated, RethrowInCatch.run_validated. rewrite Hc.
  cbn [Z.eqb negb Pos.eqb SPI_OK_CONNECT].
  replace fuel with (n + S (fuel - S n))%nat by lia.
  destruct (retain_last_loop_retries h p n 1 RetainLast.init [EvSpiConnect] (S (fuel - S n)))
    as [uA [Aa [As [Aw HloopA]]]]; try reflexivity; try lia.
  { unfold INT_MIN. lia. }
  { intros i Hi. apply Hall. exact Hi. }
  destruct (rethrow_loop_retries h p n 1 RethrowInCatch.init [EvSpiConnect] (S (fuel - S n)))
    as [uB [Ba [Bs [Bw HloopB]]]]; try reflexivity; try lia.
  { unfold INT_MIN. lia. }
  { intros i Hi. apply Hall. exact Hi. }
  rewrite HloopA, HloopB.
  assert (HnA : n_attempts ([EvSpiConnect] ++ uA) = n)
    by (rewrite n_attempts_app, Aa; reflexivity).
  assert (HnB : n_attempts ([EvSpiConnect] ++ uB) = n)
    by (rewrite n_attempts_app, Ba; reflexivity).
  rewrite (retain_last_loop_success h p _ (1 + Z.of_nat n) _ _ (wrap32 processed));
    [|lia|now rewrite HnA].
  rewrite (rethrow_loop_success h p _ (1 + Z.of_nat n) _ _ (wrap32 processed));
    [|lia|now rewrite HnB].
  unfold RetainLast.finish, RethrowInCatch.finish.
  cbn [RetainLast.success RethrowInCatch.success
       RetainLast.processed_rows RethrowInCatch.processed_rows].
  do 2 eexists. split; [reflexivity|]. split; [reflexivity|].
  rewrite !n_attempts_finish, !n_sleeps_finish, !n_warnings_finish.
  rewrite !n_attempts_app, !n_sleeps_app, !n_warnings_app, Aa, As, Aw, Ba, Bs, Bw.
  change (n_attempts [EvSpiConnect]) with 0%nat.
  change (n_sleeps [EvSpiConnect]) with 0%nat.
  change (n_warnings [EvSpiConnect]) with 0%nat.
  change (n_attempts success_round) with 1%nat.
  change (n_sleeps success_round) with 0%nat.
  change (n_warnings success_round) with 0%nat.
  repeat (split; [lia|]).
  intros Hr. apply wrap32_in_range. unfold INT_MIN. lia.
Qed.

(** ** A negative result code *)

(** A negative result code of [SPI_execute] is turned into an error of the
    engine's own, with code XX000 and the result code in its message; it is
    classified like any other failure, so that it is retried exactly when
    the list holds "XX000", and [src/src/pg_retry.c] rethrows it after that one
    attempt when the list does not. *)
Theorem negative_result_code_is_an_internal_error
    (h : Host) (p : Params) (fuel : nat) (code processed : Z) :
  SPI_connect_ext h = SPI_OK_CONNECT ->
  1 <= max_tries p <= INT_MAX ->
  SPI_execute h 0 = SpiReturns code processed ->
  code < 0 ->
  (1 <= fuel)%nat ->
  let e := ereport_error ERRCODE_INTERNAL_ERROR
             ("pg_retry: SPI_execute failed with code " ++ fmt_d code)%string in
  failure_at h 0 = Some e
  /\ unpack_sql_state (sqlerrcode e) = "XX000"%string
  /\ (should_retry e (retry_sqlstates p) = true
      <-> In (Some "XX000"%string) (retry_sqlstates p))
  /\ (~ In (Some "XX000"%string) (retry_sqlstates p) ->
      RethrowInCatch.run_validated fuel h p
      = Some (Rethrown e, [EvSpiConnect; EvBeginSub; EvExecute; EvRollbackSub])).
Proof.
  intros Hc Hm Hex Hcode Hfuel e.
  assert (He : failure_at h 0 = Some e).
  { unfold failure_at. rewrite Hex. cbn [try_block].
    now rewrite (proj2 (Z.ltb_lt code 0)) by lia. }
  assert (Hr : should_retry e (retry_sqlstates p) = true
               <-> In (Some "XX000"%string) (retry_sqlstates p)).
  { unfold should_retry. cbn [e ereport_error sqlerrcode].
    change (ERRCODE_INTERNAL_ERROR =? 0) with false.
    change (unpack_sql_state ERRCODE_INTERNAL_ERROR) with "XX000"%string.
    apply is_retryable_sqlstate_In. }
  split; [exact He|]. split; [reflexivity|]. split; [exact Hr|].
  intros Hnot.
  assert (Hno : should_retry e (retry_sqlstates p) = false).
  { destruct (should_retry e (retry_sqlstates p)); [|reflexivity].
    exfalso. now apply Hnot, Hr. }
  unfold RethrowInCatch.run_validated. rewrite Hc.
  cbn [Z.eqb negb Pos.eqb SPI_OK_CONNECT].
  destruct fuel as [|fuel]; [lia|].
  rewrite (rethrow_loop_throw h p fuel 1 _ _ e); [|lia|exact He|now left].
  cbn [RethrowInCatch.finish]. unfold failed_round. rewrite Hno. reflexivity.
Qed.

(** ** The warnings *)

Lemma nth_error_snoc {A : Type} (l : list A) (x w : A) (k : nat) :
  nth_error (l ++ [x]) k = Some w ->
  nth_error l k = Some w \/ (k = List.length l /\ w = x).
Proof.
  intros H. destruct (Nat.lt_ge_cases k (List.length l)) as [Hlt|Hge].
  - left. now rewrite nth_error_app1 in H.
  - right. rewrite nth_error_app2 in H by exact Hge.
    destruct (k - List.length l)%nat as [|j] eqn:E; cbn in H.
    + injection H as <-. split; [lia | reflexivity].
    + now destruct j.
Qed.

Lemma warnings_retry_round (h : Host) (p : Params) (a : Z) (e : ErrorData) (n : nat) :
  warnings (retry_round h p a e n) = [EvWarning (retry_warning a (max_tries p) e)].
Proof. reflexivity. Qed.

Lemma warnings_failed_round (p : Params) (a : Z) (e : ErrorData) :
  warnings (failed_round p a e)
  = if should_retry e (retry_sqlstates p)
    then [EvWarning (retry_warning a (max_tries p) e)] else [].
Proof. unfold failed_round. now destruct (should_retry e (retry_sqlstates p)). Qed.

(** What the loop of [src/src/pg_retry.c] keeps: every attempt so far has
    failed and was warned about, in order. *)
Lemma warned_so_far_step (h : Host) (p : Params) (a : Z) (e : ErrorData) (t : Trace) :
  Z.of_nat (n_attempts t) = a - 1 ->
  n_warnings t = n_attempts t ->
  (forall k w, nth_error (warnings t) k = Some w -> warning_of h p k w) ->
  failure_at h (n_attempts t) = Some e ->
  should_retry e (retry_sqlstates p) = true ->
  forall k w,
    nth_error (warnings t ++ [EvWarning (retry_warning a (max_tries p) e)]) k = Some w ->
    warning_of h p k w.
Proof.
  intros Ha Hw Hall He Hr k w H.
  apply nth_error_snoc in H as [H | [-> ->]]; [now apply Hall|].
  exists e. fold (n_warnings t). rewrite Hw. split; [exact He|]. split; [exact Hr|].
  do 2 f_equal. lia.
Qed.

(** In [src/src/pg_retry.c] the warnings number the attempts: the warning
    at position [k] of a call (from 0) is the one for attempt [k + 1]; it
    names that attempt, [max_tries], and the SQLSTATE and message of the
    failure of execution [k], which was a retryable one; and every attempt
    but possibly the last one is warned about. *)
Theorem warnings_number_the_attempts
    (fuel : nat) (h : Host) (p : Params) (r : Result) (t : Trace) :
  1 <= max_tries p <= INT_MAX ->
  RethrowInCatch.run_validated fuel h p = Some (r, t) ->
  (forall k w, nth_error (warnings t) k = Some w -> warning_of h p k w)
  /\ (n_warnings t <= n_attempts t <= S (n_warnings t))%nat.
Proof.
  intros Hm. unfold RethrowInCatch.run_validated.
  destruct (negb (SPI_connect_ext h =? SPI_OK_CONNECT)).
  { intros H. injection H as <- <-. split; [|cbn; lia].
    intros k w H. now destruct k. }
  destruct (RethrowInCatch.retry_loop fuel h p 1 RethrowInCatch.init [EvSpiConnect])
    as [rd|] eqn:Hl; [|discriminate].
  apply (rethrow_loop_invariant h p
           (fun a t => Z.of_nat (n_attempts t) = a - 1
                       /\ n_warnings t = n_attempts t
                       /\ (forall k w, nth_error (warnings t) k = Some w ->
                                       warning_of h p k w))
           (fun rd => (forall k w, nth_error (warnings (trace_of rd)) k = Some w ->
                                   warning_of h p k w)
                      /\ (n_warnings (trace_of rd) <= n_attempts (trace_of rd)
                          <= S (n_warnings (trace_of rd)))%nat)) in Hl.
  - unfold RethrowInCatch.finish. destruct rd as [st' t'|e t']; cbn [trace_of] in Hl.
    + assert (Hw : warnings (t' ++ [EvSpiFinish]) = warnings t')
        by (rewrite warnings_app; apply app_nil_r).
      destruct (RethrowInCatch.success st'); intros H; injection H as <- <-;
        rewrite n_warnings_finish, n_attempts_finish, Hw; exact Hl.
    + intros H. injection H as <- <-. exact Hl.
  - intros a u rows [Ha [Hw Hall]] _ _. cbn [trace_of].
    rewrite warnings_app, n_warnings_app, n_attempts_app.
    change (warnings success_round) with (@nil Event). rewrite app_nil_r.
    split; [exact Hall|]. cbn. lia.
  - intros a u e [Ha [Hw Hall]] _ He _. cbn [trace_of].
    rewrite warnings_app, n_warnings_app, n_attempts_app, warnings_failed_round.
    destruct (failed_round_counts p a e) as [Fa [_ Fw]]. rewrite Fa, Fw.
    destruct (should_retry e (retry_sqlstates p)) eqn:Hr.
    + split; [|lia]. now apply warned_so_far_step.
    + rewrite app_nil_r. split; [exact Hall | lia].
  - intros a u e [Ha [Hw Hall]] _ He Hr.
    rewrite warnings_app, n_warnings_app, n_attempts_app, warnings_retry_round.
    destruct (retry_round_counts h p a e (n_sleeps u)) as [Ra [_ Rw]]. rewrite Ra, Rw.
    split; [lia|]. split; [lia|]. now apply warned_so_far_step.
  - unfold INT_MIN. lia.
  - lia.
  - reflexivity.
  - split; [reflexivity|]. split; [reflexivity|]. intros k w H. now destruct k.
Qed.

(** ** The waits *)

Lemma sleep_usecs_app (t u : Trace) : sleep_usecs (t ++ u) = sleep_usecs t ++ sleep_usecs u.
Proof. apply flat_map_app. Qed.

Lemma sleep_usecs_length (t : Trace) : List.length (sleep_usecs t) = n_sleeps t.
Proof.
  unfold n_sleeps, sleep_usecs. induction t as [|e t IH]; [reflexivity|].
  destruct e; cbn [flat_map filter is_sleep app List.length];
    rewrite ?IH; reflexivity.
Qed.

Lemma sleep_usecs_failed (p : Params) (a : Z) (e : ErrorData) :
  sleep_usecs (failed_round p a e) = [].
Proof. unfold failed_round. now destruct (should_retry e (retry_sqlstates p)). Qed.

Lemma total_sleep_bound (bound : Z) (l : list Z) :
  Forall (fun usec => usec <= bound) l ->
  fold_right Z.add 0 l <= Z.of_nat (List.length l) * bound.
Proof.
  induction 1 as [|x l Hx Hl IH]; [cbn; lia|].
  cbn [fold_right List.length]. lia.
Qed.

Lemma wrap_long_in_range (w : LongWidth) (z : Z) :
  LONG_MIN w <= z <= LONG_MAX w -> wrap_long w z = z.
Proof.
  destruct w; unfold wrap_long, LONG_MIN, LONG_MAX, LONG_BIT; intros H;
    rewrite Z.mod_small by lia; lia.
Qed.

(** Where a [long] has 64 bits the longest wait fits it, for every cap that
    is an [int]. *)
Lemma waits_fit_64_bit_long (max : Z) : max <= INT_MAX -> waits_fit_long Long64 max.
Proof.
  intros Hm. unfold waits_fit_long, longest_delay_ms. rewrite Qfloor_scaled.
  assert (12 * max / 10 <= 12 * INT_MAX / 10) by (apply Z.div_le_mono; lia).
  change (12 * INT_MAX / 10) with 2576980376 in *.
  change (LONG_MAX Long64) with 9223372036854775807. lia.
Qed.

(** The delay lies between 1 ms and a fifth above the cap. *)
Lemma calculate_delay_range (w : LongWidth) (u : Q) (attempt base max : Z) :
  (0 <= u)%Q -> (u <= 1)%Q ->
  1 <= attempt <= INT_MAX ->
  0 <= base <= max ->
  max <= INT_MAX ->
  1 <= calculate_delay w u attempt base max <= longest_delay_ms max.
Proof.
  intros H0 H1 Ha Hb Hm.
  rewrite (calculate_delay_finite w u attempt base max H0 H1 Ha Hb Hm).
  pose proof (capped_delay_ms_range attempt base max ltac:(lia) Hb) as Hn.
  set (n := capped_delay_ms attempt base max) in *.
  destruct (round_double_between u 0 1) as [Hu0 Hu1]; try assumption; try small_int.
  change (inject_Z 0) with 0%Q in Hu0. change (inject_Z 1) with 1%Q in Hu1.
  destruct (jittered_delay_floor (round_double u) n Hu0 Hu1 ltac:(lia)) as [HJ0 [_ Hhi]].
  rewrite (long_of_double_floor w _ HJ0).
  pose proof (LONG_MIN_negative w) as Hmin.
  unfold longest_delay_ms. rewrite Qfloor_scaled.
  assert (12 * n / 10 <= 12 * max / 10) by (apply Z.div_le_mono; lia).
  destruct (_ <=? LONG_MAX w); lia.
Qed.

Lemma wait_in_bounds_delay (w : LongWidth) (u : Q) (attempt base max : Z) :
  (0 <= u)%Q -> (u <= 1)%Q ->
  1 <= attempt <= INT_MAX ->
  0 <= base <= max ->
  max <= INT_MAX ->
  waits_fit_long w max ->
  wait_in_bounds max (wrap_long w (calculate_delay w u attempt base max * 1000)).
Proof.
  intros H0 H1 Ha Hb Hm Hfit.
  pose proof (calculate_delay_range w u attempt base max H0 H1 Ha Hb Hm) as Hr.
  pose proof (LONG_MIN_negative w) as Hmin.
  unfold waits_fit_long in Hfit.
  rewrite wrap_long_in_range by lia.
  unfold wait_in_bounds.
  split; [lia | apply Z.mod_mul; lia].
Qed.

(** Where a [long] has 32 bits the product [delay_ms * 1000L] wraps around
    for a delay beyond 2147 s: a wait of 3000 s reaches [pg_usleep] as a
    negative number. *)
Lemma wait_wraps_on_32_bit_long :
  calculate_delay Long32 (1 # 2) 1 3000000 3000000 = 3000000
  /\ wrap_long Long32 (calculate_delay Long32 (1 # 2) 1 3000000 3000000 * 1000)
     = -1294967296
  /\ ~ waits_fit_long Long32 3000000.
Proof.
  split; [vm_compute; reflexivity|]. split; [vm_compute; reflexivity|].
  intros H. vm_compute in H. apply H. reflexivity.
Qed.

(** With validated delays and draws within [0, 1], and where a fifth above
    [max_delay_ms], in microseconds, fits a [long] (as it always does when
    a [long] has 64 bits), every wait that reaches [pg_usleep], the product
    [delay_ms * 1000L] reduced to a [long], is a whole number of
    milliseconds between 1 ms and a fifth above [max_delay_ms]; there are
    at most [max_tries - 1] waits, and so the call never sleeps for longer,
    in all, than [max_tries - 1] times the longest single wait.  This holds
    of [src/src/pg_retry.c] always and of [src/pg_retry.c] for [max_tries] below
    [INT_MAX]. *)
Theorem waits_are_bounded
    (fuel : nat) (h : Host) (p : Params) (r : Result) (t : Trace) :
  1 <= max_tries p ->
  0 <= base_delay_ms p <= max_delay_ms p ->
  max_delay_ms p <= INT_MAX ->
  (forall k, (0 <= prng h k)%Q /\ (prng h k <= 1)%Q) ->
  long_width h = Long64 \/ waits_fit_long (long_width h) (max_delay_ms p) ->
  (max_tries p < INT_MAX /\ RetainLast.run_validated fuel h p = Some (r, t))
  \/ (max_tries p <= INT_MAX /\ RethrowInCatch.run_validated fuel h p = Some (r, t)) ->
  Forall (wait_in_bounds (max_delay_ms p)) (sleep_usecs t)
  /\ Z.of_nat (n_sleeps t) <= max_tries p - 1
  /\ total_sleep_usec t
     <= (max_tries p - 1) * (1000 * longest_delay_ms (max_delay_ms p)).
Proof.
  intros Hm Hb Hd Hu Hfits Hrun.
  assert (Hfit : waits_fit_long (long_width h) (max_delay_ms p)).
  { destruct Hfits as [E | Hfit]; [|exact Hfit].
    rewrite E. apply waits_fit_64_bit_long. exact Hd. }
  assert (Hstep : forall a e u,
             1 <= a < max_tries p -> max_tries p <= INT_MAX ->
             Forall (wait_in_bounds (max_delay_ms p)) (sleep_usecs u) ->
             Forall (wait_in_bounds (max_delay_ms p))
               (sleep_usecs (u ++ retry_round h p a e (n_sleeps u)))).
  { intros a e u Ha Hmax Hall. rewrite sleep_usecs_app. apply Forall_app.
    split; [exact Hall|]. cbn [retry_round sleep_usecs flat_map app].
    constructor; [|constructor].
    destruct (Hu (n_sleeps u)) as [U0 U1].
    apply wait_in_bounds_delay; try assumption; lia. }
  assert (Hgoal : Forall (wait_in_bounds (max_delay_ms p)) (sleep_usecs t)
                  /\ Z.of_nat (n_sleeps t) <= max_tries p - 1).
  { destruct Hrun as [[Hmax Hrun]|[Hmax Hrun]]; revert Hrun.
    - unfold RetainLast.run_validated.
      destruct (negb (SPI_connect_ext h =? SPI_OK_CONNECT)).
      { intros H. injection H as <- <-. split; [constructor | cbn; lia]. }
      destruct (RetainLast.retry_loop fuel h p 1 RetainLast.init [EvSpiConnect])
        as [[st' t']|] eqn:Hl; [|discriminate].
      apply (retain_last_loop_invariant h p
               (fun a _ t => 1 <= a <= max_tries p + 1
                             /\ Z.of_nat (n_sleeps t) <= a - 1
                             /\ Z.of_nat (n_sleeps t) <= max_tries p - 1
                             /\ Forall (wait_in_bounds (max_delay_ms p)) (sleep_usecs t))
               (fun x => Forall (wait_in_bounds (max_delay_ms p)) (sleep_usecs (snd x))
                         /\ Z.of_nat (n_sleeps (snd x)) <= max_tries p - 1)) in Hl.
      + cbn [snd] in Hl. unfold RetainLast.finish.
        destruct (RetainLast.success st'); [|destruct (RetainLast.last_error st')];
          intros H; injection H as <- <-;
          rewrite sleep_usecs_app, n_sleeps_finish, app_nil_r; exact Hl.
      + intros a st u rows [Ha [Hs1 [Hs2 Hall]]] _ _ _. cbn [snd].
        rewrite sleep_usecs_app, n_sleeps_app, app_nil_r.
        split; [exact Hall | cbn; lia].
      + intros a st u e [Ha [Hs1 [Hs2 Hall]]] _ Hle _ _.
        rewrite wrap32_in_range by (unfold INT_MIN, INT_MAX in *; lia).
        rewrite sleep_usecs_app, n_sleeps_app, sleep_usecs_failed, app_nil_r.
        rewrite (proj1 (proj2 (failed_round_counts p a e))).
        repeat split; try assumption; lia.
      + intros a st u e [Ha [Hs1 [Hs2 Hall]]] _ Hlt _ _.
        rewrite wrap32_in_range by (unfold INT_MIN, INT_MAX in *; lia).
        rewrite n_sleeps_app.
        rewrite (proj1 (proj2 (retry_round_counts h p a e (n_sleeps u)))).
        repeat split; try lia. apply Hstep; try assumption; lia.
      + intros a st u [Ha [Hs1 [Hs2 Hall]]] _ _. cbn [snd]. now split.
      + reflexivity.
      + repeat split; try (cbn; lia). constructor.
    - unfold RethrowInCatch.run_validated.
      destruct (negb (SPI_connect_ext h =? SPI_OK_CONNECT)).
      { intros H. injection H as <- <-. split; [constructor | cbn; lia]. }
      destruct (RethrowInCatch.retry_loop fuel h p 1 RethrowInCatch.init [EvSpiConnect])
        as [rd|] eqn:Hl; [|discriminate].
      apply (rethrow_loop_invariant h p
               (fun a t => 1 <= a
                           /\ Z.of_nat (n_sleeps t) <= a - 1
                           /\ Forall (wait_in_bounds (max_delay_ms p)) (sleep_usecs t))
               (fun rd => Forall (wait_in_bounds (max_delay_ms p))
                            (sleep_usecs (trace_of rd))
                          /\ Z.of_nat (n_sleeps (trace_of rd)) <= max_tries p - 1)) in Hl.
      + unfold RethrowInCatch.finish. destruct rd as [st' t'|e t']; cbn [trace_of] in Hl.
        * destruct (RethrowInCatch.success st'); intros H; injection H as <- <-;
            rewrite sleep_usecs_app, n_sleeps_finish, app_nil_r; exact Hl.
        * intros H. injection H as <- <-. exact Hl.
      + intros a u rows [Ha [Hs Hall]] Hle _. cbn [trace_of].
        rewrite sleep_usecs_app, n_sleeps_app, app_nil_r.
        split; [exact Hall | cbn; lia].
      + intros a u e [Ha [Hs Hall]] Hle _ _. cbn [trace_of].
        rewrite sleep_usecs_app, n_sleeps_app, sleep_usecs_failed, app_nil_r.
        rewrite (proj1 (proj2 (failed_round_counts p a e))).
        split; [exact Hall | lia].
      + intros a u e [Ha [Hs Hall]] Hlt _ _.
        rewrite n_sleeps_app.
        rewrite (proj1 (proj2 (retry_round_counts h p a e (n_sleeps u)))).
        repeat split; try lia. apply Hstep; try assumption; lia.
      + unfold INT_MIN. lia.
      + exact Hmax.
      + reflexivity.
      + repeat split; try (cbn; lia). constructor. }
  destruct Hgoal as [Hall Hn]. split; [exact Hall|]. split; [exact Hn|].
  unfold total_sleep_usec.
  assert (Hle : Forall (fun usec => usec <= 1000 * longest_delay_ms (max_delay_ms p))
                  (sleep_usecs t)).
  { eapply Forall_impl; [|exact Hall]. cbn beta. intros usec [[_ H] _]. exact H. }
  apply total_sleep_bound in Hle. rewrite sleep_usecs_length in Hle.
  assert (0 <= 1000 * longest_delay_ms (max_delay_ms p))
    by (unfold longest_delay_ms; lia).
  nia.
Qed.

(** ** The backoff schedule *)

Lemma capped_delay_ms_mono (attempt attempt' base max : Z) :
  1 <= attempt <= attempt' -> 0 <= base <= max ->
  capped_delay_ms attempt base max <= capped_delay_ms attempt' base max.
Proof.
  intros Ha Hb. unfold capped_delay_ms.
  destruct (1025 <=? attempt) eqn:E; destruct (1025 <=? attempt') eqn:E';
    try apply Z.leb_le in E; try apply Z.leb_le in E';
    try apply Z.leb_gt in E; try apply Z.leb_gt in E'; try lia.
  assert (2 ^ (attempt - 1) <= 2 ^ (attempt' - 1)) by (apply Z.pow_le_mono_r; lia).
  apply Z.min_le_compat_r. nia.
Qed.

Lemma capped_delay_ms_at_cap (attempt base max : Z) :
  1 <= attempt -> 0 <= base <= max ->
  (inject_Z max <= uncapped attempt base)%Q ->
  capped_delay_ms attempt base max = max.
Proof.
  intros Ha Hb Hc. rewrite (uncapped_integer attempt base Ha), <- Zle_Qle in Hc.
  unfold capped_delay_ms. destruct (1025 <=? attempt); [reflexivity|].
  apply Z.min_r. exact Hc.
Qed.

(** A capped delay that is longer by a millisecond gives a jittered delay
    that is longer: the rounding errors are far below the 0.8 ms that the
    millisecond adds. *)
Lemma jittered_delay_grows (u u' : Q) (n n' : Z) :
  (0 <= u)%Q -> (u <= u')%Q -> (u' <= 1)%Q ->
  0 <= n -> n <= n' -> n' <= INT_MAX ->
  (jittered_delay u (inject_Z n) <= jittered_delay u' (inject_Z n'))%Q.
Proof.
  intros Hu0 Huu Hu1 Hn Hnn Hn'.
  destruct (Z.eq_dec n n') as [<- | Hne].
  - apply jittered_delay_mono; [exact Huu|].
    change 0%Q with (inject_Z 0). rewrite <- Zle_Qle. exact Hn.
  - destruct (jittered_delay_error u n) as [_ Hhi]; [lra | lra | lia |].
    destruct (jittered_delay_error u' n') as [Hlo _]; [lra | lra | lia |].
    cbv zeta in Hhi, Hlo.
    assert (Hstep : (inject_Z n + 1 <= inject_Z n')%Q).
    { change 1%Q with (inject_Z 1). rewrite <- inject_Z_plus, <- Zle_Qle. lia. }
    assert (Hd0 : (0 <= inject_Z n)%Q)
      by (change 0%Q with (inject_Z 0); rewrite <- Zle_Qle; exact Hn).
    set (d := inject_Z n) in *. set (d' := inject_Z n') in *.
    set (J := jittered_delay u d) in *. set (J' := jittered_delay u' d') in *.
    assert (H1 : (0 <= (u' - u) * d')%Q) by (apply Qmult_le_0_compat; lra).
    assert (H2 : (0 <= u * (d' - d - 1))%Q) by (apply Qmult_le_0_compat; lra).
    lra.
Qed.

(** The delay never shrinks from one attempt to a later one or from one
    draw to a larger one, provided a fifth above the cap fits a [long], as
    it always does when a [long] has 64 bits; and it stops growing with the
    attempts as soon as the doubled base has reached the cap: from then on
    it depends on the draw alone. *)
Theorem delay_grows_up_to_the_cap
    (w : LongWidth) (u u' : Q) (attempt attempt' base max : Z) :
  (0 <= u)%Q -> (u <= u')%Q -> (u' <= 1)%Q ->
  1 <= attempt -> attempt <= attempt' -> attempt' <= INT_MAX ->
  0 <= base <= max ->
  max <= INT_MAX ->
  (w = Long64 \/ Qfloor ((12 # 10) * inject_Z max) <= LONG_MAX w ->
   calculate_delay w u attempt base max <= calculate_delay w u' attempt' base max)
  /\ ((inject_Z max <= uncapped attempt base)%Q ->
      calculate_delay w u attempt' base max = calculate_delay w u attempt base max).
Proof.
  intros H0 Huu H1 Ha Haa Ha' Hb Hm.
  rewrite !calculate_delay_finite by (assumption || lia || lra).
  pose proof (capped_delay_ms_mono attempt attempt' base max ltac:(lia) Hb) as Hmono.
  pose proof (capped_delay_ms_range attempt base max Ha Hb) as Hn.
  pose proof (capped_delay_ms_range attempt' base max ltac:(lia) Hb) as Hn'.
  split.
  - intros Hfits.
    set (n := capped_delay_ms attempt base max) in *.
    set (n' := capped_delay_ms attempt' base max) in *.
    destruct (round_double_between u 0 1) as [Hr0 Hr1]; try small_int;
      try (change (inject_Z 0) with 0%Q; change (inject_Z 1) with 1%Q; lra).
    destruct (round_double_between u' 0 1) as [Hr0' Hr1']; try small_int;
      try (change (inject_Z 0) with 0%Q; change (inject_Z 1) with 1%Q; lra).
    change (inject_Z 0) with 0%Q in Hr0, Hr0'. change (inject_Z 1) with 1%Q in Hr1, Hr1'.
    pose proof (round_double_mono u u' Huu) as Hru.
    destruct (jittered_delay_floor (round_double u) n Hr0 Hr1 ltac:(lia)) as [HJ0 [_ Hhi]].
    destruct (jittered_delay_floor (round_double u') n' Hr0' Hr1' ltac:(lia))
      as [HJ0' [_ Hhi']].
    pose proof (jittered_delay_grows (round_double u) (round_double u') n n'
                  Hr0 Hru Hr1' ltac:(lia) Hmono ltac:(lia)) as Hgrow.
    apply Qfloor_resp_le in Hgrow.
    rewrite !long_of_double_floor by assumption.
    rewrite Qfloor_scaled in Hfits.
    assert (Hcap : 12 * max / 10 <= LONG_MAX w).
    { destruct Hfits as [-> | Hfits]; [|exact Hfits].
      assert (12 * max / 10 <= 12 * INT_MAX / 10) by (apply Z.div_le_mono; lia).
      change (12 * INT_MAX / 10) with 2576980376 in *.
      change (LONG_MAX Long64) with 9223372036854775807. lia. }
    assert (12 * n / 10 <= 12 * max / 10) by (apply Z.div_le_mono; lia).
    assert (12 * n' / 10 <= 12 * max / 10) by (apply Z.div_le_mono; lia).
    rewrite !(proj2 (Z.leb_le _ _)) by lia. lia.
  - intros Hcap.
    assert (Hmax : (inject_Z max <= uncapped attempt' base)%Q).
    { rewrite (uncapped_integer attempt base Ha), <- Zle_Qle in Hcap.
      rewrite (uncapped_integer attempt' base ltac:(lia)), <- Zle_Qle.
      assert (2 ^ (attempt - 1) <= 2 ^ (attempt' - 1)) by (apply Z.pow_le_mono_r; lia).
      nia. }
    rewrite (capped_delay_ms_at_cap attempt base max Ha Hb Hcap).
    rewrite (capped_delay_ms_at_cap attempt' base max ltac:(lia) Hb Hmax).
    reflexivity.
Qed.

(** With the draw 1/2 there is no jitter, in doubles as in the reals: half
    the delay times the double 0.4 and the delay times the double 0.2 are
    the same product.  The delay is the base doubled [attempt - 1] times,
    capped at [max_delay_ms] and raised to 1 ms (for a base of 0 up to
    attempt 1024, where [pow] has not overflowed yet). *)
Theorem delay_without_jitter (w : LongWidth) (attempt base max : Z) :
  1 <= attempt <= INT_MAX ->
  0 <= base <= max ->
  max <= INT_MAX ->
  0 < base \/ attempt <= 1024 ->
  calculate_delay w (1 # 2) attempt base max
  = Z.max 1 (Z.min (base * 2 ^ (attempt - 1)) max).
Proof.
  intros Ha Hb Hm Hfin.
  rewrite calculate_delay_finite by (assumption || lra).
  pose proof (capped_delay_ms_range attempt base max ltac:(lia) Hb) as Hn.
  assert (Hcap : capped_delay_ms attempt base max = Z.min (base * 2 ^ (attempt - 1)) max).
  { unfold capped_delay_ms. destruct (1025 <=? attempt) eqn:E; [|reflexivity].
    apply Z.leb_le in E. destruct Hfin as [Hpos | Hsmall]; [|lia].
    assert (2 ^ 31 <= 2 ^ (attempt - 1)) by (apply Z.pow_le_mono_r; lia).
    change (2 ^ 31) with 2147483648 in *. unfold INT_MAX in *.
    symmetry. apply Z.min_r. nia. }
  rewrite <- Hcap.
  set (n := capped_delay_ms attempt base max) in *.
  pose proof (jittered_delay_half n ltac:(lia)) as Hhalf.
  rewrite long_of_double_floor
    by (rewrite Hhalf; change 0%Q with (inject_Z 0); rewrite <- Zle_Qle; lia).
  rewrite (Qfloor_comp _ _ Hhalf), Qfloor_Z.
  pose proof (INT_MAX_fits_long w).
  rewrite (proj2 (Z.leb_le n (LONG_MAX w))) by lia.
  reflexivity.
Qed.

(** ** Validation *)

(** [validate_sql] passes a statement on exactly when the parser returns a
    single statement that is not a transaction-control one, and hands that
    parse tree back; an error of the parser is passed through as it is; any
    other number of statements, none included, is the "exactly one
    statement" error, also when transaction-control statements are among
    them, which [contains_transaction_control] only looks for in a list of
    one; and a single transaction-control statement is the "not allowed"
    error. *)
Theorem validate_sql_outcomes (parse : string -> ParseOutcome) (s : string) :
  (forall l, validate_sql parse s = inr l
             <-> exists raw, parse s = inr [raw] /\ l = [raw]
                             /\ IsA_TransactionStmt (stmt raw) = false)
  /\ (forall e, parse s = inl e -> validate_sql parse s = inl e)
  /\ (forall l, parse s = inr l -> List.length l <> 1%nat ->
                contains_transaction_control l = false
                /\ validate_sql parse s
                   = inl (ereport_error ERRCODE_SYNTAX_ERROR
                            "pg_retry: SQL must contain exactly one statement"))
  /\ (forall raw, parse s = inr [raw] -> IsA_TransactionStmt (stmt raw) = true ->
                  validate_sql parse s
                  = inl (ereport_error ERRCODE_FEATURE_NOT_SUPPORTED
                           "pg_retry: transaction control statements are not allowed")).
Proof.
  unfold validate_sql, is_single_statement.
  split; [|split; [|split]].
  - intros l. destruct (parse s) as [e|[|raw [|raw' l']]].
    + split; [discriminate|]. intros [raw [H _]]. discriminate.
    + split; [discriminate|]. intros [raw [H _]]. discriminate.
    + cbn [List.length Z.of_nat Z.eqb Pos.of_succ_nat Pos.eqb negb
           contains_transaction_control].
      destruct (IsA_TransactionStmt (stmt raw)) eqn:E.
      * split; [discriminate|]. intros [raw0 [H [_ H0]]]. injection H as <-. congruence.
      * split.
        -- intros H. injection H as <-. now exists raw.
        -- intros [raw0 [H [-> _]]]. injection H as <-. reflexivity.
    + split; [|intros [raw0 [H _]]; discriminate].
      destruct (Z.of_nat (List.length (raw :: raw' :: l')) =? 1) eqn:E;
        [|discriminate].
      apply Z.eqb_eq in E. cbn [List.length] in E. lia.
  - intros e ->. reflexivity.
  - intros l -> Hlen. destruct l as [|raw [|raw' l']];
      [split; reflexivity | cbn in Hlen; congruence |].
    split; [reflexivity|].
    destruct (Z.of_nat (List.length (raw :: raw' :: l')) =? 1) eqn:E; [|reflexivity].
    apply Z.eqb_eq in E. cbn [List.length] in E. lia.
  - intros raw -> E.
    cbn [List.length Z.of_nat Z.eqb Pos.of_succ_nat Pos.eqb negb
         contains_transaction_control].
    now rewrite E.
Qed.

(** An invocation none of whose parameters breaks a rule and whose
    statement the parser accepts is validated to its parameters with the
    defaults filled in. *)
Lemma valid_invocation_validated (guc : Guc) (h : Host) (args : Args)
    (s : string) (l : list RawStmt) (dflt : ArrayType) :
  arg_sql args = Some s ->
  pg_parse_query h s = inr l ->
  (forall k, violates guc h args k = false) ->
  extract_and_validate guc h args dflt
  = inr (filled_in guc args s
           match arg_retry_sqlstates args with Some a => a | None => dflt end)
    /\ 1 <= or_default (arg_max_tries args) (pg_retry_default_max_tries guc)
    /\ 0 <= or_default (arg_base_delay_ms args) (pg_retry_default_base_delay_ms guc)
       <= or_default (arg_max_delay_ms args) (pg_retry_default_max_delay_ms guc).
Proof.
  intros Hs Hp Hv.
  pose proof (Hv InvalidParameter) as Hpar.
  pose proof (Hv SyntaxError) as Hsyn.
  pose proof (Hv UnsupportedStatement) as Huns.
  cbn [violates] in Hpar, Hsyn, Huns. rewrite Hs, Hp in Hsyn, Huns.
  set (mt := or_default (arg_max_tries args) (pg_retry_default_max_tries guc)) in *.
  set (b := or_default (arg_base_delay_ms args) (pg_retry_default_base_delay_ms guc)) in *.
  set (m := or_default (arg_max_delay_ms args) (pg_retry_default_max_delay_ms guc)) in *.
  destruct (mt <? 1) eqn:E1; [discriminate|].
  destruct (b <? 0) eqn:E2; [discriminate|].
  destruct (m <? 0) eqn:E3; [discriminate|].
  destruct (m <? b) eqn:E4; [discriminate|].
  apply Z.ltb_ge in E1 as G1, E2 as G2, E3 as G3, E4 as G4.
  split; [|lia].
  unfold extract_and_validate. rewrite Hs. fold mt b m.
  rewrite E1, E2, E3, E4. cbn [orb].
  unfold validate_sql, is_single_statement. rewrite Hp.
  destruct l as [|raw [|raw' l']]; [discriminate| |discriminate].
  cbn [List.length Z.of_nat Z.eqb Pos.of_succ_nat Pos.eqb negb
       contains_transaction_control].
  rewrite Huns. reflexivity.
Qed.

(** Every rejection before the loop has one of the stated causes or is the
    parser's own error: an invocation that breaks none of the rules, with a
    statement the parser accepts, gets past the validation in both
    variants and runs the loop with its arguments, the GUC values standing
    in for the NULL ones, each variant with its own default list. *)
Theorem valid_invocation_is_not_rejected
    (fuel : nat) (guc : Guc) (h : Host) (args : Args) (s : string) (l : list RawStmt) :
  arg_sql args = Some s ->
  pg_parse_query h s = inr l ->
  (forall k, violates guc h args k = false) ->
  RetainLast.pg_retry_retry fuel guc h args
  = RetainLast.run_validated fuel h (filled_in guc args s (codes_retain_last guc args))
  /\ RethrowInCatch.pg_retry_retry fuel guc h args
     = RethrowInCatch.run_validated fuel h (filled_in guc args s (codes_rethrow guc args))
  /\ 1 <= max_tries (filled_in guc args s (codes_rethrow guc args))
  /\ 0 <= base_delay_ms (filled_in guc args s (codes_rethrow guc args))
     <= max_delay_ms (filled_in guc args s (codes_rethrow guc args)).
Proof.
  intros Hs Hp Hv.
  destruct (valid_invocation_validated guc h args s l
              (text_to_array (pg_retry_default_sqlstates_str guc)) Hs Hp Hv) as [HA Hr].
  destruct (valid_invocation_validated guc h args s l
              (build_sqlstate_array (pg_retry_default_sqlstates_str guc)) Hs Hp Hv)
    as [HB _].
  unfold RetainLast.pg_retry_retry, RethrowInCatch.pg_retry_retry.
  rewrite HA, HB. unfold codes_retain_last, codes_rethrow.
  split; [reflexivity|]. split; [reflexivity|]. exact Hr.
Qed.

(** When the numeric parameters are in order and the parser raises an error
    for the statement, that error is what the caller gets, untouched, from
    both variants, and nothing has been done to the host. *)
Theorem parser_error_is_propagated_untouched
    (fuel : nat) (guc : Guc) (h : Host) (args : Args) (s : string) (e : ErrorData) :
  arg_sql args = Some s ->
  pg_parse_query h s = inl e ->
  violates guc h args InvalidParameter = false ->
  RetainLast.pg_retry_retry fuel guc h args = Some (Rejected e, [])
  /\ RethrowInCatch.pg_retry_retry fuel guc h args = Some (Rejected e, []).
Proof.
  intros Hs Hp Hpar. cbn [violates] in Hpar.
  assert (H : forall dflt, extract_and_validate guc h args dflt = inl e).
  { intros dflt. unfold extract_and_validate. rewrite Hs.
    set (mt := or_default (arg_max_tries args) (pg_retry_default_max_tries guc)) in *.
    set (b := or_default (arg_base_delay_ms args) (pg_retry_default_base_delay_ms guc)) in *.
    set (m := or_default (arg_max_delay_ms args) (pg_retry_default_max_delay_ms guc)) in *.
    destruct (mt <? 1); [discriminate|].
    destruct (b <? 0); [discriminate|].
    destruct (m <? 0); [discriminate|].
    destruct (m <? b); [discriminate|]. cbn [orb].
    unfold validate_sql, is_single_statement. now rewrite Hp. }
  unfold RetainLast.pg_retry_retry, RethrowInCatch.pg_retry_retry.
  now rewrite !H.
Qed.

(** When the invocation is valid but [SPI_connect_ext] does not return
    [SPI_OK_CONNECT], both variants raise the connection failure 08006
    without beginning a subtransaction, executing the statement or calling
    [SPI_finish]. *)
Theorem connection_failure_is_reported
    (fuel : nat) (guc : Guc) (h : Host) (args : Args) (s : string) (l : list RawStmt) :
  arg_sql args = Some s ->
  pg_parse_query h s = inr l ->
  (forall k, violates guc h args k = false) ->
  SPI_connect_ext h <> SPI_OK_CONNECT ->
  RetainLast.pg_retry_retry fuel guc h args = Some (Rejected connection_error, [EvSpiConnect])
  /\ RethrowInCatch.pg_retry_retry fuel guc h args
     = Some (Rejected connection_error, [EvSpiConnect])
  /\ unpack_sql_state (sqlerrcode connection_error) = "08006"%string.
Proof.
  intros Hs Hp Hv Hc.
  destruct (valid_invocation_validated guc h args s l
              (text_to_array (pg_retry_default_sqlstates_str guc)) Hs Hp Hv) as [HA _].
  destruct (valid_invocation_validated guc h args s l
              (build_sqlstate_array (pg_retry_default_sqlstates_str guc)) Hs Hp Hv)
    as [HB _].
  unfold RetainLast.pg_retry_retry, RethrowInCatch.pg_retry_retry.
  rewrite HA, HB. unfold RetainLast.run_validated, RethrowInCatch.run_validated.
  rewrite (proj2 (Z.eqb_neq _ _) Hc). cbn [negb]. repeat split.
Qed.

(** ** The registered settings *)

(** The ranges [_PG_init] registers keep the defaults clear of two of the
    three checks on the numeric parameters, not of the third: with any
    settings the host accepts, a call that leaves [max_tries] and the two
    delays NULL breaks a rule on them exactly when the default base delay
    is set above the default maximum delay, which the ranges allow; both
    variants then reject it with the error about the order of the delays,
    whatever its statement.  The boot values are accepted, keep the
    order, and are the values the variables are initialised with. *)
Theorem registered_ranges_leave_the_delay_order_open
    (fuel : nat) (guc : Guc) (h : Host) (args : Args) (s : string) :
  guc_within_ranges _PG_init guc = true ->
  arg_sql args = Some s ->
  arg_max_tries args = None ->
  arg_base_delay_ms args = None ->
  arg_max_delay_ms args = None ->
  (1 <= pg_retry_default_max_tries guc <= INT_MAX
   /\ 0 <= pg_retry_default_base_delay_ms guc <= INT_MAX
   /\ 0 <= pg_retry_default_max_delay_ms guc <= INT_MAX)
  /\ (violates guc h args InvalidParameter = true
      <-> pg_retry_default_max_delay_ms guc < pg_retry_default_base_delay_ms guc)
  /\ (pg_retry_default_max_delay_ms guc < pg_retry_default_base_delay_ms guc ->
      RetainLast.pg_retry_retry fuel guc h args = Some (Rejected delay_order_error, [])
      /\ RethrowInCatch.pg_retry_retry fuel guc h args
         = Some (Rejected delay_order_error, []))
  /\ guc_at_boot _PG_init = boot_guc
  /\ guc_within_ranges _PG_init boot_guc = true
  /\ violates boot_guc h args InvalidParameter = false.
Proof.
  intros Hadm Hs H1 H2 H3.
  unfold guc_within_ranges, in_range in Hadm.
  cbn [_PG_init default_max_tries default_base_delay_ms default_max_delay_ms
       int_min int_max] in Hadm.
  apply andb_true_iff in Hadm as [Hadm Hc].
  apply andb_true_iff in Hadm as [Ha Hb].
  apply andb_true_iff in Ha as [Ha1 Ha2].
  apply andb_true_iff in Hb as [Hb1 Hb2].
  apply andb_true_iff in Hc as [Hc1 Hc2].
  apply Z.leb_le in Ha1, Ha2, Hb1, Hb2, Hc1, Hc2.
  split; [lia|].
  assert (Hv : violates guc h args InvalidParameter
               = (pg_retry_default_max_delay_ms guc <? pg_retry_default_base_delay_ms guc)).
  { cbn [violates]. rewrite H1, H2, H3. cbn [or_default].
    rewrite (proj2 (Z.ltb_ge (pg_retry_default_max_tries guc) 1)) by lia.
    rewrite (proj2 (Z.ltb_ge (pg_retry_default_base_delay_ms guc) 0)) by lia.
    rewrite (proj2 (Z.ltb_ge (pg_retry_default_max_delay_ms guc) 0)) by lia.
    reflexivity. }
  split; [rewrite Hv; apply Z.ltb_lt|].
  split.
  - intros Hlt.
    assert (H : forall dflt, extract_and_validate guc h args dflt = inl delay_order_error).
    { intros dflt. unfold extract_and_validate. rewrite Hs, H1, H2, H3. cbn [or_default].
      rewrite (proj2 (Z.ltb_ge (pg_retry_default_max_tries guc) 1)) by lia.
      rewrite (proj2 (Z.ltb_ge (pg_retry_default_base_delay_ms guc) 0)) by lia.
      rewrite (proj2 (Z.ltb_ge (pg_retry_default_max_delay_ms guc) 0)) by lia.
      cbn [orb]. now rewrite (proj2 (Z.ltb_lt _ _) Hlt). }
    unfold RetainLast.pg_retry_retry, RethrowInCatch.pg_retry_retry. now rewrite !H.
  - split; [reflexivity|]. split; [reflexivity|].
    cbn [violates]. now rewrite H1, H2, H3.
Qed.

(** ** How a call ends *)

Lemma retryable_failure_intro (h : Host) (codes : ArrayType) (k : nat) (e : ErrorData) :
  failure_at h k = Some e -> should_retry e codes = true ->
  retryable_failure h codes k = true.
Proof. intros He Hr. unfold retryable_failure. now rewrite He. Qed.

Lemma below_snoc (P : nat -> Prop) (n : nat) :
  (forall j, (j < n)%nat -> P j) -> P n -> forall j, (j < n + 1)%nat -> P j.
Proof.
  intros Hall Hn j Hj. destruct (Nat.eq_dec j n) as [->|Hne]; [exact Hn|].
  apply Hall. lia.
Qed.

(** The outcome of [src/src/pg_retry.c] is that of the first execution which
    is not a retryable failure with attempts left: all executions before it
    were retryable failures, it was the last attempt made, and either its
    rows are returned or its failure is rethrown, the latter only if the
    failure is not retryable or the attempt was the last one allowed. *)
Theorem rethrow_outcome_is_that_of_the_deciding_attempt
    (fuel : nat) (h : Host) (p : Params) (r : Result) (t : Trace) :
  1 <= max_tries p <= INT_MAX ->
  SPI_connect_ext h = SPI_OK_CONNECT ->
  RethrowInCatch.run_validated fuel h p = Some (r, t) ->
  exists k,
    n_attempts t = S k
    /\ Z.of_nat k < max_tries p
    /\ (forall j, (j < k)%nat -> retryable_failure h (retry_sqlstates p) j = true)
    /\ (returns_rows_of h k r
        \/ (rethrows_failure_of h k r
            /\ (retryable_failure h (retry_sqlstates p) k = false
                \/ Z.of_nat (S k) = max_tries p))).
Proof.
  intros Hm Hc. unfold RethrowInCatch.run_validated. rewrite Hc.
  cbn [Z.eqb negb Pos.eqb SPI_OK_CONNECT].
  destruct (RethrowInCatch.retry_loop fuel h p 1 RethrowInCatch.init [EvSpiConnect])
    as [rd|] eqn:Hl; [|discriminate].
  apply (rethrow_loop_invariant h p
           (fun a t => Z.of_nat (n_attempts t) = a - 1
                       /\ forall j, (j < n_attempts t)%nat ->
                                    retryable_failure h (retry_sqlstates p) j = true)
           (fun rd =>
              exists k,
                n_attempts (trace_of rd) = S k
                /\ Z.of_nat k < max_tries p
                /\ (forall j, (j < k)%nat ->
                              retryable_failure h (retry_sqlstates p) j = true)
                /\ match rd with
                   | RethrowInCatch.Falls st _ =>
                       RethrowInCatch.success st = true
                       /\ try_block (SPI_execute h k)
                          = inr (RethrowInCatch.processed_rows st)
                   | RethrowInCatch.Throws e _ =>
                       failure_at h k = Some e
                       /\ (retryable_failure h (retry_sqlstates p) k = false
                           \/ Z.of_nat (S k) = max_tries p)
                   end)) in Hl.
  - destruct Hl as [k [Hn [Hk [Hall Hend]]]]. intros H. exists k.
    unfold RethrowInCatch.finish in H.
    destruct rd as [st' t'|e t']; cbn [trace_of] in Hn.
    + destruct Hend as [Hs Hrows]. rewrite Hs in H. injection H as <- <-.
      rewrite n_attempts_finish. repeat (split; [assumption|]).
      left. now eexists.
    + destruct Hend as [He Hwhy]. injection H as <- <-.
      repeat (split; [assumption|]). right. split; [now exists e | exact Hwhy].
  - intros a u rows [Ha Hall] Hle Hrows. exists (n_attempts u). cbn [trace_of].
    rewrite n_attempts_app. change (n_attempts success_round) with 1%nat.
    split; [lia|]. split; [lia|]. split; [exact Hall|].
    split; [reflexivity | exact Hrows].
  - intros a u e [Ha Hall] Hle He Hwhy. exists (n_attempts u). cbn [trace_of].
    rewrite n_attempts_app, (proj1 (failed_round_counts p a e)).
    split; [lia|]. split; [lia|]. split; [exact Hall|]. split; [exact He|].
    destruct Hwhy as [Hno|Hlast]; [left | right; lia].
    unfold retryable_failure. now rewrite He.
  - intros a u e [Ha Hall] Hlt He Hr.
    rewrite n_attempts_app, (proj1 (retry_round_counts h p a e (n_sleeps u))).
    split; [lia|]. apply below_snoc; [exact Hall|].
    now apply (retryable_failure_intro h _ _ e).
  - unfold INT_MIN. lia.
  - lia.
  - reflexivity.
  - split; [reflexivity|]. intros j Hj. cbn in Hj. lia.
Qed.

(** In [src/pg_retry.c] the classification of a failure decides about the
    warning and the wait only, never about the outcome: for [max_tries]
    below [INT_MAX], the call goes on until an execution succeeds, whose
    rows it returns, or until [max_tries] executions have failed, in
    whatever way, and then rethrows the failure of the last one. *)
Theorem retain_last_outcome_ignores_the_classification
    (fuel : nat) (h : Host) (p : Params) (r : Result) (t : Trace) :
  1 <= max_tries p < INT_MAX ->
  SPI_connect_ext h = SPI_OK_CONNECT ->
  RetainLast.run_validated fuel h p = Some (r, t) ->
  exists k,
    n_attempts t = S k
    /\ Z.of_nat k < max_tries p
    /\ (forall j, (j < k)%nat -> fails_at h j)
    /\ (returns_rows_of h k r
        \/ (rethrows_failure_of h k r /\ Z.of_nat (S k) = max_tries p)).
Proof.
  intros Hm Hc. unfold RetainLast.run_validated. rewrite Hc.
  cbn [Z.eqb negb Pos.eqb SPI_OK_CONNECT].
  destruct (RetainLast.retry_loop fuel h p 1 RetainLast.init [EvSpiConnect])
    as [[st' t']|] eqn:Hl; [|discriminate].
  apply (retain_last_loop_invariant h p
           (fun a st t =>
              1 <= a <= max_tries p + 1
              /\ Z.of_nat (n_attempts t) = a - 1
              /\ (forall j, (j < n_attempts t)%nat -> fails_at h j)
              /\ (a = max_tries p + 1 ->
                  exists e k, n_attempts t = S k
                              /\ RetainLast.last_error st = Some e
                              /\ failure_at h k = Some e))
           (fun x =>
              exists k,
                n_attempts (snd x) = S k
                /\ Z.of_nat k < max_tries p
                /\ (forall j, (j < k)%nat -> fails_at h j)
                /\ if RetainLast.success (fst x)
                   then try_block (SPI_execute h k)
                        = inr (RetainLast.processed_rows (fst x))
                   else Z.of_nat (S k) = max_tries p
                        /\ exists e, RetainLast.last_error (fst x) = Some e
                                     /\ failure_at h k = Some e)) in Hl.
  - destruct Hl as [k [Hn [Hk [Hall Hend]]]]. cbn [fst snd] in *. intros H. exists k.
    unfold RetainLast.finish in H. destruct (RetainLast.success st').
    + injection H as <- <-. rewrite n_attempts_finish.
      repeat (split; [assumption|]). left. now eexists.
    + destruct Hend as [Hlast [e [Hle He]]]. rewrite Hle in H. injection H as <- <-.
      rewrite n_attempts_finish. repeat (split; [assumption|]).
      right. split; [now exists e | exact Hlast].
  - intros a st u rows [Ha [Hn [Hall _]]] _ Hle Hrows. exists (n_attempts u).
    cbn [fst snd RetainLast.success RetainLast.processed_rows].
    rewrite n_attempts_app. change (n_attempts success_round) with 1%nat.
    split; [lia|]. split; [lia|]. split; [exact Hall | exact Hrows].
  - intros a st u e [Ha [Hn [Hall _]]] _ Hle He _.
    rewrite wrap32_in_range by (unfold INT_MIN, INT_MAX in *; lia).
    rewrite n_attempts_app, (proj1 (failed_round_counts p a e)).
    split; [lia|]. split; [lia|]. split.
    + apply below_snoc; [exact Hall|]. unfold fails_at. now rewrite He.
    + intros _. exists e, (n_attempts u). cbn [RetainLast.last_error].
      split; [lia|]. split; [reflexivity | exact He].
  - intros a st u e [Ha [Hn [Hall _]]] _ Hlt He _.
    rewrite wrap32_in_range by (unfold INT_MIN, INT_MAX in *; lia).
    rewrite n_attempts_app, (proj1 (retry_round_counts h p a e (n_sleeps u))).
    split; [lia|]. split; [lia|]. split; [|lia].
    apply below_snoc; [exact Hall|]. unfold fails_at. now rewrite He.
  - intros a st u [Ha [Hn [Hall Hlast]]] Hs Hgt. cbn [fst snd]. rewrite Hs.
    destruct (Hlast ltac:(lia)) as [e [k [Hk [Hle He]]]]. exists k.
    split; [exact Hk|]. split; [lia|]. split; [intros j Hj; apply Hall; lia|].
    split; [lia|]. now exists e.
  - reflexivity.
  - split; [lia|]. split; [reflexivity|]. split; [intros j Hj; cbn in Hj; lia|]. lia.
Qed.

(** ** A release that fails *)

(** As long as no release fails, the rounds are those of the engine as
    modelled above. *)
Lemma releasing_rounds_agree (h : ReleasingHost) (p : Params) (attempt : Z) (t : Trace) :
  (forall k, release h k = None) ->
  (forall st, RetainLastReleasing.attempt_once h p attempt st t
              = RetainLast.attempt_once (executing h) p attempt st t)
  /\ (forall st, RethrowInCatchReleasing.attempt_once h p attempt st t
                 = RethrowInCatch.attempt_once (executing h) p attempt st t).
Proof.
  intros Hrel. split; intros st.
  - unfold RetainLastReleasing.attempt_once, RetainLast.attempt_once.
    cbv zeta. destruct (try_block _) as [e|rows]; [reflexivity|].
    now rewrite Hrel.
  - unfold RethrowInCatchReleasing.attempt_once, RethrowInCatch.attempt_once.
    cbv zeta. destruct (try_block _) as [e|rows]; [reflexivity|].
    now rewrite Hrel.
Qed.

Lemma releasing_loops_agree (h : ReleasingHost) (p : Params) (fuel : nat) :
  (forall k, release h k = None) ->
  forall (attempt : Z) (t : Trace),
    (forall st, RetainLastReleasing.retry_loop fuel h p attempt st t
                = RetainLast.retry_loop fuel (executing h) p attempt st t)
    /\ (forall st, RethrowInCatchReleasing.retry_loop fuel h p attempt st t
                   = RethrowInCatch.retry_loop fuel (executing h) p attempt st t).
Proof.
  intros Hrel. induction fuel as [|fuel IH]; intros attempt t; [now split|].
  destruct (releasing_rounds_agree h p attempt t Hrel) as [HA HB].
  split; intros st.
  - cbn [RetainLastReleasing.retry_loop RetainLast.retry_loop].
    destruct (attempt <=? max_tries p); [|reflexivity]. rewrite HA.
    destruct (RetainLast.attempt_once (executing h) p attempt st t) as [st' t'].
    destruct (RetainLast.success st'); [reflexivity|]. apply IH.
  - cbn [RethrowInCatchReleasing.retry_loop RethrowInCatch.retry_loop].
    destruct (attempt <=? max_tries p); [|reflexivity]. rewrite HB.
    destruct (RethrowInCatch.attempt_once (executing h) p attempt st t) as [st' t'|e t'];
      [|reflexivity].
    destruct (RethrowInCatch.success st'); [reflexivity|]. apply IH.
Qed.

(** [success] is set before the subtransaction is released and is not reset
    in the catch handler.  So when the first execution succeeds and the
    release of its subtransaction then fails, [src/pg_retry.c] always, and
    [src/src/pg_retry.c] whenever that failure is retryable and attempts are
    left, roll the subtransaction back, leave the loop at [if (success)
    break] and return the row count of the execution as a success: nothing
    was released, no further attempt is made, and the failure is not
    propagated.  [src/src/pg_retry.c] rethrows the failure when it is not
    retryable or no attempt is left.  When no release fails, the calls are
    those of the engine as modelled above. *)
Theorem failed_release_is_returned_as_success
    (h : ReleasingHost) (p : Params) (fuel : nat) (rows : Z) (e : ErrorData) :
  SPI_connect_ext (executing h) = SPI_OK_CONNECT ->
  1 <= max_tries p ->
  (1 <= fuel)%nat ->
  (try_block (SPI_execute (executing h) 0) = inr rows ->
   release h 0 = Some e ->
   (exists t,
       RetainLastReleasing.run_validated fuel h p = Some (Returned rows, t)
       /\ n_attempts t = 1%nat /\ n_released t = 0%nat /\ n_rolled_back t = 1%nat)
   /\ (should_retry e (retry_sqlstates p) = true -> 1 < max_tries p ->
       exists t,
         RethrowInCatchReleasing.run_validated fuel h p = Some (Returned rows, t)
         /\ n_attempts t = 1%nat /\ n_released t = 0%nat /\ n_rolled_back t = 1%nat
         /\ n_sleeps t = 1%nat)
   /\ (should_retry e (retry_sqlstates p) = false \/ max_tries p = 1 ->
       exists t,
         RethrowInCatchReleasing.run_validated fuel h p = Some (Rethrown e, t)
         /\ n_attempts t = 1%nat /\ n_released t = 0%nat))
  /\ ((forall k, release h k = None) ->
      RetainLastReleasing.run_validated fuel h p
      = RetainLast.run_validated fuel (executing h) p
      /\ RethrowInCatchReleasing.run_validated fuel h p
         = RethrowInCatch.run_validated fuel (executing h) p).
Proof.
  intros Hc Hm Hfuel.
  unfold RetainLastReleasing.run_validated, RethrowInCatchReleasing.run_validated,
    RetainLast.run_validated, RethrowInCatch.run_validated.
  rewrite Hc. cbn [Z.eqb negb Pos.eqb SPI_OK_CONNECT].
  split.
  2:{ intros Hall.
      destruct (releasing_loops_agree h p fuel Hall 1 [EvSpiConnect]) as [HA HB].
      now rewrite HA, HB. }
  intros Hrows Hrel. destruct fuel as [|fuel]; [lia|].
  cbn [RetainLastReleasing.retry_loop RethrowInCatchReleasing.retry_loop].
  rewrite (proj2 (Z.leb_le 1 (max_tries p)) Hm).
  unfold RetainLastReleasing.attempt_once, RethrowInCatchReleasing.attempt_once.
  cbv zeta.
  change (n_attempts ([EvSpiConnect] ++ [EvBeginSub])) with 0%nat.
  rewrite Hrows, Hrel. unfold classify, backoff.
  split; [|split].
  - destruct (should_retry e (retry_sqlstates p));
      destruct (1 =? max_tries p) eqn:E1; cbn [negb orb RetainLast.success];
      try (apply Z.eqb_neq in E1; rewrite (proj2 (Z.ltb_lt 1 (max_tries p))) by lia);
      unfold RetainLast.finish; cbn [RetainLast.success RetainLast.processed_rows];
      eexists; (split; [reflexivity|]); repeat split.
  - intros Hr Hlt. rewrite Hr. rewrite (proj2 (Z.eqb_neq 1 (max_tries p))) by lia.
    cbn [negb orb]. rewrite (proj2 (Z.ltb_lt 1 (max_tries p))) by lia.
    cbn [RethrowInCatch.success RethrowInCatch.finish RethrowInCatch.processed_rows].
    eexists. split; [reflexivity|]. repeat split.
  - intros Hwhy.
    assert (Hb : negb (should_retry e (retry_sqlstates p)) || (1 =? max_tries p) = true).
    { destruct Hwhy as [Hno | Hone]; [now rewrite Hno|].
      rewrite Hone. apply orb_true_r. }
    rewrite Hb. cbn [RethrowInCatch.finish].
    eexists. split; [reflexivity|].
    destruct (should_retry e (retry_sqlstates p)); repeat split.
Qed.

(** * The further properties at concrete invocations *)

Lemma build_sqlstate_array_fits_allocation_witness :
  Z.of_nat (List.length (build_sqlstate_array " 40001 , ,40P01,")) <= slots_allocated " 40001 , ,40P01,"
  /\ slots_allocated " 40001 , ,40P01,"
     = Z.of_nat (List.length (split_commas " 40001 , ,40P01,")).
Proof.
  apply (build_sqlstate_array_fits_allocation " 40001 , ,40P01,"). reflexivity.
Defined.

Lemma packed_code_is_retried_iff_listed_witness :
  unpack_sql_state (MAKE_SQLSTATE "4" "0" "P" "0" "1") = "40P01"%string
  /\ (should_retry {| sqlerrcode := MAKE_SQLSTATE "4" "0" "P" "0" "1"; message := None |}
        default_codes = true
      <-> In (Some "40P01"%string) default_codes /\ "40P01"%string <> "00000"%string).
Proof.
  apply (packed_code_is_retried_iff_listed "4" "0" "P" "0" "1" None default_codes);
    reflexivity.
Defined.

Lemma every_attempt_in_its_own_subtransaction_witness :
  exists r t,
    RetainLast.run_validated 6 host_division_then_ok (params_update 5) = Some (r, t)
    /\ events_in_order t = true
    /\ n_scopes t = n_attempts t
    /\ n_released t = match r with Returned _ => 1%nat | _ => 0%nat end
    /\ (n_rolled_back t + n_released t)%nat = n_attempts t.
Proof.
  destruct (RetainLast.run_validated 6 host_division_then_ok (params_update 5))
    as [[r t]|] eqn:E; [|vm_compute in E; discriminate].
  exists r, t. split; [reflexivity|].
  apply (every_attempt_in_its_own_subtransaction 6 host_division_then_ok
           (params_update 5) r t); [unfold INT_MAX; simpl; lia | left; exact E].
Defined.

Lemma spi_finish_is_skipped_by_the_rethrow_in_catch_witness :
  exists r t,
    RethrowInCatch.run_validated 3 host_scenario_c (params_update 2) = Some (r, t)
    /\ (RetainLast.run_validated 3 host_scenario_c (params_update 2) = Some (r, t) ->
        exists t', t = t' ++ [EvSpiFinish] /\ n_finished t' = 0%nat)
    /\ (RethrowInCatch.run_validated 3 host_scenario_c (params_update 2) = Some (r, t) ->
        match r with
        | Returned _ => exists t', t = t' ++ [EvSpiFinish] /\ n_finished t' = 0%nat
        | _ => exists e, r = Rethrown e /\ n_finished t = 0%nat
        end).
Proof.
  assert (Hm : 1 <= max_tries (params_update 2) <= INT_MAX)
    by (unfold INT_MAX; simpl; lia).
  pose proof (fun r t => spi_finish_is_skipped_by_the_rethrow_in_catch 3 host_scenario_c
                           (params_update 2) r t Hm eq_refl) as H.
  destruct (RethrowInCatch.run_validated 3 host_scenario_c (params_update 2))
    as [[r t]|] eqn:E; [|vm_compute in E; discriminate].
  exists r, t. split; [reflexivity|]. exact (H r t).
Defined.

Lemma success_after_retried_failures_witness :
  exists tA tB,
    RetainLast.run_validated 4 (host_failing_first 2 serialization_failure_at)
      (params_update 3) = Some (Returned (wrap32 7), tA)
    /\ RethrowInCatch.run_validated 4 (host_failing_first 2 serialization_failure_at)
         (params_update 3) = Some (Returned (wrap32 7), tB)
    /\ n_attempts tA = 3%nat /\ n_sleeps tA = 2%nat /\ n_warnings tA = 2%nat
    /\ n_attempts tB = 3%nat /\ n_sleeps tB = 2%nat /\ n_warnings tB = 2%nat
    /\ (0 <= 7 <= INT_MAX -> wrap32 7 = 7).
Proof.
  apply (success_after_retried_failures (host_failing_first 2 serialization_failure_at)
           (params_update 3) 2 4 SPI_OK_UPDATE 7).
  - reflexivity.
  - unfold INT_MAX. simpl. lia.
  - intros k Hk. destruct k as [|[|k]]; [reflexivity | reflexivity | lia].
  - reflexivity.
  - unfold SPI_OK_UPDATE. lia.
  - lia.
Defined.

Lemma negative_result_code_is_an_internal_error_witness :
  failure_at host_spi_error 0
  = Some (ereport_error ERRCODE_INTERNAL_ERROR "pg_retry: SPI_execute failed with code -6")
  /\ unpack_sql_state ERRCODE_INTERNAL_ERROR = "XX000"%string
  /\ (should_retry
        (ereport_error ERRCODE_INTERNAL_ERROR "pg_retry: SPI_execute failed with code -6")
        default_codes = true
      <-> In (Some "XX000"%string) default_codes)
  /\ (~ In (Some "XX000"%string) default_codes ->
      RethrowInCatch.run_validated 4 host_spi_error (params_update 3)
      = Some (Rethrown (ereport_error ERRCODE_INTERNAL_ERROR
                          "pg_retry: SPI_execute failed with code -6"),
              [EvSpiConnect; EvBeginSub; EvExecute; EvRollbackSub])).
Proof.
  apply (negative_result_code_is_an_internal_error host_spi_error (params_update 3) 4 (-6) 0).
  - reflexivity.
  - unfold INT_MAX. simpl. lia.
  - reflexivity.
  - lia.
  - lia.
Defined.

Lemma warnings_number_the_attempts_witness :
  exists r t,
    RethrowInCatch.run_validated 3 host_scenario_c (params_update 2) = Some (r, t)
    /\ (forall k w, nth_error (warnings t) k = Some w ->
                    warning_of host_scenario_c (params_update 2) k w)
    /\ (n_warnings t <= n_attempts t <= S (n_warnings t))%nat.
Proof.
  destruct (RethrowInCatch.run_validated 3 host_scenario_c (params_update 2))
    as [[r t]|] eqn:E; [|vm_compute in E; discriminate].
  exists r, t. split; [reflexivity|].
  apply (warnings_number_the_attempts 3 host_scenario_c (params_update 2) r t);
    [unfold INT_MAX; simpl; lia | exact E].
Defined.

Lemma waits_are_bounded_witness :
  exists r t,
    RethrowInCatch.run_validated 4 host_long32 (params_update 3) = Some (r, t)
    /\ Forall (wait_in_bounds 1000) (sleep_usecs t)
    /\ Z.of_nat (n_sleeps t) <= 3 - 1
    /\ total_sleep_usec t <= (3 - 1) * (1000 * longest_delay_ms 1000).
Proof.
  destruct (RethrowInCatch.run_validated 4 host_long32 (params_update 3))
    as [[r t]|] eqn:E; [|vm_compute in E; discriminate].
  exists r, t. split; [reflexivity|].
  apply (waits_are_bounded 4 host_long32 (params_update 3) r t).
  - simpl. lia.
  - simpl. lia.
  - unfold INT_MAX. simpl. lia.
  - intros k. split; discriminate.
  - right. vm_compute. discriminate.
  - right. split; [unfold INT_MAX; simpl; lia | exact E].
Defined.

Lemma delay_grows_up_to_the_cap_witness :
  calculate_delay Long32 (1 # 3) 3 50 1000 <= calculate_delay Long32 (2 # 3) 6 50 1000
  /\ calculate_delay Long32 (1 # 3) 9 50 1000 = calculate_delay Long32 (1 # 3) 6 50 1000.
Proof.
  split.
  - apply (delay_grows_up_to_the_cap Long32 (1 # 3) (2 # 3) 3 6 50 1000);
      try discriminate; try (unfold INT_MAX; lia).
    right. vm_compute. discriminate.
  - apply (delay_grows_up_to_the_cap Long32 (1 # 3) (1 # 3) 6 9 50 1000);
      try discriminate; unfold INT_MAX; lia.
Defined.

Lemma delay_without_jitter_witness :
  calculate_delay Long32 (1 # 2) 3 50 1000 = Z.max 1 (Z.min (50 * 2 ^ (3 - 1)) 1000).
Proof.
  apply (delay_without_jitter Long32 3 50 1000); unfold INT_MAX; lia.
Defined.

Lemma valid_invocation_is_not_rejected_witness :
  RetainLast.pg_retry_retry 4 boot_guc host_scenario_c (args_update 2)
  = RetainLast.run_validated 4 host_scenario_c
      (filled_in boot_guc (args_update 2) "UPDATE t SET x=1"
         (codes_retain_last boot_guc (args_update 2)))
  /\ RethrowInCatch.pg_retry_retry 4 boot_guc host_scenario_c (args_update 2)
     = RethrowInCatch.run_validated 4 host_scenario_c
         (filled_in boot_guc (args_update 2) "UPDATE t SET x=1"
            (codes_rethrow boot_guc (args_update 2)))
  /\ 1 <= max_tries (filled_in boot_guc (args_update 2) "UPDATE t SET x=1"
                       (codes_rethrow boot_guc (args_update 2)))
  /\ 0 <= base_delay_ms (filled_in boot_guc (args_update 2) "UPDATE t SET x=1"
                           (codes_rethrow boot_guc (args_update 2)))
     <= max_delay_ms (filled_in boot_guc (args_update 2) "UPDATE t SET x=1"
                        (codes_rethrow boot_guc (args_update 2))).
Proof.
  apply (valid_invocation_is_not_rejected 4 boot_guc host_scenario_c (args_update 2)
           "UPDATE t SET x=1" [ {| stmt := T_UpdateStmt |} ]).
  - reflexivity.
  - reflexivity.
  - intros k. destruct k; reflexivity.
Defined.

Lemma parser_error_is_propagated_untouched_witness :
  RetainLast.pg_retry_retry 4 boot_guc host_parser_error args_statement_only
  = Some (Rejected parser_error, [])
  /\ RethrowInCatch.pg_retry_retry 4 boot_guc host_parser_error args_statement_only
     = Some (Rejected parser_error, []).
Proof.
  apply (parser_error_is_propagated_untouched 4 boot_guc host_parser_error
           args_statement_only "UPDATE t SET x=1" parser_error); reflexivity.
Defined.

Lemma connection_failure_is_reported_witness :
  RetainLast.pg_retry_retry 4 boot_guc host_no_connection args_statement_only
  = Some (Rejected connection_error, [EvSpiConnect])
  /\ RethrowInCatch.pg_retry_retry 4 boot_guc host_no_connection args_statement_only
     = Some (Rejected connection_error, [EvSpiConnect])
  /\ unpack_sql_state (sqlerrcode connection_error) = "08006"%string.
Proof.
  apply (connection_failure_is_reported 4 boot_guc host_no_connection
           args_statement_only "UPDATE t SET x=1" [ {| stmt := T_UpdateStmt |} ]).
  - reflexivity.
  - reflexivity.
  - intros k. destruct k; reflexivity.
  - discriminate.
Defined.

Lemma registered_ranges_leave_the_delay_order_open_witness :
  (1 <= 3 <= INT_MAX /\ 0 <= 2000 <= INT_MAX /\ 0 <= 1000 <= INT_MAX)
  /\ (violates guc_delays_swapped host_scenario_c args_statement_only InvalidParameter = true
      <-> 1000 < 2000)
  /\ (1000 < 2000 ->
      RetainLast.pg_retry_retry 4 guc_delays_swapped host_scenario_c args_statement_only
      = Some (Rejected delay_order_error, [])
      /\ RethrowInCatch.pg_retry_retry 4 guc_delays_swapped host_scenario_c
           args_statement_only
         = Some (Rejected delay_order_error, []))
  /\ guc_at_boot _PG_init = boot_guc
  /\ guc_within_ranges _PG_init boot_guc = true
  /\ violates boot_guc host_scenario_c args_statement_only InvalidParameter = false.
Proof.
  apply (registered_ranges_leave_the_delay_order_open 4 guc_delays_swapped host_scenario_c
           args_statement_only "UPDATE t SET x=1"); reflexivity.
Defined.

Lemma rethrow_outcome_is_that_of_the_deciding_attempt_witness :
  exists r t,
    RethrowInCatch.run_validated 6 host_division_then_ok (params_update 5) = Some (r, t)
    /\ exists k,
         n_attempts t = S k
         /\ Z.of_nat k < 5
         /\ (forall j, (j < k)%nat ->
                       retryable_failure host_division_then_ok default_codes j = true)
         /\ (returns_rows_of host_division_then_ok k r
             \/ (rethrows_failure_of host_division_then_ok k r
                 /\ (retryable_failure host_division_then_ok default_codes k = false
                     \/ Z.of_nat (S k) = 5))).
Proof.
  destruct (RethrowInCatch.run_validated 6 host_division_then_ok (params_update 5))
    as [[r t]|] eqn:E; [|vm_compute in E; discriminate].
  exists r, t. split; [reflexivity|].
  apply (rethrow_outcome_is_that_of_the_deciding_attempt 6 host_division_then_ok
           (params_update 5) r t); [unfold INT_MAX; simpl; lia | reflexivity | exact E].
Defined.

Lemma retain_last_outcome_ignores_the_classification_witness :
  exists r t,
    RetainLast.run_validated 6 host_division_then_ok (params_update 5) = Some (r, t)
    /\ exists k,
         n_attempts t = S k
         /\ Z.of_nat k < 5
         /\ (forall j, (j < k)%nat -> fails_at host_division_then_ok j)
         /\ (returns_rows_of host_division_then_ok k r
             \/ (rethrows_failure_of host_division_then_ok k r /\ Z.of_nat (S k) = 5)).
Proof.
  destruct (RetainLast.run_validated 6 host_division_then_ok (params_update 5))
    as [[r t]|] eqn:E; [|vm_compute in E; discriminate].
  exists r, t. split; [reflexivity|].
  apply (retain_last_outcome_ignores_the_classification 6 host_division_then_ok
           (params_update 5) r t); [unfold INT_MAX; simpl; lia | reflexivity | exact E].
Defined.

Lemma retain_last_exhaustion_witness :
  exists e t,
    failure_at host_scenario_c 1 = Some e
    /\ RetainLast.run_validated 3 host_scenario_c (params_update 2) = Some (Rethrown e, t)
    /\ n_attempts t = 2%nat /\ n_sleeps t = 1%nat /\ n_warnings t = 2%nat.
Proof.
  apply (retain_last_exhaustion host_scenario_c (params_update 2) 1 3).
  - reflexivity.
  - reflexivity.
  - unfold INT_MAX. simpl. lia.
  - intros k Hk. destruct k as [|[|k]]; [reflexivity | reflexivity | lia].
  - lia.
Defined.

Lemma rethrow_nonretryable_immediate_witness :
  exists t0,
    RethrowInCatch.run_validated 1 host_division_then_ok (params_update 5)
    = Some (Rethrown division_by_zero, t0 ++ [EvBeginSub; EvExecute; EvRollbackSub])
    /\ n_attempts t0 = 0%nat /\ n_sleeps t0 = 0%nat /\ n_warnings t0 = 0%nat.
Proof.
  apply (rethrow_nonretryable_immediate host_division_then_ok (params_update 5) 0 1
           division_by_zero).
  - reflexivity.
  - unfold INT_MAX. simpl. lia.
  - intros k Hk. lia.
  - reflexivity.
  - reflexivity.
  - lia.
Defined.

Lemma rethrow_sleeps_between_attempts_witness :
  exists r t,
    RethrowInCatch.run_validated 4 (host_failing_first 2 serialization_failure_at)
      (params_update 3) = Some (r, t)
    /\ sleeps_between_attempts t = true
    /\ Z.of_nat (n_attempts t) <= 3.
Proof.
  destruct (RethrowInCatch.run_validated 4 (host_failing_first 2 serialization_failure_at)
              (params_update 3)) as [[r t]|] eqn:E; [|vm_compute in E; discriminate].
  exists r, t. split; [reflexivity|].
  apply (rethrow_sleeps_between_attempts (host_failing_first 2 serialization_failure_at)
           (params_update 3) 4 r t); [unfold INT_MAX; simpl; lia | exact E].
Defined.

Lemma retain_last_sleeps_between_attempts_witness :
  exists r t,
    RetainLast.run_validated 4 (host_failing_first 2 serialization_failure_at)
      (params_update 3) = Some (r, t)
    /\ sleeps_between_attempts t = true
    /\ Z.of_nat (n_attempts t) <= 3.
Proof.
  destruct (RetainLast.run_validated 4 (host_failing_first 2 serialization_failure_at)
              (params_update 3)) as [[r t]|] eqn:E; [|vm_compute in E; discriminate].
  exists r, t. split; [reflexivity|].
  apply (retain_last_sleeps_between_attempts (host_failing_first 2 serialization_failure_at)
           (params_update 3) 4 r t); [unfold INT_MAX; simpl; lia | exact E].
Defined.

Lemma single_try_never_sleeps_witness :
  exists rA tA rB tB,
    RetainLast.run_validated 2 host_always_failing (params_update 1) = Some (rA, tA)
    /\ RethrowInCatch.run_validated 2 host_always_failing (params_update 1) = Some (rB, tB)
    /\ n_attempts tA = 1%nat /\ n_sleeps tA = 0%nat
    /\ n_attempts tB = 1%nat /\ n_sleeps tB = 0%nat.
Proof.
  apply (single_try_never_sleeps host_always_failing (params_update 1) 2);
    [reflexivity | reflexivity | lia].
Defined.

Lemma rethrow_always_ends_witness :
  exists x, RethrowInCatch.run_validated 3 host_always_failing (params_update 3) = Some x.
Proof.
  apply (rethrow_always_ends host_always_failing (params_update 3) 3);
    [unfold INT_MAX; simpl; lia | simpl; lia].
Defined.

Lemma retain_last_ends_below_int_max_witness :
  exists x, RetainLast.run_validated 4 host_always_failing (params_update 3) = Some x.
Proof.
  apply (retain_last_ends_below_int_max host_always_failing (params_update 3) 4);
    [unfold INT_MAX; simpl; lia | simpl; lia].
Defined.

Lemma failed_release_is_returned_as_success_witness :
  exists tA tB,
    RetainLastReleasing.run_validated 2 host_release_fails (params_update 3)
    = Some (Returned 7, tA)
    /\ RethrowInCatchReleasing.run_validated 2 host_release_fails (params_update 3)
       = Some (Returned 7, tB)
    /\ n_released tA = 0%nat /\ n_rolled_back tA = 1%nat
    /\ n_released tB = 0%nat /\ n_rolled_back tB = 1%nat.
Proof.
  assert (Hm : 1 <= max_tries (params_update 3)) by (simpl; lia).
  destruct (proj1 (failed_release_is_returned_as_success host_release_fails
                     (params_update 3) 2 7
                     (serialization_failure "could not serialize access")
                     eq_refl Hm (le_S 1 1 (le_n 1)))
              eq_refl eq_refl) as [[tA [HA [_ [A1 A2]]]] [HB _]].
  destruct (HB eq_refl ltac:(simpl; lia)) as [tB [HB' [_ [B1 [B2 _]]]]].
  exists tA, tB. repeat split; assumption.
Defined.
